(** * OpenArm WebConnect: serial protocol, frame synchroniser, throttled
      writer and CDN manifest resolver.

    A shallow embedding of the TypeScript sources under
    [apps/webconnect/src/lib] and of the CDN asset loader, with the
    properties of the design document stated and proved against it. *)

From Stdlib Require Import ZArith QArith List Lia Bool.
From Stdlib Require Import Floats.SpecFloat.
From Stdlib Require Import Ascii.
From stdpp Require Import base option list strings gmap.

Local Open Scope Z_scope.

(** ** JavaScript helpers shared by the components *)

(** A byte is a [Z]; a [Uint8Array] only ever holds values in [0,255]. *)
Definition is_byte (b : Z) : Prop := 0 <= b < 256.

Definition bytes_ok (l : list Z) : Prop := Forall is_byte l.

(** Storing a number into a [Uint8Array] slot keeps its low eight bits. *)
Definition to_uint8 (v : Z) : Z := v mod 256.

(** Reading slot [i] of a typed array. Every read of the sources modelled
    with it is in bounds; out of bounds it yields 0 here. *)
Definition rd (buf : list Z) (i : nat) : Z := default 0 (buf !! i).

(** Relative index resolution of [slice]: negative indices count from the
    end, everything is clamped to [0, len]. *)
Definition rel_index (len k : Z) : Z :=
  if k <? 0 then Z.max (len + k) 0 else Z.min k len.

(** [Array.prototype.slice] and [TypedArray.prototype.slice];
    [None] as the end index stands for an omitted argument. *)
Definition slice {A} (l : list A) (s : Z) (e : option Z) : list A :=
  let len := Z.of_nat (length l) in
  let from := rel_index len s in
  let to := match e with Some e => rel_index len e | None => len end in
  take (Z.to_nat (to - from)) (drop (Z.to_nat from) l).

(** Configuration constants ([config/constants.ts]). *)
Module SERIAL_CONFIG.
Definition writeThrottleHz : Z := 100.
Definition maxPacketSize : nat := 256.
Definition minPacketSize : nat := 6.
End SERIAL_CONFIG.

Module PROTOCOL_CONFIG.
Definition syncWord : Z := 0xaa55.
Definition setJointAngle : Z := 0x01.
Definition ack : Z := 0x02.
Definition telemetry : Z := 0x03.
End PROTOCOL_CONFIG.

Definition SYNC_WORD : Z := PROTOCOL_CONFIG.syncWord.
Definition CMD_SET_JOINT_ANGLE : Z := PROTOCOL_CONFIG.setJointAngle.
Definition CMD_ACK : Z := PROTOCOL_CONFIG.ack.
Definition CMD_TELEMETRY : Z := PROTOCOL_CONFIG.telemetry.
Definition PACKET_MIN_SIZE : nat := SERIAL_CONFIG.minPacketSize.
Definition PACKET_MAX_SIZE : nat := SERIAL_CONFIG.maxPacketSize.

(** ** Checksum ([protocol/checksum.ts]) *)

(** The [for] loop of [calculateChecksum], with the accumulator explicit. *)
Fixpoint xor_loop (checksum : Z) (data : list Z) : Z :=
  match data with
  | [] => checksum
  | d :: rest => xor_loop (Z.lxor checksum d) rest
  end.

Definition calculateChecksum (data : list Z) : Z :=
  Z.land (xor_loop 0 data) 0xff.

Definition verifyChecksum (data : list Z) (checksum : Z) : bool :=
  calculateChecksum data =? checksum.

(** ** Packet codec ([protocol/packet.ts]) *)

Record Packet := mkPacket {
  sync : Z;
  length_ : Z;
  command : Z;
  payload : list Z;
  checksum : Z
}.

(** The errors the codec can raise: a [ProtocolError] with its message
    context, or the [RangeError] of a [DataView] read out of bounds. *)
Inductive CodecError :=
| PacketTooSmall (size : nat)
| InvalidSyncWord (sync : Z)
| IncompletePacket (expected : Z) (got : nat)
| RangeError.

Definition message (e : CodecError) : string :=
  match e with
  | PacketTooSmall _ => "Packet too small"
  | InvalidSyncWord _ => "Invalid sync word"
  | IncompletePacket _ _ => "Incomplete packet"
  | RangeError => "Offset is outside the bounds of the DataView"
  end.

Inductive result (A : Type) :=
| Ok (a : A)
| Throw (e : CodecError).
Arguments Ok {A} a.
Arguments Throw {A} e.

#[global] Instance result_ret : MRet result := fun A a => Ok a.
#[global] Instance result_bind : MBind result := fun A B k r =>
  match r with
  | Ok a => k a
  | Throw e => Throw e
  end.

(** [DataView] reads over a byte buffer; out of bounds is a [RangeError]. *)
Definition getUint8 (view : list Z) (off : Z) : result Z :=
  if off <? 0 then Throw RangeError
  else match view !! Z.to_nat off with
       | Some b => Ok b
       | None => Throw RangeError
       end.

Definition getUint16 (view : list Z) (off : Z) (littleEndian : bool) : result Z :=
  b0 ← getUint8 view off;
  b1 ← getUint8 view (off + 1);
  Ok (if littleEndian then b1 * 256 + b0 else b0 * 256 + b1).

Definition parsePacket (buffer : list Z) : result Packet :=
  if (length buffer <? 5)%nat then Throw (PacketTooSmall (length buffer))
  else
    sync ← getUint16 buffer 0 false;
    if negb (sync =? SYNC_WORD) then Throw (InvalidSyncWord sync)
    else
      len ← getUint8 buffer 2;
      command ← getUint8 buffer 3;
      if Z.of_nat (length buffer) <? 4 + len + 1
      then Throw (IncompletePacket (4 + len + 1) (length buffer))
      else
        let payload := slice buffer 4 (Some (4 + len)) in
        checksum ← getUint8 buffer (4 + len);
        Ok (mkPacket sync len command payload checksum).

(** *** Numbers and the [DataView] float accessors *)

(** A JavaScript number is an IEEE-754 binary64 value; [spec_float] of the
    standard library gives sign, mantissa and exponent. *)
Definition number : Type := spec_float.

(** Rounding to the nearest binary32 value, ties to even, as [setFloat32]
    does before it stores. *)
Definition to_float32 (x : number) : spec_float :=
  match x with
  | S754_finite s m e => binary_round 24 128 s m e
  | _ => x
  end.

(** The binary32 bit pattern: sign, eight exponent bits, 23 fraction bits.
    NaN is stored as the canonical quiet NaN. *)
Definition float32_bits (x : spec_float) : Z :=
  match x with
  | S754_zero s => if s then 0x80000000 else 0
  | S754_infinity s => (if s then 0x80000000 else 0) + 0x7F800000
  | S754_nan => 0x7FC00000
  | S754_finite s m e =>
      (if s then 0x80000000 else 0) +
      (if Zpos m <? 0x800000 then Zpos m
       else (e + 150) * 0x800000 + (Zpos m - 0x800000))
  end.

(** The value of a binary32 bit pattern, as the binary64 number
    [getFloat32] returns. *)
Definition float32_value (w : Z) : number :=
  let s := Z.testbit w 31 in
  let E := Z.land (Z.shiftr w 23) 0xff in
  let f := Z.land w 0x7FFFFF in
  if E =? 0 then
    if f =? 0 then S754_zero s else binary_round 53 1024 s (Z.to_pos f) (-149)
  else if E =? 255 then
    if f =? 0 then S754_infinity s else S754_nan
  else binary_round 53 1024 s (Z.to_pos (f + 0x800000)) (E - 150).

(** The four bytes of a 32-bit word, least significant first. *)
Definition le32 (w : Z) : list Z :=
  [Z.land w 0xff; Z.land (Z.shiftr w 8) 0xff;
   Z.land (Z.shiftr w 16) 0xff; Z.land (Z.shiftr w 24) 0xff].

(** The word of four bytes, least significant first. *)
Definition le32_word (bs : list Z) : Z :=
  rd bs 0 + Z.shiftl (rd bs 1) 8 + Z.shiftl (rd bs 2) 16 + Z.shiftl (rd bs 3) 24.

(** Storing bytes through a [DataView]: a [RangeError] unless they all
    fit. *)
Fixpoint store (view : list Z) (off : nat) (bs : list Z) : list Z :=
  match bs with
  | [] => view
  | b :: rest => store (<[off := b]> view) (S off) rest
  end.

Definition setBytes (view : list Z) (off : Z) (bs : list Z) : result (list Z) :=
  if (off <? 0) || (Z.of_nat (length view) <? off + Z.of_nat (length bs))
  then Throw RangeError
  else Ok (store view (Z.to_nat off) bs).

Definition setUint8 (view : list Z) (off : Z) (v : Z) : result (list Z) :=
  setBytes view off [to_uint8 v].

Definition setUint16 (view : list Z) (off : Z) (v : Z) (littleEndian : bool)
  : result (list Z) :=
  let hi := Z.land (Z.shiftr v 8) 0xff in
  let lo := Z.land v 0xff in
  setBytes view off (if littleEndian then [lo; hi] else [hi; lo]).

Definition setFloat32 (view : list Z) (off : Z) (x : number) (littleEndian : bool)
  : result (list Z) :=
  let bs := le32 (float32_bits (to_float32 x)) in
  setBytes view off (if littleEndian then bs else rev bs).

Definition getFloat32 (view : list Z) (off : Z) (littleEndian : bool) : result number :=
  if (off <? 0) || (Z.of_nat (length view) <? off + 4) then Throw RangeError
  else
    let bs := take 4 (drop (Z.to_nat off) view) in
    Ok (float32_value (le32_word (if littleEndian then bs else rev bs))).

Definition JointAngles : Type := number * number * number.

Definition encodeAngles (angles : JointAngles) : result (list Z) :=
  let '(a0, a1, a2) := angles in
  let buffer := replicate 17 0 in
  v ← setUint16 buffer 0 SYNC_WORD false;
  v ← setUint8 v 2 12;
  v ← setUint8 v 3 CMD_SET_JOINT_ANGLE;
  v ← setFloat32 v 4 a0 true;
  v ← setFloat32 v 8 a1 true;
  v ← setFloat32 v 12 a2 true;
  let payloadForChecksum := slice v 3 (Some 16) in
  let checksum := calculateChecksum payloadForChecksum in
  v ← setUint8 v 16 checksum;
  Ok v.

(** ** Stream frame synchroniser ([serial/reader.ts]) *)

Module Reader.

Inductive ReaderState := IDLE | SYNCING | READING_HEADER | READING_PAYLOAD.

(** The mutable fields of a [SerialReader]. The scratch [buffer] is a
    [Uint8Array] of [PACKET_MAX_SIZE] slots allocated once. *)
Record SerialReader := mkReader {
  state : ReaderState;
  buffer : list Z;
  bufferIndex : nat;
  expectedLength : Z;
  isReading : bool
}.

(** What the error callback receives: the exception of [parsePacket],
    or the rejection of a transport read. *)
Inductive ReaderError :=
| ParseFailure (err : CodecError)
| ReadFailure.

(** A call of one of the two callbacks handed to the constructor. *)
Inductive Callback :=
| onPacket (packet : Packet)
| onError (error : ReaderError).

Definition new : SerialReader :=
  mkReader IDLE (replicate PACKET_MAX_SIZE 0) 0 0 false.

(** [this.buffer[this.bufferIndex++] = byte]: a store past the end of a
    typed array is dropped, the index still advances. *)
Definition push_byte (r : SerialReader) (byte : Z) : SerialReader :=
  mkReader (state r) (<[bufferIndex r := to_uint8 byte]> (buffer r))
           (S (bufferIndex r)) (expectedLength r) (isReading r).

Definition handleSyncing (r : SerialReader) (byte : Z) : SerialReader :=
  let r := push_byte r byte in
  if (2 <=? bufferIndex r)%nat then
    let sync := rd (buffer r) 0 * 256 + rd (buffer r) 1 in
    if sync =? SYNC_WORD then
      mkReader READING_HEADER (buffer r) (bufferIndex r) (expectedLength r) (isReading r)
    else
      mkReader (state r) (<[0%nat := rd (buffer r) 1]> (buffer r)) 1
               (expectedLength r) (isReading r)
  else r.

Definition handleReadingHeader (r : SerialReader) (byte : Z) : SerialReader :=
  let r := push_byte r byte in
  if (4 <=? bufferIndex r)%nat then
    mkReader READING_PAYLOAD (buffer r) (bufferIndex r) (rd (buffer r) 2) (isReading r)
  else r.

Definition processPacket (r : SerialReader) : list Callback :=
  let packetData := slice (buffer r) 0 (Some (Z.of_nat (bufferIndex r))) in
  match parsePacket packetData with
  | Ok packet => [onPacket packet]
  | Throw err => [onError (ParseFailure err)]
  end.

Definition resetState (r : SerialReader) : SerialReader :=
  mkReader SYNCING (buffer r) 0 0 (isReading r).

Definition handleReadingPayload (r : SerialReader) (byte : Z)
  : SerialReader * list Callback :=
  let r := push_byte r byte in
  let totalExpected := 4 + expectedLength r + 1 in
  if totalExpected <=? Z.of_nat (bufferIndex r) then
    (resetState r, processPacket r)
  else (r, []).

(** One iteration of the [for] loop of [processBytes]; the [switch] has
    no case for [IDLE]. *)
Definition processByte (r : SerialReader) (byte : Z) : SerialReader * list Callback :=
  match state r with
  | SYNCING => (handleSyncing r byte, [])
  | READING_HEADER => (handleReadingHeader r byte, [])
  | READING_PAYLOAD => handleReadingPayload r byte
  | IDLE => (r, [])
  end.

Fixpoint processBytes (r : SerialReader) (data : list Z)
  : SerialReader * list Callback :=
  match data with
  | [] => (r, [])
  | byte :: rest =>
      let '(r1, out1) := processByte r byte in
      let '(r2, out2) := processBytes r1 rest in
      (r2, out1 ++ out2)
  end.

(** What [await this.reader.read()] yields: a chunk, the end of the
    stream, or a rejection. *)
Inductive ReadResult :=
| Chunk (value : list Z)
| Done
| Rejected.

(** The [while] loop of [start] over the successive read results; the
    list running out stands for a read that has not settled yet. [stop]
    is not among the events here, so the loop test [this.isReading] holds
    at every turn. *)
Fixpoint readLoop (r : SerialReader) (reads : list ReadResult)
  : SerialReader * list Callback :=
  match reads with
  | [] => (r, [])
  | Chunk value :: rest =>
      let '(r1, out1) := processBytes r value in
      let '(r2, out2) := readLoop r1 rest in
      (r2, out1 ++ out2)
  | Done :: _ =>
      (mkReader (state r) (buffer r) (bufferIndex r) (expectedLength r) false, [])
  | Rejected :: _ =>
      (mkReader (state r) (buffer r) (bufferIndex r) (expectedLength r) false,
       [onError ReadFailure])
  end.

Definition start (r : SerialReader) (reads : list ReadResult)
  : SerialReader * list Callback :=
  if isReading r then (r, [])
  else
    readLoop (mkReader SYNCING (buffer r) 0 (expectedLength r) true) reads.

(** The packets among the callbacks, in delivery order. *)
Definition packets (out : list Callback) : list Packet :=
  omap (fun c => match c with onPacket p => Some p | onError _ => None end) out.

End Reader.

(** ** Throttled writer ([serial/writer.ts]) *)

Module Writer.

(** An outbound frame, a [Uint8Array]. *)
Definition frame : Type := list Z.

(** The fields of a [SerialWriter]; times are milliseconds. *)
Record SerialWriter := mkWriter {
  queue : list frame;
  isWriting : bool;
  throttleMs : Q;
  lastWriteTime : Z;
  maxQueueSize : Z
}.

(** The constructor; [1000 / throttleHz] is exact for the rates in use
    (100 by default, 50 in [connection.ts]). A rate of 0, where JavaScript
    gives [Infinity], is outside the model. *)
Definition new (throttleHz : Z) : SerialWriter :=
  mkWriter [] false (Qdiv (inject_Z 1000) (inject_Z throttleHz)) 0 10.

(** Where a call of [processQueue] is suspended, if there is one: in
    [await sleep(...)], or in [await this.writer.write(data)]. *)
Inductive Drain :=
| NoDrain
| Sleeping (ms : Q)
| InFlight (data : frame).

(** A writer together with its suspended drain and the frames handed to
    the transport so far, oldest first. *)
Record System := mkSystem {
  writer : SerialWriter;
  drain : Drain;
  sent : list frame
}.

Definition init (throttleHz : Z) : System :=
  mkSystem (new throttleHz) NoDrain [].

Definition set_queue (w : SerialWriter) (q : list frame) : SerialWriter :=
  mkWriter q (isWriting w) (throttleMs w) (lastWriteTime w) (maxQueueSize w).

Definition set_isWriting (w : SerialWriter) (b : bool) : SerialWriter :=
  mkWriter (queue w) b (throttleMs w) (lastWriteTime w) (maxQueueSize w).

Definition set_lastWriteTime (w : SerialWriter) (t : Z) : SerialWriter :=
  mkWriter (queue w) (isWriting w) (throttleMs w) t (maxQueueSize w).

(** The first half of [write]: bound the queue, then push. *)
Definition enqueue (w : SerialWriter) (data : frame) : SerialWriter :=
  let q :=
    if maxQueueSize w <=? Z.of_nat (length (queue w))
    then slice (queue w) (- maxQueueSize w + 1) None
    else queue w in
  set_queue w (q ++ [data]).

(** [this.queue.shift()] and the guarded transport write, up to its
    [await]; on an empty queue [data] is undefined, the write is
    skipped and the loop test ends the drain. *)
Definition shiftAndWrite (s : System) : System :=
  match queue (writer s) with
  | [] => mkSystem (set_isWriting (writer s) false) NoDrain (sent s)
  | data :: rest =>
      mkSystem (set_queue (writer s) rest) (InFlight data) (sent s ++ [data])
  end.

(** The [while] loop of [processQueue] from its test on, up to the next
    [await]; [now] is what [Date.now()] returns. *)
Definition loopHead (s : System) (now : Z) : System :=
  match queue (writer s) with
  | [] => mkSystem (set_isWriting (writer s) false) NoDrain (sent s)
  | _ :: _ =>
      let timeSinceLastWrite := now - lastWriteTime (writer s) in
      if negb (Qle_bool (throttleMs (writer s)) (inject_Z timeSinceLastWrite))
      then mkSystem (writer s)
             (Sleeping (Qminus (throttleMs (writer s)) (inject_Z timeSinceLastWrite)))
             (sent s)
      else shiftAndWrite s
  end.

Definition processQueue (s : System) (now : Z) : System :=
  loopHead (mkSystem (set_isWriting (writer s) true) (drain s) (sent s)) now.

(** What can happen to a writer: a call of [write] or [clearQueue], the
    sleep of the drain running out, the transport write of the drain
    resolving or rejecting. Each carries the clock reading it needs; after
    a write has resolved the two readings of [Date.now()], for
    [lastWriteTime] and at the loop head, fall in the same turn and are
    the same [now]. An event that cannot happen in a state (a wake-up
    with no drain asleep) leaves it as it is. *)
Inductive Event :=
| Call_write (data : frame) (now : Z)
| Call_clearQueue
| Wake
| Written (now : Z)
| Failed.

Definition step (s : System) (ev : Event) : System :=
  match ev with
  | Call_write data now =>
      let s := mkSystem (enqueue (writer s) data) (drain s) (sent s) in
      if isWriting (writer s) then s else processQueue s now
  | Call_clearQueue =>
      mkSystem (set_queue (writer s) []) (drain s) (sent s)
  | Wake =>
      match drain s with
      | Sleeping _ => shiftAndWrite s
      | _ => s
      end
  | Written now =>
      match drain s with
      | InFlight _ =>
          loopHead (mkSystem (set_lastWriteTime (writer s) now) NoDrain (sent s)) now
      | _ => s
      end
  | Failed =>
      match drain s with
      | InFlight _ => mkSystem (writer s) NoDrain (sent s)
      | _ => s
      end
  end.

Definition run (s : System) (evs : list Event) : System :=
  fold_left step evs s.

(** The frames passed to [write], in call order. *)
Definition enqueued (evs : list Event) : list frame :=
  omap (fun ev => match ev with Call_write data _ => Some data | _ => None end) evs.

End Writer.

(** ** String methods used by the resolvers *)

(** [s.replace(/\\/g, '/')]: every backslash becomes a slash. *)
Fixpoint backslashes_to_slashes (s : string) : string :=
  match s with
  | EmptyString => EmptyString
  | String c s' =>
      String (if Ascii.eqb c "\"%char then "/"%char else c) (backslashes_to_slashes s')
  end.

(** [s.startsWith(p)]. *)
Definition startsWith (s p : string) : bool := String.prefix p s.

(** The string without its first [n] characters. *)
Fixpoint drop_chars (n : nat) (s : string) : string :=
  match n, s with
  | O, _ => s
  | S n', String _ s' => drop_chars n' s'
  | S _, EmptyString => EmptyString
  end.

(** [s.replace(p, '')]: the first occurrence of [p] is removed. *)
Fixpoint remove_first (p s : string) : string :=
  if String.prefix p s then drop_chars (String.length p) s
  else match s with
       | EmptyString => EmptyString
       | String c s' => String c (remove_first p s')
       end.

(** [s.split(sep)] for a one-character separator; the result is never
    empty. *)
Fixpoint split_on (sep : Ascii.ascii) (s : string) : list string :=
  match s with
  | EmptyString => [EmptyString]
  | String c s' =>
      if Ascii.eqb c sep then EmptyString :: split_on sep s'
      else match split_on sep s' with
           | seg :: segs => String c seg :: segs
           | [] => [String c EmptyString]
           end
  end.

(** ** CDN manifest resolver ([cdn/loader.ts]) *)

Module CDN.

(** What [response.json()] can yield. An object is the list of its
    properties, each key once. *)
#[warnings="-register-all"] Inductive JsonValue :=
| JNull
| JBool (b : bool)
| JNumber (n : number)
| JString (s : string)
| JArray (items : list JsonValue)
| JObject (props : list (string * JsonValue)).

(** A property read [v.key]; [None] is [undefined]. Of the values here
    only objects have the properties the loader reads. *)
Definition prop (v : JsonValue) (key : string) : option JsonValue :=
  match v with
  | JObject props => snd <$> List.find (fun kv => String.eqb (fst kv) key) props
  | _ => None
  end.

(** JavaScript truthiness. *)
Definition truthy (v : JsonValue) : bool :=
  match v with
  | JNull => false
  | JBool b => b
  | JNumber (S754_zero _) | JNumber S754_nan => false
  | JNumber _ => true
  | JString s => negb (String.eqb s "")
  | JArray _ | JObject _ => true
  end.

(** [!v] for a value that may be [undefined]. *)
Definition falsy (v : option JsonValue) : bool :=
  match v with
  | None => true
  | Some v => negb (truthy v)
  end.

(** [typeof v === 'object']. *)
Definition typeof_object (v : JsonValue) : bool :=
  match v with
  | JNull | JArray _ | JObject _ => true
  | _ => false
  end.

(** [Array.isArray(v)] for a value that may be [undefined]. *)
Definition isArray (v : option JsonValue) : bool :=
  match v with
  | Some (JArray _) => true
  | _ => false
  end.

Record AssetInfo := mkAsset {
  original : string;
  processed : string;
  hash : string;
  size : number;
  type_ : string;
  url : option string;
  path : option string
}.

Record AssetManifest := mkManifest {
  version : string;
  generated : string;
  processor : option string;
  assets : list AssetInfo
}.

(** The errors the loader throws, with what their messages embed. *)
Inductive LoaderError :=
| FetchRejected (reason : string)
| HttpError (status : Z) (statusText : string)
| JsonRejected (reason : string)
| InvalidManifestNotObject
| InvalidManifestMissingFields
| LoadFailedAfter (attempts : Z) (error : LoaderError)
| LoadFailed
| AssetNotFound (name : string).

(** How a call ends. [OutsideTypes] marks a document that passed
    [validateManifest] without having the shape of [AssetManifest]: the
    cast of the source is then unsound and the model stops. *)
Inductive outcome (A : Type) :=
| Returned (a : A)
| Thrown (e : LoaderError)
| OutsideTypes.
Arguments Returned {A} a.
Arguments Thrown {A} e.
Arguments OutsideTypes {A}.

(** [validateManifest]: [None] when it returns, the error when it
    throws. *)
Definition validateManifest (manifest : JsonValue) : option LoaderError :=
  if negb (truthy manifest) || negb (typeof_object manifest)
  then Some InvalidManifestNotObject
  else
    if falsy (prop manifest "version") || falsy (prop manifest "generated")
       || negb (isArray (prop manifest "assets"))
    then Some InvalidManifestMissingFields
    else None.

(** The typed reading of a document, for the cast [as AssetManifest]. *)
Definition as_string (v : option JsonValue) : option string :=
  match v with
  | Some (JString s) => Some s
  | _ => None
  end.

Definition as_optional_string (v : option JsonValue) : option (option string) :=
  match v with
  | None => Some None
  | Some (JString s) => Some (Some s)
  | _ => None
  end.

Definition as_number (v : option JsonValue) : option number :=
  match v with
  | Some (JNumber n) => Some n
  | _ => None
  end.

Definition as_asset (v : JsonValue) : option AssetInfo :=
  o ← as_string (prop v "original");
  p ← as_string (prop v "processed");
  h ← as_string (prop v "hash");
  sz ← as_number (prop v "size");
  t ← as_string (prop v "type");
  u ← as_optional_string (prop v "url");
  pa ← as_optional_string (prop v "path");
  Some (mkAsset o p h sz t u pa).

Definition as_manifest (v : JsonValue) : option AssetManifest :=
  ver ← as_string (prop v "version");
  gen ← as_string (prop v "generated");
  proc ← as_optional_string (prop v "processor");
  items ← match prop v "assets" with
          | Some (JArray items) => mapM as_asset items
          | _ => None
          end;
  Some (mkManifest ver gen proc items).

(** What a [fetch] of the manifest URL comes to. *)
Inductive Body :=
| BodyRejected (reason : string)
| BodyJson (v : JsonValue).

Inductive FetchOutcome :=
| NetworkError (reason : string)
| Response (ok : bool) (status : Z) (statusText : string) (body : Body).

(** The effects of the loader on the outside, in order. *)
Inductive Effect :=
| Fetched (url : string)
| Slept (ms : Z).

(** The outside: the clock, the answers the network will give to the
    successive fetches, and the effects so far. *)
Record World := mkWorld {
  now : Z;
  network : nat -> FetchOutcome;
  fetches : nat;
  effects : list Effect
}.

Definition fetch (u : string) (w : World) : FetchOutcome * World :=
  (network w (fetches w),
   mkWorld (now w) (network w) (S (fetches w)) (effects w ++ [Fetched u])).

Definition sleep (ms : Z) (w : World) : World :=
  mkWorld (now w + ms) (network w) (fetches w) (effects w ++ [Slept ms]).

Record CDNAssetLoader := mkLoader {
  manifest : option AssetManifest;
  manifestCache : gmap string (AssetManifest * Z);
  assetUrlCache : gmap string string;
  manifestUrl : string;
  publicUrl : string;
  cacheTimeout : Z;
  retryAttempts : Z;
  retryDelay : Z
}.

(** The constructor, with the values of [CDN_CONFIG] as arguments. *)
Definition new (manifestUrl publicUrl : string) (cacheTimeout retryAttempts retryDelay : Z)
  : CDNAssetLoader :=
  mkLoader None ∅ ∅ manifestUrl publicUrl cacheTimeout retryAttempts retryDelay.

Definition set_manifest (l : CDNAssetLoader) (m : AssetManifest) (timestamp : Z)
  : CDNAssetLoader :=
  mkLoader (Some m) (<[manifestUrl l := (m, timestamp)]> (manifestCache l))
    (assetUrlCache l) (manifestUrl l) (publicUrl l)
    (cacheTimeout l) (retryAttempts l) (retryDelay l).

Definition set_assetUrl (l : CDNAssetLoader) (name u : string) : CDNAssetLoader :=
  mkLoader (manifest l) (manifestCache l) (<[name := u]> (assetUrlCache l))
    (manifestUrl l) (publicUrl l) (cacheTimeout l) (retryAttempts l) (retryDelay l).

(** The body of the [try] block of one attempt, after the fetch. *)
Definition attempt (o : FetchOutcome) : outcome AssetManifest :=
  match o with
  | NetworkError reason => Thrown (FetchRejected reason)
  | Response ok status statusText body =>
      if negb ok then Thrown (HttpError status statusText)
      else match body with
           | BodyRejected reason => Thrown (JsonRejected reason)
           | BodyJson v =>
               match validateManifest v with
               | Some e => Thrown e
               | None =>
                   match as_manifest v with
                   | Some m => Returned m
                   | None => OutsideTypes
                   end
               end
           end
  end.

(** The methods run over the loader and the outside and end in an
    [outcome]. *)
Definition M (A : Type) : Type :=
  CDNAssetLoader -> World -> outcome A * CDNAssetLoader * World.

Definition ret {A} (a : A) : M A := fun l w => (Returned a, l, w).
Definition throw {A} (e : LoaderError) : M A := fun l w => (Thrown e, l, w).
Definition outside {A} : M A := fun l w => (OutsideTypes, l, w).

Definition bind {A B} (m : M A) (k : A -> M B) : M B :=
  fun l w =>
    match m l w with
    | (Returned a, l, w) => k a l w
    | (Thrown e, l, w) => (Thrown e, l, w)
    | (OutsideTypes, l, w) => (OutsideTypes, l, w)
    end.

Notation "'do' x <- m ; k" := (bind m (fun x => k))
  (at level 10, x name, m at level 100, k at level 200).

(** Reading and updating [this], and the calls to the outside. *)
Definition this : M CDNAssetLoader := fun l w => (Returned l, l, w).
Definition update (f : CDNAssetLoader -> CDNAssetLoader) : M unit :=
  fun l w => (Returned tt, f l, w).
Definition Date_now : M Z := fun l w => (Returned (now w), l, w).
Definition do_fetch (u : string) : M FetchOutcome :=
  fun l w => let '(o, w) := fetch u w in (Returned o, l, w).
Definition do_sleep (ms : Z) : M unit := fun l w => (Returned tt, l, sleep ms w).

(** The [for] loop of [loadManifest]: [remaining] iterations are left
    when the counter is [attempt_no]. *)
Fixpoint retryLoop (remaining : nat) (attempt_no : Z) : M AssetManifest :=
  match remaining with
  | O => throw LoadFailed
  | S remaining' =>
      do self <- this;
      do response <- do_fetch (manifestUrl self);
      match attempt response with
      | Returned manifest =>
          do timestamp <- Date_now;
          do _ <- update (fun l => set_manifest l manifest timestamp);
          ret manifest
      | OutsideTypes => outside
      | Thrown error =>
          if attempt_no <? retryAttempts self
          then do _ <- do_sleep (retryDelay self);
               retryLoop remaining' (attempt_no + 1)
          else throw (LoadFailedAfter (retryAttempts self) error)
      end
  end.

(** The cached manifest, when there is one and it is fresh. *)
Definition fresh_manifest (l : CDNAssetLoader) (w : World) : option AssetManifest :=
  match manifestCache l !! manifestUrl l with
  | Some (data, timestamp) =>
      if now w - timestamp <? cacheTimeout l then Some data else None
  | None => None
  end.

Definition loadManifest : M AssetManifest :=
  fun l w =>
    match fresh_manifest l w with
    | Some data => ret data l w
    | None => retryLoop (Z.to_nat (retryAttempts l)) 1 l w
    end.

Definition constructAssetUrl (l : CDNAssetLoader) (asset : AssetInfo) : string :=
  if String.eqb (type_ asset) "application/xml"
  then publicUrl l +:+ "/" +:+ processed asset
  else publicUrl l +:+ "/assets/" +:+ processed asset.

(** [s || fallback] on strings that may be [undefined]. *)
Definition or_else (s : option string) (fallback : string) : string :=
  match s with
  | Some s => if String.eqb s "" then fallback else s
  | None => fallback
  end.

(** [const cached = this.assetUrlCache.get(name); if (cached)]: a cached
    string counts when it is not empty. *)
Definition cached_url (l : CDNAssetLoader) (name : string) : option string :=
  match assetUrlCache l !! name with
  | Some cached => if String.eqb cached "" then None else Some cached
  | None => None
  end.

(** [if (!this.manifest) await this.loadManifest()]. *)
Definition loadIfMissing : M unit :=
  do self <- this;
  match manifest self with
  | Some _ => ret tt
  | None => do _ <- loadManifest; ret tt
  end.

(** [this.manifest?.assets.find(selects)]. *)
Definition findAsset (l : CDNAssetLoader) (selects : AssetInfo -> bool)
  : option AssetInfo :=
  manifest l ≫= (fun m => List.find selects (assets m)).

Definition getAssetUrl (originalName : string) : M string :=
  do self <- this;
  match cached_url self originalName with
  | Some cached => ret cached
  | None =>
      do _ <- loadIfMissing;
      do self <- this;
      match findAsset self (fun a => String.eqb (original a) originalName) with
      | None => throw (AssetNotFound originalName)
      | Some asset =>
          let u := or_else (url asset) (constructAssetUrl self asset) in
          do _ <- update (fun l => set_assetUrl l originalName u);
          ret u
      end
  end.

Definition getAssetUrlByProcessed (processedName : string) : M string :=
  do self <- this;
  match cached_url self processedName with
  | Some cached => ret cached
  | None =>
      do _ <- loadIfMissing;
      do self <- this;
      match findAsset self (fun a => String.eqb (processed a) processedName) with
      | None => throw (AssetNotFound processedName)
      | Some asset =>
          let u := or_else (url asset) (constructAssetUrl self asset) in
          do _ <- update (fun l => set_assetUrl l processedName u);
          ret u
      end
  end.

(** [getUrdfUrl] and [resolvePackageUrl] throw errors of their own beside
    those that come up from the loader. *)
Inductive ResolverError :=
| LoaderFailure (e : LoaderError)
| UrdfNotFound (urdfFilename : string)
| InvalidPackageUrl (packageUrl : string).

Inductive resolution (A : Type) :=
| Resolved (a : A)
| Raised (e : ResolverError)
| Untyped.
Arguments Resolved {A} a.
Arguments Raised {A} e.
Arguments Untyped {A}.

Definition lift {A} (r : outcome A * CDNAssetLoader * World)
  : resolution A * CDNAssetLoader * World :=
  match r with
  | (Returned a, l, w) => (Resolved a, l, w)
  | (Thrown e, l, w) => (Raised (LoaderFailure e), l, w)
  | (OutsideTypes, l, w) => (Untyped, l, w)
  end.

Definition getUrdfUrl (urdfFilename : string) (l : CDNAssetLoader) (w : World)
  : resolution string * CDNAssetLoader * World :=
  match cached_url l urdfFilename with
  | Some cached => (Resolved cached, l, w)
  | None =>
      match loadIfMissing l w with
      | (Thrown e, l, w) => (Raised (LoaderFailure e), l, w)
      | (OutsideTypes, l, w) => (Untyped, l, w)
      | (Returned _, l, w) =>
          match findAsset l
                  (fun a => String.eqb (original a) urdfFilename
                            && String.eqb (type_ a) "application/xml") with
          | None => (Raised (UrdfNotFound urdfFilename), l, w)
          | Some urdfAsset =>
              let u := or_else (url urdfAsset)
                         (publicUrl l +:+ "/" +:+ processed urdfAsset) in
              (Resolved u, set_assetUrl l urdfFilename u, w)
          end
      end
  end.

Definition resolvePackageUrl (packageUrl : string) (l : CDNAssetLoader) (w : World)
  : resolution string * CDNAssetLoader * World :=
  let normalized := backslashes_to_slashes packageUrl in
  let normalized :=
    if startsWith normalized "package://"
    then remove_first "package://" normalized
    else normalized in
  let filename := List.last (split_on "/"%char normalized) EmptyString in
  if String.eqb filename ""
  then (Raised (InvalidPackageUrl packageUrl), l, w)
  else lift (getAssetUrl filename l w).

Definition clearCache (l : CDNAssetLoader) : CDNAssetLoader :=
  mkLoader None ∅ ∅ (manifestUrl l) (publicUrl l)
    (cacheTimeout l) (retryAttempts l) (retryDelay l).

End CDN.

(** ** Joint store: the send throttle ([state/joints.ts]) *)

Module Joints.

Definition SERIAL_THROTTLE_MS : Z := 10.

(** [throttledSendAngles]: [lastSerialSend] is the state; the result says
    whether [connection.sendAngles] was called with the angles. *)
Definition throttledSendAngles (lastSerialSend : Z) (angles : JointAngles) (now : Z)
  : Z * option JointAngles :=
  if SERIAL_THROTTLE_MS <=? now - lastSerialSend
  then (now, Some angles)
  else (lastSerialSend, None).

(** Successive calls, each with its clock reading; the calls that went
    through to [sendAngles], oldest first, with their times. *)
Fixpoint calls (lastSerialSend : Z) (cs : list (JointAngles * Z))
  : Z * list (JointAngles * Z) :=
  match cs with
  | [] => (lastSerialSend, [])
  | (angles, now) :: rest =>
      let '(last, sent) := throttledSendAngles lastSerialSend angles now in
      let '(final, more) := calls last rest in
      (final, match sent with Some a => (a, now) :: more | None => more end)
  end.

End Joints.

(** * Vocabulary of the properties *)

(** ** Decoder *)

(** [throws r msg]: the call ended in an exception with message [msg]. *)
Definition throws {A} (r : result A) (msg : string) : Prop :=
  match r with
  | Throw e => message e = msg
  | Ok _ => False
  end.

(** The buffer of the decoder test, with a checksum byte that is not the
    XOR fold (which is 0x03). *)
Definition test_buffer : list Z := [0xAA; 0x55; 5; 2; 1; 2; 3; 4; 5; 0x77].

(** ** Frames and the frame synchroniser *)

Import Reader.

(** The wire layout of a frame: sync word, payload length, command,
    payload, checksum slot. *)
Definition raw_frame (cmd : Z) (payload : list Z) (ck : Z) : list Z :=
  [0xAA; 0x55; Z.of_nat (length payload); cmd] ++ payload ++ [ck].

(** A frame is legal when its fields are bytes and the whole of it fits
    the scratch buffer, [PACKET_MAX_SIZE] bytes. *)
Definition legal_frame (cmd : Z) (payload : list Z) (ck : Z) : Prop :=
  is_byte cmd /\ bytes_ok payload /\ is_byte ck /\
  (length (raw_frame cmd payload ck) <= PACKET_MAX_SIZE)%nat.

(** A valid frame carries the XOR fold of command and payload. *)
Definition valid_frame (cmd : Z) (payload : list Z) : list Z :=
  raw_frame cmd payload (calculateChecksum (cmd :: payload)).

(** The packet a frame stands for. *)
Definition frame_packet (cmd : Z) (payload : list Z) (ck : Z) : Packet :=
  mkPacket SYNC_WORD (Z.of_nat (length payload)) cmd payload ck.

(** No occurrence of the sync word: no 0xAA directly followed by 0x55. *)
Fixpoint no_sync (l : list Z) : bool :=
  match l with
  | a :: (b :: _) as rest => negb ((a =? 0xAA) && (b =? 0x55)) && no_sync rest
  | _ => true
  end.

(** Successive stores of [data] from slot [i] on, as [push_byte] does them. *)
Fixpoint write_at (buf : list Z) (i : nat) (data : list Z) : list Z :=
  match data with
  | [] => buf
  | d :: rest => write_at (<[i := to_uint8 d]> buf) (S i) rest
  end.

(** The bytes handed to [processBytes] by the read loop, in order. *)
Fixpoint received (reads : list ReadResult) : list Z :=
  match reads with
  | Chunk value :: rest => value ++ received rest
  | _ => []
  end.

(** The reader waits for a sync word: at most one byte is held. *)
Definition ready (r : SerialReader) : Prop :=
  state r = SYNCING /\ (bufferIndex r <= 1)%nat /\
  length (buffer r) = PACKET_MAX_SIZE /\ bytes_ok (buffer r).

(** The buffer once a header and [body] have been stored from a waiting
    reader. *)
Definition frame_buffer (r : SerialReader) (L cmd : Z) (body : list Z) : list Z :=
  write_at ([0xAA; 0x55; L; cmd] ++ drop 4 (buffer r)) 4 body.

(** The bytes the reader holds while it waits for a sync word. *)
Definition window (r : SerialReader) : list Z := take (bufferIndex r) (buffer r).

(** The fields of a frame are bytes and the frame fits the scratch buffer. *)
Definition well_formed (cmd : Z) (payload : list Z) : Prop :=
  is_byte cmd /\ bytes_ok payload /\ (4 + length payload + 1 <= PACKET_MAX_SIZE)%nat.

(** The packet of a valid frame. *)
Definition valid_packet (cmd : Z) (payload : list Z) : Packet :=
  frame_packet cmd payload (calculateChecksum (cmd :: payload)).

(** [p] is the decode of a frame that ends the bytes [c] consumed so far. *)
Definition good_packet (c : list Z) (p : Packet) : Prop :=
  sync p = SYNC_WORD /\ Z.of_nat (length (payload p)) = length_ p /\
  raw_frame (command p) (payload p) (checksum p) `suffix_of` c.

(** [p] is the decode of a frame that occurs in the stream [s]. *)
Definition frame_in_stream (s : list Z) (p : Packet) : Prop :=
  sync p = SYNC_WORD /\ Z.of_nat (length (payload p)) = length_ p /\
  exists pre post, s = pre ++ raw_frame (command p) (payload p) (checksum p) ++ post.

(** The reader after the bytes [c]: the buffered bytes are the last ones
    received and start with the sync word once it has been seen. *)
Definition reader_inv (c : list Z) (r : SerialReader) : Prop :=
  length (buffer r) = PACKET_MAX_SIZE /\ bytes_ok (buffer r) /\
  match state r with
  | IDLE => True
  | SYNCING =>
      (bufferIndex r <= 1)%nat /\ take (bufferIndex r) (buffer r) `suffix_of` c
  | READING_HEADER =>
      (2 <= bufferIndex r <= 3)%nat /\
      rd (buffer r) 0 = 0xAA /\ rd (buffer r) 1 = 0x55 /\
      take (bufferIndex r) (buffer r) `suffix_of` c
  | READING_PAYLOAD =>
      (4 <= bufferIndex r)%nat /\
      Z.of_nat (bufferIndex r) < 4 + expectedLength r + 1 /\
      rd (buffer r) 0 = 0xAA /\ rd (buffer r) 1 = 0x55 /\
      rd (buffer r) 2 = expectedLength r /\
      ((bufferIndex r <= PACKET_MAX_SIZE)%nat ->
       take (bufferIndex r) (buffer r) `suffix_of` c)
  end.

(** A callback is fine when it is an error or delivers a good packet. *)
Definition good_callback (c : list Z) (cb : Callback) : Prop :=
  match cb with
  | onPacket p => good_packet c p
  | onError _ => True
  end.

(** ** Encoder *)

(** The numbers 0.5, 1.0 and -0.5 as binary64 values. *)
Definition num_0_5 : number := S754_finite false 4503599627370496 (-53).
Definition num_1_0 : number := S754_finite false 4503599627370496 (-52).
Definition num_neg_0_5 : number := S754_finite true 4503599627370496 (-53).

(** The payload of a joint-angle command: three binary32 values, least
    significant byte first, in input order. *)
Definition angles_payload (angles : JointAngles) : list Z :=
  let '(a0, a1, a2) := angles in
  le32 (float32_bits (to_float32 a0)) ++ le32 (float32_bits (to_float32 a1))
    ++ le32 (float32_bits (to_float32 a2)).

(** ** Throttled writer *)

Import Writer.

(** The writer keeps its capacity and never holds more than that. *)
Definition bounded (s : System) : Prop :=
  maxQueueSize (writer s) = 10 /\ (length (queue (writer s)) <= 10)%nat.

(** The frames handed to the transport followed by the pending ones. *)
Definition accepted (s : System) : list frame := sent s ++ queue (writer s).

(** Ten calls of [write] at the same instant, with frames [1] to [10]. *)
Definition ten_writes : list Event :=
  map (fun n => Call_write [Z.of_nat n] 0) (seq 1 10).

(** A suspended drain means the flag is set. *)
Definition flagged (s : System) : Prop :=
  drain s <> NoDrain -> isWriting (writer s) = true.

(** The state a failed transport write leaves behind: the flag set and
    no drain left to clear it. *)
Definition dead (s : System) : Prop :=
  isWriting (writer s) = true /\ drain s = NoDrain.

(** Two calls of [write]; the first starts the drain, which dispatches
    its frame at once. *)
Definition failing_trace : list Event := [Call_write [1] 50; Call_write [2] 51].

(** ** CDN manifest resolver *)

Import CDN.

(** The ways an attempt fails: the fetch rejects, the status is not a
    success, the body does not parse, or the parsed document is not an
    object or lacks [version], [generated] or an array of [assets]. *)
Inductive failed_attempt : FetchOutcome -> LoaderError -> Prop :=
| fail_network reason :
    failed_attempt (NetworkError reason) (FetchRejected reason)
| fail_status status statusText body :
    failed_attempt (Response false status statusText body) (HttpError status statusText)
| fail_body status statusText reason :
    failed_attempt (Response true status statusText (BodyRejected reason))
      (JsonRejected reason)
| fail_not_object status statusText v :
    truthy v = false \/ typeof_object v = false ->
    failed_attempt (Response true status statusText (BodyJson v)) InvalidManifestNotObject
| fail_fields status statusText v :
    truthy v = true -> typeof_object v = true ->
    falsy (prop v "version") = true \/ falsy (prop v "generated") = true
      \/ isArray (prop v "assets") = false ->
    failed_attempt (Response true status statusText (BodyJson v))
      InvalidManifestMissingFields.

(** The effects of [n] failed attempts in a row: a fetch each, a sleep
    between two of them, none after the last. *)
Fixpoint retry_effects (u : string) (delay : Z) (n : nat) : list Effect :=
  match n with
  | O => []
  | S O => [Fetched u]
  | S n' => Fetched u :: Slept delay :: retry_effects u delay n'
  end.

(** Telling fetches from sleeps. *)
Definition is_fetch (ef : Effect) : bool :=
  match ef with Fetched _ => true | Slept _ => false end.

(** The outside after [n + 1] failed attempts. *)
Definition world_after (l : CDNAssetLoader) (w : World) (n : nat) : World :=
  mkWorld (now w + Z.of_nat n * retryDelay l) (network w) (fetches w + S n)
    (effects w ++ retry_effects (manifestUrl l) (retryDelay l) (S n)).

(** A loader with the values of [CDN_CONFIG]. *)
Definition test_loader : CDNAssetLoader :=
  CDN.new "https://assets.openarm.dev/manifest.json" "https://assets.openarm.dev"
    (5 * 60 * 1000) 3 1000.

(** A network that is down, then overloaded, then serves a document
    without [generated] and [assets]. *)
Definition failing_network (i : nat) : FetchOutcome :=
  match i with
  | O => NetworkError "offline"
  | S O => Response false 503 "Service Unavailable" (BodyRejected "")
  | _ => Response true 200 "OK" (BodyJson (JObject [("version", JString "1.0")]))
  end.

(** The URL of a manifest entry: its own when it has a non-empty one,
    else synthesised from the public base URL. *)
Definition resolved_url (l : CDNAssetLoader) (a : AssetInfo) : string :=
  or_else (url a) (constructAssetUrl l a).

(** The second half of [getAssetUrl]: search, resolve, cache. *)
Definition search_result (name : string) (l : CDNAssetLoader) (w : World)
  : outcome string * CDNAssetLoader * World :=
  match findAsset l (fun a => String.eqb (original a) name) with
  | None => (Thrown (AssetNotFound name), l, w)
  | Some a => (Returned (resolved_url l a), set_assetUrl l name (resolved_url l a), w)
  end.

(** Only non-empty URLs are cached. *)
Definition cache_ok (l : CDNAssetLoader) : Prop :=
  forall k v, assetUrlCache l !! k = Some v -> v <> "".

(** The entries of a small manifest; the last repeats an [original]. *)
Definition urdf_asset : AssetInfo :=
  mkAsset "robot.urdf" "robot.1a2b.urdf" "1a2b" (S754_zero false) "application/xml" None None.
Definition base_asset : AssetInfo :=
  mkAsset "base.stl" "base.9f3c.stl" "9f3c" (S754_zero false) "model/stl" None None.
Definition arm_asset : AssetInfo :=
  mkAsset "arm.stl" "arm.77aa.stl" "77aa" (S754_zero false) "model/stl"
    (Some "https://mirror.example/arm.77aa.stl") None.
Definition base_duplicate : AssetInfo :=
  mkAsset "base.stl" "base.0000.stl" "0000" (S754_zero false) "model/stl" None None.

(** The manifest of these entries, and a loader that holds it. *)
Definition test_manifest : AssetManifest :=
  mkManifest "1.0" "2025-01-01T00:00:00Z" None
    [urdf_asset; base_asset; arm_asset; base_duplicate].

Definition loaded_loader : CDNAssetLoader := set_manifest test_loader test_manifest 0.

(** A document as the asset pipeline writes it. *)
Definition manifest_document : JsonValue :=
  JObject
    [("version", JString "1.0"); ("generated", JString "2025-01-01T00:00:00Z");
     ("assets",
      JArray
        [JObject [("original", JString "robot.urdf"); ("processed", JString "robot.1a2b.urdf");
                  ("hash", JString "1a2b"); ("size", JNumber (S754_zero false));
                  ("type", JString "application/xml")];
         JObject [("original", JString "arm.stl"); ("processed", JString "arm.77aa.stl");
                  ("hash", JString "77aa"); ("size", JNumber (S754_zero false));
                  ("type", JString "model/stl");
                  ("url", JString "https://mirror.example/arm.77aa.stl")]])].

(** A network that fails once and then serves the document. *)
Definition recovering_network (i : nat) : FetchOutcome :=
  match i with
  | O => Response false 502 "Bad Gateway" (BodyRejected "")
  | _ => Response true 200 "OK" (BodyJson manifest_document)
  end.

(** ** Streams of frames and gaps *)

(** A frame in a stream: one that fits the scratch buffer, or one whose
    header declares more than the buffer holds. *)
Inductive item :=
| Legal (cmd : Z) (payload : list Z) (ck : Z)
| Oversized (L cmd : Z) (body : list Z).

(** The bytes of a frame on the wire. *)
Definition item_bytes (it : item) : list Z :=
  match it with
  | Legal cmd payload ck => raw_frame cmd payload ck
  | Oversized L cmd body => [0xAA; 0x55; L; cmd] ++ body
  end.

(** The fields are bytes; an oversized frame declares more than 251
    payload bytes and comes whole, payload and checksum slot. *)
Definition item_ok (it : item) : Prop :=
  match it with
  | Legal cmd payload ck => legal_frame cmd payload ck
  | Oversized L cmd body =>
      is_byte L /\ is_byte cmd /\ 251 < L /\ length body = (Z.to_nat L + 1)%nat
  end.

(** The one callback a frame gives rise to. *)
Definition item_callback (it : item) : Callback :=
  match it with
  | Legal cmd payload ck => onPacket (frame_packet cmd payload ck)
  | Oversized L cmd body =>
      onError (ParseFailure (IncompletePacket (4 + L + 1) PACKET_MAX_SIZE))
  end.

(** A gap between frames: bytes with no sync word among them. *)
Definition gap_ok (noise : list Z) : Prop := bytes_ok noise /\ no_sync noise = true.

(** Gaps and frames in turn, and a last gap. *)
Definition gapped_stream (segs : list (list Z * item)) (rest : list Z) : list Z :=
  concat (map (fun seg => fst seg ++ item_bytes (snd seg)) segs) ++ rest.

(** A gap, a frame with a wrong checksum, an oversized frame, a stray
    byte, a small frame and a trailing half sync word. *)
Definition mixed_segments : list (list Z * item) :=
  [([0x01; 0xAA], Legal 2 [9] 0x00);
   ([], Oversized 252 1 (replicate 253 7));
   ([0x55], Legal 1 [] 1)].

(** The only parse error the reader can report. *)
Definition parse_error_shape (cb : Callback) : Prop :=
  match cb with
  | onPacket _ => True
  | onError (ParseFailure e) =>
      exists L, 251 < L <= 255 /\ e = IncompletePacket (4 + L + 1) PACKET_MAX_SIZE
  | onError ReadFailure => False
  end.

(** The reader with its [isReading] flag set to [b]. *)
Definition with_isReading (r : SerialReader) (b : bool) : SerialReader :=
  mkReader (state r) (buffer r) (bufferIndex r) (expectedLength r) b.

(** ** The writer between and during drains *)

(** With the flag down nothing is queued and no drain is suspended. *)
Definition idle_ok (s : System) : Prop :=
  isWriting (writer s) = false -> queue (writer s) = [] /\ drain s = NoDrain.

(** The events of a drain that nothing interrupts: each transport write
    resolves, at the time given, and the sleep that follows it runs
    out. *)
Definition drain_events (ts : list Z) (t_last : Z) : list Event :=
  flat_map (fun t => [Written t; Wake]) ts ++ [Written t_last].

(** ** The send throttle *)

(** Times at least [SERIAL_THROTTLE_MS] apart, the first that far from
    [last]. *)
Fixpoint spaced (last : Z) (ts : list Z) : Prop :=
  match ts with
  | [] => True
  | t :: rest => Joints.SERIAL_THROTTLE_MS <= t - last /\ spaced t rest
  end.

(** ** The resolvers *)

(** The manifest that [manifest_document] reads as. *)
Definition served_manifest : AssetManifest :=
  mkManifest "1.0" "2025-01-01T00:00:00Z" None [urdf_asset; arm_asset].

(** The three lookups of the loader, which differ in the entry they
    search for. *)
Inductive Resolver := ByOriginal | ByProcessed | Urdf.

(** The call of a resolver. *)
Definition resolve (k : Resolver) (name : string) (l : CDNAssetLoader) (w : World)
  : resolution string * CDNAssetLoader * World :=
  match k with
  | ByOriginal => lift (getAssetUrl name l w)
  | ByProcessed => lift (getAssetUrlByProcessed name l w)
  | Urdf => getUrdfUrl name l w
  end.

(** The entry a resolver searches for. *)
Definition selects (k : Resolver) (name : string) (a : AssetInfo) : bool :=
  match k with
  | ByOriginal => String.eqb (original a) name
  | ByProcessed => String.eqb (processed a) name
  | Urdf => String.eqb (original a) name && String.eqb (type_ a) "application/xml"
  end.

(** The URL a resolver gives to an entry without one of its own. *)
Definition fallback_url (k : Resolver) (l : CDNAssetLoader) (a : AssetInfo) : string :=
  match k with
  | Urdf => publicUrl l +:+ "/" +:+ processed a
  | _ => constructAssetUrl l a
  end.

(** What a resolver throws when no entry is found. *)
Definition not_found (k : Resolver) (name : string) : ResolverError :=
  match k with
  | Urdf => UrdfNotFound name
  | _ => LoaderFailure (AssetNotFound name)
  end.

(** ** Paths *)

(** Whether a character occurs in a string. *)
Fixpoint has_char (c : ascii) (s : string) : bool :=
  match s with
  | EmptyString => false
  | String c' s' => Ascii.eqb c' c || has_char c s'
  end.

(** A name without path separators. *)
Definition plain_name (s : string) : Prop :=
  has_char "/" s = false /\ has_char "\" s = false.

(** The last segment of a path, as [resolvePackageUrl] takes it. *)
Definition last_segment (s : string) : string :=
  List.last (split_on "/" s) EmptyString.

(** ** Readers that behave alike *)

(** Two readers that no input can tell apart: the same state, index and
    flag, buffers of the same size that agree below the index, and the
    same expected length where it is read. *)
Definition same_view (r1 r2 : SerialReader) : Prop :=
  state r1 = state r2 /\ bufferIndex r1 = bufferIndex r2
  /\ isReading r1 = isReading r2
  /\ length (buffer r1) = length (buffer r2)
  /\ take (bufferIndex r1) (buffer r1) = take (bufferIndex r2) (buffer r2)
  /\ (state r1 = READING_PAYLOAD -> expectedLength r1 = expectedLength r2).

(** * Properties *)

(** ** Bytes, slices and the checksum *)

Lemma to_uint8_byte b : is_byte b -> to_uint8 b = b.
Proof. unfold is_byte, to_uint8. intros H. apply Z.mod_small. lia. Qed.

Lemma slice_prefix {A} (l : list A) (n : nat) :
  slice l 0 (Some (Z.of_nat n)) = take n l.
Proof.
  unfold slice, rel_index. cbn [Z.ltb Z.compare].
  destruct (Z.ltb_spec (Z.of_nat n) 0); [lia|].
  rewrite (Z.min_l 0) by lia. cbn [Z.to_nat drop]. rewrite Z.sub_0_r.
  destruct (Z.min_spec (Z.of_nat n) (Z.of_nat (length l))) as [[? ->]|[? ->]].
  - f_equal. lia.
  - rewrite Nat2Z.id. rewrite !firstn_all2; auto; lia.
Qed.

Lemma slice_range {A} (l : list A) (s n : nat) :
  (s + n <= length l)%nat ->
  slice l (Z.of_nat s) (Some (Z.of_nat s + Z.of_nat n)) = take n (drop s l).
Proof.
  intros H. unfold slice, rel_index.
  destruct (Z.ltb_spec (Z.of_nat s) 0); [lia|].
  destruct (Z.ltb_spec (Z.of_nat s + Z.of_nat n) 0); [lia|].
  rewrite !Z.min_l by lia. rewrite Nat2Z.id. f_equal. lia.
Qed.

Lemma slice_last {A} (l : list A) (k : nat) :
  (0 < k <= length l)%nat ->
  slice l (- Z.of_nat k) None = drop (length l - k) l.
Proof.
  intros H. unfold slice, rel_index.
  destruct (Z.ltb_spec (- Z.of_nat k) 0); [|lia].
  rewrite Z.max_l by lia.
  replace (Z.to_nat (Z.of_nat (length l) + - Z.of_nat k)) with (length l - k)%nat by lia.
  apply firstn_all2. rewrite length_drop. lia.
Qed.

Lemma bytes_ok_lookup (l : list Z) (i : nat) (b : Z) :
  bytes_ok l -> l !! i = Some b -> is_byte b.
Proof. intros Hl Hi. exact (proj1 (Forall_lookup _ _) Hl i b Hi). Qed.

Lemma rd_lookup (l : list Z) (i : nat) :
  (i < length l)%nat -> l !! i = Some (rd l i).
Proof.
  intros H. unfold rd. destruct (lookup_lt_is_Some_2 l i H) as [b ->]. reflexivity.
Qed.

Lemma rd_byte (l : list Z) (i : nat) : bytes_ok l -> is_byte (rd l i).
Proof.
  intros Hl. unfold rd. destruct (l !! i) eqn:E; simpl.
  - eapply bytes_ok_lookup; eauto.
  - unfold is_byte; lia.
Qed.

Lemma getUint8_in (l : list Z) (off : Z) (i : nat) :
  off = Z.of_nat i -> (i < length l)%nat -> getUint8 l off = Ok (rd l i).
Proof.
  intros -> H. unfold getUint8.
  destruct (Z.ltb_spec (Z.of_nat i) 0); [lia|].
  rewrite Nat2Z.id, (rd_lookup l i H). reflexivity.
Qed.

(** ** The packet decoder *)

(** The decoder, case by case, with no [RangeError] left possible. *)
Lemma parsePacket_cases (b : list Z) :
  bytes_ok b ->
  parsePacket b =
    if (length b <? 5)%nat then Throw (PacketTooSmall (length b))
    else if negb (rd b 0 * 256 + rd b 1 =? SYNC_WORD)
         then Throw (InvalidSyncWord (rd b 0 * 256 + rd b 1))
    else if Z.of_nat (length b) <? 4 + rd b 2 + 1
         then Throw (IncompletePacket (4 + rd b 2 + 1) (length b))
    else Ok (mkPacket (rd b 0 * 256 + rd b 1) (rd b 2) (rd b 3)
               (take (Z.to_nat (rd b 2)) (drop 4 b))
               (rd b (4 + Z.to_nat (rd b 2)))).
Proof.
  intros Hb. unfold parsePacket.
  destruct (Nat.ltb_spec (length b) 5) as [|Hlen]; [reflexivity|].
  unfold getUint16.
  rewrite (getUint8_in b 0 0), (getUint8_in b (0 + 1) 1) by lia.
  cbn [mbind result_bind].
  destruct (negb _); [reflexivity|].
  rewrite (getUint8_in b 2 2), (getUint8_in b 3 3) by lia. cbn [mbind result_bind].
  pose proof (rd_byte b 2 Hb) as H2. unfold is_byte in H2.
  destruct (Z.ltb_spec (Z.of_nat (length b)) (4 + rd b 2 + 1)) as [|Hfit]; [reflexivity|].
  rewrite (getUint8_in b (4 + rd b 2) (4 + Z.to_nat (rd b 2))) by lia.
  cbn [mbind result_bind]. do 2 f_equal.
  replace (4 + rd b 2) with (Z.of_nat 4 + Z.of_nat (Z.to_nat (rd b 2))) by lia.
  apply (slice_range b 4). lia.
Qed.

Ltac solve_bytes :=
  unfold bytes_ok;
  repeat first [ apply Forall_nil_2
               | apply Forall_cons_2; [first [assumption | unfold is_byte; lia]|] ].

(** The checksum slot is copied, not checked: with any byte [c] in it the
    frame decodes, and [c] comes back as the checksum. *)
Lemma parsePacket_any_checksum (b : list Z) (c : Z) :
  bytes_ok b -> is_byte c ->
  rd b 0 * 256 + rd b 1 = SYNC_WORD ->
  4 + rd b 2 <= Z.of_nat (length b) ->
  parsePacket (take (4 + Z.to_nat (rd b 2)) b ++ [c]) =
    Ok (mkPacket SYNC_WORD (rd b 2) (rd b 3)
          (take (Z.to_nat (rd b 2)) (drop 4 b)) c).
Proof.
  intros Hb Hc Hsync Hl.
  pose proof (rd_byte b 2 Hb) as H2. unfold is_byte in H2.
  set (n := Z.to_nat (rd b 2)) in *.
  set (b' := take (4 + n) b ++ [c]).
  assert (Hlt : length (take (4 + n) b) = (4 + n)%nat) by (rewrite length_take; lia).
  assert (Hrd : forall i, (i < 4 + n)%nat -> rd b' i = rd b i).
  { intros i Hi. unfold rd, b'. rewrite lookup_app_l by lia.
    rewrite lookup_take_lt by lia. reflexivity. }
  assert (Hb' : bytes_ok b').
  { apply Forall_app; split; [apply Forall_take; exact Hb | solve_bytes]. }
  assert (Hlen' : length b' = (4 + n + 1)%nat).
  { unfold b'. rewrite length_app, Hlt. reflexivity. }
  rewrite (parsePacket_cases b' Hb'), Hlen'.
  rewrite !Hrd by lia. fold n.
  destruct (Nat.ltb_spec (4 + n + 1) 5); [lia|].
  rewrite Hsync, Z.eqb_refl. cbn [negb].
  destruct (Z.ltb_spec (Z.of_nat (4 + n + 1)) (4 + rd b 2 + 1)); [lia|].
  f_equal. f_equal.
  - unfold b'. rewrite drop_app_le by lia. rewrite take_app_le.
    2: { rewrite length_drop; lia. }
    rewrite skipn_firstn_comm. rewrite take_take.
    f_equal. lia.
  - unfold rd, b'. rewrite lookup_app_r by lia. rewrite Hlt, Nat.sub_diag. reflexivity.
Qed.

(** C2. For every byte buffer [b], [parsePacket b] fails with
    'Packet too small' iff [b] has fewer than 5 bytes; otherwise with
    'Invalid sync word' iff the first two bytes read big-endian are not
    0xAA55; otherwise, [len] being the byte at offset 2, with
    'Incomplete packet' iff [b] has fewer than [4 + len + 1] bytes; and
    otherwise it returns the packet with the command of offset 3, the
    payload [b[4 : 4+len]] and the checksum byte [b[4+len]], whatever that
    byte is: a buffer whose checksum byte is not the XOR fold of command
    and payload is decoded all the same. *)
Theorem parsePacket_decode (b : list Z) :
  bytes_ok b ->
  (throws (parsePacket b) "Packet too small" <-> (length b < 5)%nat) /\
  ((5 <= length b)%nat ->
   (throws (parsePacket b) "Invalid sync word"
      <-> rd b 0 * 256 + rd b 1 <> 0xAA55) /\
   (rd b 0 * 256 + rd b 1 = 0xAA55 ->
    (throws (parsePacket b) "Incomplete packet"
       <-> Z.of_nat (length b) < 4 + rd b 2 + 1) /\
    (4 + rd b 2 + 1 <= Z.of_nat (length b) ->
     parsePacket b =
       Ok (mkPacket 0xAA55 (rd b 2) (rd b 3)
             (take (Z.to_nat (rd b 2)) (drop 4 b))
             (rd b (4 + Z.to_nat (rd b 2)))) /\
     forall c, is_byte c ->
       parsePacket (take (4 + Z.to_nat (rd b 2)) b ++ [c]) =
         Ok (mkPacket 0xAA55 (rd b 2) (rd b 3)
               (take (Z.to_nat (rd b 2)) (drop 4 b)) c)))).
Proof.
  intros Hb. rewrite (parsePacket_cases b Hb).
  pose proof (parsePacket_any_checksum b) as Hany.
  unfold SYNC_WORD, PROTOCOL_CONFIG.syncWord in *.
  pose proof (rd_byte b 2 Hb) as H2. unfold is_byte in H2.
  destruct (Nat.ltb_spec (length b) 5);
    destruct (Z.eqb_spec (rd b 0 * 256 + rd b 1) 43605) as [Hsync|Hsync];
    destruct (Z.ltb_spec (Z.of_nat (length b)) (4 + rd b 2 + 1));
    cbn [negb throws message];
    repeat match goal with
           | |- _ /\ _ => split
           | |- _ <-> _ => split
           | |- _ -> _ => intro
           end;
    try lia; try discriminate; try contradiction; try reflexivity.
  - rewrite Hsync. reflexivity.
  - apply Hany; auto. lia.
Qed.

Lemma parsePacket_decode_witness :
  bytes_ok test_buffer /\
  parsePacket test_buffer = Ok (mkPacket 0xAA55 5 2 [1; 2; 3; 4; 5] 0x77).
Proof.
  assert (Hb : bytes_ok test_buffer) by (unfold test_buffer; solve_bytes).
  split; [exact Hb|].
  destruct (parsePacket_decode test_buffer Hb) as [_ H].
  destruct (H ltac:(simpl; lia)) as [_ H1].
  destruct (H1 ltac:(reflexivity)) as [_ H2].
  destruct (H2 ltac:(by vm_compute)) as [H3 _].
  exact H3.
Defined.

(** ** The frame synchroniser *)

Lemma to_uint8_is_byte v : is_byte (to_uint8 v).
Proof. unfold is_byte, to_uint8. apply Z.mod_pos_bound. lia. Qed.

Lemma map_to_uint8_bytes (l : list Z) : bytes_ok l -> map to_uint8 l = l.
Proof.
  induction 1 as [|b l Hb _ IH]; simpl; [reflexivity|].
  rewrite (to_uint8_byte b Hb), IH. reflexivity.
Qed.

Lemma write_at_length buf i data : length (write_at buf i data) = length buf.
Proof.
  revert buf i. induction data as [|d rest IH]; intros buf i; simpl; [reflexivity|].
  rewrite IH. apply length_insert.
Qed.

Lemma write_at_bytes buf i data : bytes_ok buf -> bytes_ok (write_at buf i data).
Proof.
  revert buf i. induction data as [|d rest IH]; intros buf i Hb; simpl; [exact Hb|].
  apply IH. apply Forall_insert; [exact Hb | apply to_uint8_is_byte].
Qed.

Lemma write_at_ge buf i data : (length buf <= i)%nat -> write_at buf i data = buf.
Proof.
  revert buf i. induction data as [|d rest IH]; intros buf i H; simpl; [reflexivity|].
  rewrite list_insert_ge by exact H. apply IH. lia.
Qed.

Lemma take_push (buf : list Z) (i : nat) (v : Z) :
  (i < length buf)%nat -> take (S i) (<[i := v]> buf) = take i buf ++ [v].
Proof.
  intros H. rewrite (take_S_r _ i v) by (apply list_lookup_insert_eq; exact H).
  rewrite take_insert_ge by lia. reflexivity.
Qed.

(** What the buffer holds after the stores: the old prefix, as much of the
    data as fits, and the old rest. *)
Lemma write_at_spec buf i data :
  (i <= length buf)%nat ->
  write_at buf i data =
    take i buf ++ take (length buf - i) (map to_uint8 data)
      ++ drop (i + length data) buf.
Proof.
  revert buf i. induction data as [|d rest IH]; intros buf i H; simpl.
  - rewrite take_nil, Nat.add_0_r. simpl. symmetry. apply take_drop.
  - destruct (decide (i = length buf)) as [->|Hne].
    + rewrite list_insert_ge by lia. rewrite write_at_ge by lia.
      rewrite Nat.sub_diag, firstn_all, drop_ge by lia. simpl.
      symmetry. apply app_nil_r.
    + rewrite IH by (rewrite length_insert; lia).
      rewrite length_insert, take_push by lia.
      rewrite drop_insert_lt by lia.
      replace (length buf - i)%nat with (S (length buf - S i)) by lia.
      cbn [take]. rewrite <- app_assoc. simpl.
      replace (i + S (length rest))%nat with (S (i + length rest)) by lia.
      reflexivity.
Qed.

Lemma write_at_rd_lt buf i data j : (j < i)%nat -> rd (write_at buf i data) j = rd buf j.
Proof.
  revert buf i. induction data as [|d rest IH]; intros buf i H; simpl; [reflexivity|].
  rewrite IH by lia. unfold rd. rewrite list_lookup_insert_ne by lia. reflexivity.
Qed.

Lemma processBytes_app r d1 d2 :
  processBytes r (d1 ++ d2) =
    let '(r1, out1) := processBytes r d1 in
    let '(r2, out2) := processBytes r1 d2 in
    (r2, out1 ++ out2).
Proof.
  revert r. induction d1 as [|b d1 IH]; intros r; simpl.
  - destruct (processBytes r d2); reflexivity.
  - destruct (processByte r b) as [ra oa]. rewrite IH.
    destruct (processBytes ra d1) as [rb ob].
    destruct (processBytes rb d2) as [rc oc].
    rewrite app_assoc. reflexivity.
Qed.

Lemma packets_app o1 o2 : packets (o1 ++ o2) = packets o1 ++ packets o2.
Proof. unfold packets. apply omap_app. Qed.

(** The read loop delivers what [processBytes] delivers on the bytes
    received, chunk boundaries playing no part. *)
Lemma readLoop_packets r reads :
  packets (snd (readLoop r reads)) = packets (snd (processBytes r (received reads))).
Proof.
  revert r. induction reads as [|[value| |] reads IH]; intros r; simpl; try reflexivity.
  rewrite processBytes_app.
  destruct (processBytes r value) as [r1 o1].
  specialize (IH r1).
  destruct (readLoop r1 reads) as [r2 o2].
  destruct (processBytes r1 (received reads)) as [r3 o3].
  simpl in *. rewrite !packets_app, IH. reflexivity.
Qed.

Lemma readLoop_chunks r (chunks : list (list Z)) :
  readLoop r (map Chunk chunks) = processBytes r (concat chunks).
Proof.
  revert r. induction chunks as [|c chunks IH]; intros r; simpl; [reflexivity|].
  rewrite processBytes_app.
  destruct (processBytes r c) as [r1 o1]. rewrite IH. reflexivity.
Qed.

Lemma ready_new_start :
  ready (mkReader SYNCING (buffer Reader.new) 0 (expectedLength Reader.new) true).
Proof.
  unfold ready, Reader.new. cbn [state bufferIndex buffer].
  split; [reflexivity|]. split; [lia|]. split.
  - apply length_replicate.
  - apply Forall_replicate. unfold is_byte; lia.
Qed.

Ltac max_size := unfold PACKET_MAX_SIZE, SERIAL_CONFIG.maxPacketSize in *.

(** From a waiting reader, the four header bytes of a frame lead to the
    payload state with the header in the first four slots. *)
Lemma header_sync r L cmd :
  ready r -> is_byte L -> is_byte cmd ->
  processBytes r [0xAA; 0x55; L; cmd] =
    (mkReader READING_PAYLOAD ([0xAA; 0x55; L; cmd] ++ drop 4 (buffer r)) 4 L
       (isReading r), []).
Proof.
  intros (Hst & Hidx & Hlen & Hb) HL Hc.
  destruct r as [st buf idx L0 ir]. simpl in *. subst st. max_size.
  destruct buf as [|b0 [|b1 [|b2 [|b3 rest]]]]; simpl in Hlen; try lia.
  assert (E170 : to_uint8 170 = 170) by reflexivity.
  assert (E85 : to_uint8 85 = 85) by reflexivity.
  pose proof (to_uint8_byte L HL) as EL. pose proof (to_uint8_byte cmd Hc) as Ec.
  unfold processByte, handleSyncing, handleReadingHeader, push_byte.
  destruct idx as [|[|idx]]; [| |lia]; cbn; rewrite ?E170, ?E85, ?EL, ?Ec.
  - reflexivity.
  - destruct (Z.eqb_spec (b0 * 256 + 170) SYNC_WORD) as [E|_].
    { unfold SYNC_WORD, PROTOCOL_CONFIG.syncWord in E. lia. }
    cbn; rewrite ?E170, ?E85, ?EL, ?Ec. reflexivity.
Qed.

Lemma write_at_app buf i d1 d2 :
  write_at buf i (d1 ++ d2) = write_at (write_at buf i d1) (i + length d1) d2.
Proof.
  revert buf i. induction d1 as [|d d1 IH]; intros buf i; simpl.
  - rewrite Nat.add_0_r. reflexivity.
  - rewrite IH. f_equal. lia.
Qed.

(** Payload bytes short of the expected total are stored and nothing is
    delivered. *)
Lemma payload_run r data :
  state r = READING_PAYLOAD ->
  Z.of_nat (bufferIndex r + length data) < 4 + expectedLength r + 1 ->
  processBytes r data =
    (mkReader READING_PAYLOAD (write_at (buffer r) (bufferIndex r) data)
       (bufferIndex r + length data) (expectedLength r) (isReading r), []).
Proof.
  revert r. induction data as [|d data IH]; intros r Hst Hlt.
  - destruct r; simpl in *; subst. rewrite Nat.add_0_r. reflexivity.
  - destruct r as [st buf idx L ir].
    cbn [state bufferIndex buffer expectedLength isReading length] in *. subst st.
    cbn [processBytes]. unfold processByte. cbn [state].
    unfold handleReadingPayload, push_byte. cbn [state bufferIndex buffer expectedLength isReading].
    destruct (Z.leb_spec (4 + L + 1) (Z.of_nat (S idx))); [lia|].
    rewrite IH; cbn [state bufferIndex buffer expectedLength isReading];
      [|reflexivity|lia].
    cbn [write_at app]. do 2 f_equal. lia.
Qed.

(** The byte that completes the expected total hands the buffered bytes
    to the decoder and resets the reader. *)
Lemma payload_last r c :
  state r = READING_PAYLOAD ->
  4 + expectedLength r + 1 <= Z.of_nat (S (bufferIndex r)) ->
  processBytes r [c] =
    (mkReader SYNCING (write_at (buffer r) (bufferIndex r) [c]) 0 0 (isReading r),
     match parsePacket (take (S (bufferIndex r)) (write_at (buffer r) (bufferIndex r) [c])) with
     | Ok packet => [onPacket packet]
     | Throw err => [onError (ParseFailure err)]
     end).
Proof.
  intros Hst Hge. destruct r as [st buf idx L ir].
  cbn [state bufferIndex buffer expectedLength isReading] in *. subst st.
  cbn [processBytes]. unfold processByte. cbn [state].
  unfold handleReadingPayload, push_byte. cbn [state bufferIndex buffer expectedLength isReading].
  destruct (Z.leb_spec (4 + L + 1) (Z.of_nat (S idx))); [|lia].
  unfold processPacket, resetState. cbn [buffer bufferIndex isReading write_at].
  rewrite slice_prefix, app_nil_r. reflexivity.
Qed.

Lemma parsePacket_raw_frame cmd payload ck :
  legal_frame cmd payload ck ->
  parsePacket (raw_frame cmd payload ck) = Ok (frame_packet cmd payload ck).
Proof.
  intros (Hc & Hp & Hk & Hlen).
  assert (Hb : bytes_ok (raw_frame cmd payload ck)).
  { unfold raw_frame. apply Forall_app; split; [|apply Forall_app; split; [exact Hp|solve_bytes]].
    unfold raw_frame in Hlen. cbn [app length] in Hlen.
    rewrite length_app in Hlen. cbn [length] in Hlen. max_size. solve_bytes. }
  rewrite (parsePacket_cases _ Hb).
  unfold raw_frame in *. cbn [app length rd lookup list_lookup default from_option id] in *.
  rewrite length_app in *. cbn [length] in *.
  destruct (Nat.ltb_spec (S (S (S (S (length payload + 1))))) 5); [lia|].
  change (170 * 256 + 85 =? SYNC_WORD) with true. cbn [negb].
  destruct (Z.ltb_spec (Z.of_nat (S (S (S (S (length payload + 1))))))
              (4 + Z.of_nat (length payload) + 1)); [lia|].
  unfold frame_packet. rewrite Nat2Z.id.
  change (drop 4 (170 :: 85 :: Z.of_nat (length payload) :: cmd :: payload ++ [ck]))
    with (payload ++ [ck]).
  rewrite take_app_length.
  do 2 f_equal. unfold rd.
  change (170 :: 85 :: Z.of_nat (length payload) :: cmd :: payload ++ [ck])
    with ([170; 85; Z.of_nat (length payload); cmd] ++ payload ++ [ck]).
  rewrite lookup_app_r by (simpl; lia). cbn [length].
  rewrite lookup_app_r by lia.
  replace (4 + length payload - 4 - length payload)%nat with 0%nat by lia.
  reflexivity.
Qed.

(** While the body of a frame is incomplete nothing is delivered. *)
Lemma frame_prefix r L cmd body :
  ready r -> is_byte L -> is_byte cmd ->
  (length body <= Z.to_nat L)%nat ->
  processBytes r ([0xAA; 0x55; L; cmd] ++ body) =
    (mkReader READING_PAYLOAD (frame_buffer r L cmd body) (4 + length body) L
       (isReading r), []).
Proof.
  intros Hr HL Hc Hlen. rewrite processBytes_app, (header_sync r L cmd Hr HL Hc).
  unfold is_byte in HL.
  rewrite payload_run; cbn [state bufferIndex buffer expectedLength isReading];
    [reflexivity | reflexivity | lia].
Qed.

(** The last byte of the body hands [4 + L + 1] buffered bytes, as far as
    the buffer holds them, to the decoder. *)
Lemma frame_run r L cmd body :
  ready r -> is_byte L -> is_byte cmd ->
  length body = (Z.to_nat L + 1)%nat ->
  processBytes r ([0xAA; 0x55; L; cmd] ++ body) =
    (mkReader SYNCING (frame_buffer r L cmd body) 0 0 (isReading r),
     match parsePacket (take (4 + length body) (frame_buffer r L cmd body)) with
     | Ok packet => [onPacket packet]
     | Throw err => [onError (ParseFailure err)]
     end).
Proof.
  intros Hr HL Hc Hlen.
  destruct body as [|c init _] using rev_ind; [simpl in Hlen; lia|].
  rewrite length_app in Hlen. cbn [length] in Hlen.
  rewrite app_assoc, processBytes_app.
  rewrite (frame_prefix r L cmd init Hr HL Hc) by lia.
  unfold is_byte in HL.
  rewrite payload_last; cbn [state bufferIndex buffer expectedLength isReading];
    [|reflexivity|lia].
  unfold frame_buffer. rewrite (write_at_app _ 4 init [c]).
  rewrite length_app. cbn [length app].
  replace (4 + (length init + 1))%nat with (S (4 + length init)) by lia.
  reflexivity.
Qed.

Lemma ready_after r buf :
  length buf = PACKET_MAX_SIZE -> bytes_ok buf ->
  ready (mkReader SYNCING buf 0 0 (isReading r)).
Proof. intros Hl Hb. repeat split; simpl; auto; lia. Qed.

Lemma frame_buffer_length r L cmd body :
  ready r -> length (frame_buffer r L cmd body) = PACKET_MAX_SIZE.
Proof.
  intros (_ & _ & Hlen & _). unfold frame_buffer. rewrite write_at_length.
  rewrite length_app, length_drop, Hlen. max_size. simpl. lia.
Qed.

Lemma frame_buffer_bytes r L cmd body :
  ready r -> is_byte L -> is_byte cmd -> bytes_ok (frame_buffer r L cmd body).
Proof.
  intros (_ & _ & _ & Hb) HL Hc. unfold frame_buffer. apply write_at_bytes.
  apply Forall_app; split; [solve_bytes | apply Forall_drop; exact Hb].
Qed.

(** A legal frame fed to a waiting reader is delivered as one packet, and
    the reader waits again. *)
Lemma frame_delivery r cmd payload ck :
  ready r -> legal_frame cmd payload ck ->
  exists r', processBytes r (raw_frame cmd payload ck) =
               (r', [onPacket (frame_packet cmd payload ck)])
             /\ ready r' /\ bufferIndex r' = 0%nat /\ isReading r' = isReading r.
Proof.
  intros Hr Hleg. pose proof Hleg as (Hc & Hp & Hk & Hlen).
  unfold raw_frame in Hlen. rewrite !length_app in Hlen. cbn [length] in Hlen.
  max_size.
  assert (HL : is_byte (Z.of_nat (length payload))) by (unfold is_byte; lia).
  set (L := Z.of_nat (length payload)) in *.
  eexists. split.
  - unfold raw_frame. fold L. rewrite (frame_run r L cmd (payload ++ [ck]) Hr HL Hc).
    2: { rewrite length_app. unfold L. cbn [length]. lia. }
    f_equal.
    assert (E : take (4 + length (payload ++ [ck])) (frame_buffer r L cmd (payload ++ [ck]))
                = raw_frame cmd payload ck).
    { unfold frame_buffer. destruct Hr as (_ & _ & Hbl & _). max_size.
      assert (HB : length ([170; 85; L; cmd] ++ drop 4 (buffer r)) = 256%nat)
        by (rewrite length_app, length_drop; simpl; lia).
      rewrite write_at_spec by lia.
      rewrite (take_app_length' [170; 85; L; cmd] _ 4) by reflexivity.
      rewrite HB.
      rewrite map_to_uint8_bytes by (apply Forall_app; split; [exact Hp|solve_bytes]).
      rewrite (take_ge (payload ++ [ck])) by (rewrite length_app; simpl; lia).
      rewrite (app_assoc [170; 85; L; cmd]).
      rewrite take_app_length' by (rewrite !length_app; simpl; lia).
      reflexivity. }
    rewrite E, (parsePacket_raw_frame _ _ _ Hleg). reflexivity.
  - split; [|split; reflexivity].
    apply (ready_after r).
    + apply frame_buffer_length, Hr.
    + apply frame_buffer_bytes; auto.
Qed.

Lemma not_sync_word a b :
  is_byte a -> is_byte b ->
  negb ((a =? 0xAA) && (b =? 0x55)) = true -> (a * 256 + b =? SYNC_WORD) = false.
Proof.
  unfold is_byte, SYNC_WORD, PROTOCOL_CONFIG.syncWord. intros Ha Hb H.
  apply Z.eqb_neq. intros E.
  assert (a = 170 /\ b = 85) as [-> ->] by lia. discriminate H.
Qed.

(** Bytes with no sync word in them, the held byte included, leave the
    reader waiting and deliver nothing. *)
Lemma noise_skip noise : forall r,
  ready r -> bytes_ok noise -> no_sync (window r ++ noise) = true ->
  exists r', processBytes r noise = (r', [])
             /\ ready r' /\ isReading r' = isReading r.
Proof.
  induction noise as [|x noise IH]; intros r Hr Hn Hns.
  - exists r. simpl. auto.
  - apply Forall_cons in Hn as [Hx Hn].
    destruct Hr as (Hst & Hidx & Hlen & Hb).
    destruct r as [st buf idx L0 ir]. unfold window in Hns.
    cbn [state bufferIndex buffer expectedLength isReading] in *. subst st. max_size.
    destruct buf as [|b0 [|b1 rest]]; simpl in Hlen; try lia.
    apply Forall_cons in Hb as [Hb0 Hb]. apply Forall_cons in Hb as [Hb1 Hb].
    cbn [processBytes]. unfold processByte, handleSyncing, push_byte.
    cbn [state bufferIndex buffer expectedLength isReading].
    rewrite (to_uint8_byte x Hx).
    destruct idx as [|[|idx]]; [| |lia].
    + cbn. cbn in Hns.
      destruct (IH (mkReader SYNCING (x :: b1 :: rest) 1 L0 ir)) as (r' & E & Hr' & Hi).
      * repeat split; simpl; auto. solve_bytes. exact Hb.
      * exact Hn.
      * exact Hns.
      * exists r'. rewrite E. auto.
    + cbn [Nat.leb list_insert insert rd lookup list_lookup default from_option id].
      change (take 1 (b0 :: b1 :: rest) ++ x :: noise) with (b0 :: x :: noise) in Hns.
      cbn [no_sync] in Hns. apply andb_prop in Hns as [Hne Hns].
      rewrite (not_sync_word b0 x Hb0 Hx Hne).
      destruct (IH (mkReader SYNCING (x :: x :: rest) 1 L0 ir)) as (r' & E & Hr' & Hi).
      * repeat split; simpl; auto. solve_bytes. exact Hb.
      * exact Hn.
      * exact Hns.
      * exists r'. cbn [list_insert insert bufferIndex buffer expectedLength isReading state].
        rewrite E. auto.
Qed.

Lemma calculateChecksum_byte data : is_byte (calculateChecksum data).
Proof.
  unfold calculateChecksum, is_byte. change 255 with (Z.ones 8).
  rewrite Z.land_ones by lia. apply Z.mod_pos_bound. lia.
Qed.

Lemma valid_frame_legal cmd payload :
  well_formed cmd payload ->
  legal_frame cmd payload (calculateChecksum (cmd :: payload)).
Proof.
  intros (Hc & Hp & Hl). unfold legal_frame.
  split; [exact Hc|]. split; [exact Hp|]. split; [apply calculateChecksum_byte|].
  unfold raw_frame. rewrite !length_app. simpl. lia.
Qed.

Lemma start_new_chunks chunks :
  start Reader.new (map Chunk chunks) =
    processBytes (mkReader SYNCING (buffer Reader.new) 0 (expectedLength Reader.new) true)
      (concat chunks).
Proof. unfold start. cbn [isReading Reader.new]. apply readLoop_chunks. Qed.

(** C5. Two valid frames back to back, cut into chunks in any way at
    all, are delivered as exactly two packets, the first frame's packet
    first. *)
Theorem two_frames_any_chunking (chunks : list (list Z)) c1 p1 c2 p2 :
  well_formed c1 p1 -> well_formed c2 p2 ->
  concat chunks = valid_frame c1 p1 ++ valid_frame c2 p2 ->
  snd (start Reader.new (map Chunk chunks)) =
    [onPacket (valid_packet c1 p1); onPacket (valid_packet c2 p2)].
Proof.
  intros H1 H2 Hcat. rewrite start_new_chunks, Hcat, processBytes_app.
  destruct (frame_delivery _ c1 p1 _ ready_new_start (valid_frame_legal _ _ H1))
    as (r1 & E1 & Hr1 & _).
  unfold valid_frame. rewrite E1.
  destruct (frame_delivery _ c2 p2 _ Hr1 (valid_frame_legal _ _ H2))
    as (r2 & E2 & _).
  rewrite E2. reflexivity.
Qed.

Lemma two_frames_any_chunking_witness :
  snd (start Reader.new
         (map Chunk [[0xAA]; [0x55; 2; 3; 7]; [8; 12; 0xAA; 0x55; 0]; []; [2; 2]])) =
    [onPacket (valid_packet 3 [7; 8]); onPacket (valid_packet 2 [])].
Proof.
  apply (two_frames_any_chunking _ 3 [7; 8] 2 []).
  - split; [unfold is_byte; lia|]. split; [solve_bytes | max_size; simpl; lia].
  - split; [unfold is_byte; lia|]. split; [solve_bytes | max_size; simpl; lia].
  - reflexivity.
Defined.

(** C3, as the code has it. One valid frame after noise that holds no
    complete sync word (a lone 0xAA, also as its last byte, is allowed) is
    delivered as exactly one packet, the frame's, for any chunking of the
    stream; and while the reader waits, a two-byte window that is not the
    sync word is shifted by one byte: its second byte becomes the held
    byte. *)
Theorem noise_then_frame (chunks : list (list Z)) noise cmd payload :
  bytes_ok noise -> no_sync noise = true -> well_formed cmd payload ->
  concat chunks = noise ++ valid_frame cmd payload ->
  snd (start Reader.new (map Chunk chunks)) = [onPacket (valid_packet cmd payload)]
  /\ forall r b, ready r -> bufferIndex r = 1%nat -> is_byte b ->
       rd (buffer r) 0 * 256 + b <> SYNC_WORD ->
       let r' := handleSyncing r b in
       state r' = SYNCING /\ bufferIndex r' = 1%nat /\ window r' = [b].
Proof.
  intros Hn Hns Hwf Hcat. split.
  - rewrite start_new_chunks, Hcat, processBytes_app.
    destruct (noise_skip noise _ ready_new_start Hn) as (r1 & E1 & Hr1 & _).
    { exact Hns. }
    rewrite E1.
    destruct (frame_delivery _ cmd payload _ Hr1 (valid_frame_legal _ _ Hwf))
      as (r2 & E2 & _).
    unfold valid_frame. rewrite E2. reflexivity.
  - intros r b (Hst & _ & Hlen & _) Hidx Hb Hne.
    destruct r as [st buf idx L0 ir].
    cbn [state bufferIndex buffer expectedLength isReading] in *. subst st idx. max_size.
    destruct buf as [|b0 [|b1 rest]]; simpl in Hlen; try lia.
    unfold handleSyncing, push_byte, window.
    cbn [state bufferIndex buffer expectedLength isReading].
    rewrite (to_uint8_byte b Hb).
    cbn [Nat.leb list_insert insert rd lookup list_lookup default from_option id] in *.
    destruct (Z.eqb_spec (b0 * 256 + b) SYNC_WORD); [contradiction|].
    cbn. auto.
Qed.

Lemma noise_then_frame_witness :
  snd (start Reader.new
         (map Chunk [[0x55; 0xAA]; [0x01; 0xAA; 0xAA; 0x55]; [1; 2; 9]; [11]])) =
    [onPacket (valid_packet 2 [9])].
Proof.
  refine (proj1 (noise_then_frame _ [0x55; 0xAA; 0x01; 0xAA] 2 [9] _ _ _ _)).
  - solve_bytes.
  - reflexivity.
  - split; [unfold is_byte; lia|]. split; [solve_bytes | max_size; simpl; lia].
  - reflexivity.
Defined.

(** C3 as stated fails: noise that holds a sync word makes the reader
    take the following noise bytes for a frame and deliver it. *)
Lemma noise_with_sync_word_counterexample :
  bytes_ok [0xAA; 0x55; 0; 7; 9] /\ well_formed 1 [] /\
  snd (start Reader.new [Chunk ([0xAA; 0x55; 0; 7; 9] ++ valid_frame 1 [])]) =
    [onPacket (mkPacket SYNC_WORD 0 7 [] 9); onPacket (valid_packet 1 [])] /\
  snd (start Reader.new [Chunk ([0xAA; 0x55; 0; 7; 9] ++ valid_frame 1 [])]) <>
    [onPacket (valid_packet 1 [])].
Proof.
  split; [solve_bytes|].
  split; [split; [unfold is_byte; lia|]; split; [solve_bytes | max_size; simpl; lia]|].
  split; [vm_compute; reflexivity | vm_compute; discriminate].
Qed.

(** Noise with a sync word can also swallow the frame altogether. *)
Example noise_swallows_frame :
  snd (start Reader.new [Chunk ([0xAA; 0x55; 200; 0] ++ valid_frame 1 [])]) = [].
Proof. vm_compute. reflexivity. Qed.

(** C10. Once the reader has synced on a header that declares a length
    [L] above 251, so that [4 + L + 1] exceeds the 256-byte scratch
    buffer, no packet is delivered for that frame whatever bytes follow:
    nothing is delivered while the body is incomplete, the stores past the
    buffer are dropped, the completed data fails in [parsePacket] with
    'Incomplete packet', that error goes to the error callback, and the
    reader is back in [SYNCING] with its cursor at zero. *)
Theorem oversized_frame_rejected r L cmd (body : list Z) :
  ready r -> is_byte L -> is_byte cmd -> 251 < L ->
  length body = (Z.to_nat L + 1)%nat ->
  (forall k, (k <= Z.to_nat L)%nat ->
     snd (processBytes r ([0xAA; 0x55; L; cmd] ++ take k body)) = []) /\
  processBytes r ([0xAA; 0x55; L; cmd] ++ body) =
    (mkReader SYNCING ([0xAA; 0x55; L; cmd] ++ take 252 (map to_uint8 body)) 0 0
       (isReading r),
     [onError (ParseFailure (IncompletePacket (4 + L + 1) PACKET_MAX_SIZE))]) /\
  message (IncompletePacket (4 + L + 1) PACKET_MAX_SIZE) = "Incomplete packet".
Proof.
  intros Hr HL Hc Hbig Hlen. split; [|split; [|reflexivity]].
  - intros k Hk. rewrite (frame_prefix r L cmd (take k body) Hr HL Hc); [reflexivity|].
    rewrite length_take. lia.
  - rewrite (frame_run r L cmd body Hr HL Hc Hlen).
    pose proof (frame_buffer_length r L cmd body Hr) as HBl.
    pose proof (frame_buffer_bytes r L cmd body Hr HL Hc) as HBb.
    assert (HB : frame_buffer r L cmd body
                 = [0xAA; 0x55; L; cmd] ++ take 252 (map to_uint8 body)).
    { unfold frame_buffer. destruct Hr as (_ & _ & Hbl & _). max_size.
      assert (HB : length ([170; 85; L; cmd] ++ drop 4 (buffer r)) = 256%nat)
        by (rewrite length_app, length_drop; simpl; lia).
      rewrite write_at_spec by lia.
      rewrite (take_app_length' [170; 85; L; cmd] _ 4) by reflexivity.
      rewrite HB. rewrite (drop_ge _ (4 + length body)) by lia.
      rewrite app_nil_r. reflexivity. }
    rewrite take_ge by (rewrite HBl; max_size; lia).
    rewrite (parsePacket_cases _ HBb), HBl, HB.
    cbn [app rd lookup list_lookup default from_option id].
    max_size. unfold is_byte in HL.
    change (256 <? 5)%nat with false.
    change (170 * 256 + 85 =? SYNC_WORD) with true. cbn [negb].
    destruct (Z.ltb_spec (Z.of_nat 256) (4 + L + 1)); [reflexivity | lia].
Qed.

Lemma oversized_frame_rejected_witness :
  processBytes (mkReader SYNCING (buffer Reader.new) 0 0 true)
    ([0xAA; 0x55; 252; 1] ++ replicate 253 7) =
    (mkReader SYNCING ([0xAA; 0x55; 252; 1] ++ replicate 252 7) 0 0 true,
     [onError (ParseFailure (IncompletePacket 257 256))]).
Proof.
  refine (proj1 (proj2 (oversized_frame_rejected
            (mkReader SYNCING (buffer Reader.new) 0 0 true) 252 1 (replicate 253 7)
            ready_new_start _ _ _ _))).
  - unfold is_byte; lia.
  - unfold is_byte; lia.
  - lia.
  - reflexivity.
Defined.

(** *** What a delivered packet is *)

Lemma list_last_rd (g : list Z) (n : nat) :
  length g = S n -> g = take n g ++ [rd g n].
Proof.
  intros H. rewrite <- (take_S_r g n (rd g n)) by (apply rd_lookup; lia).
  symmetry. apply take_ge. lia.
Qed.

Lemma frame_decompose (f : list Z) (n : nat) :
  length f = (4 + n + 1)%nat ->
  f = [rd f 0; rd f 1; rd f 2; rd f 3] ++ take n (drop 4 f) ++ [rd f (4 + n)].
Proof.
  intros H. destruct f as [|a [|b [|c [|d g]]]]; simpl in H; try lia.
  change (rd (a :: b :: c :: d :: g) (4 + n)) with (rd g n).
  cbn [rd lookup list_lookup default from_option id app]. do 4 f_equal.
  change (drop 4 (a :: b :: c :: d :: g)) with g.
  apply list_last_rd. lia.
Qed.

Lemma rd_take (l : list Z) (n i : nat) : (i < n)%nat -> rd (take n l) i = rd l i.
Proof. intros H. unfold rd. rewrite lookup_take_lt by exact H. reflexivity. Qed.

Lemma rd_insert_ne (l : list Z) (i j : nat) (v : Z) :
  i <> j -> rd (<[i := v]> l) j = rd l j.
Proof. intros H. unfold rd. rewrite list_lookup_insert_ne by exact H. reflexivity. Qed.

Lemma suffix_push (s c : list Z) (b : Z) :
  s `suffix_of` c -> s ++ [b] `suffix_of` c ++ [b].
Proof. apply suffix_app. Qed.

Ltac reader_fields :=
  cbn [state bufferIndex buffer expectedLength isReading] in *.

Ltac list_reads :=
  cbn [Nat.leb list_insert insert rd lookup list_lookup default from_option id
       take length app] in *.

Lemma inv_syncing c r b :
  reader_inv c r -> state r = SYNCING -> is_byte b ->
  reader_inv (c ++ [b]) (handleSyncing r b).
Proof.
  intros (Hlen & Hb & Hst) Est Hbyte. rewrite Est in Hst. destruct Hst as [Hidx Hsuf].
  destruct r as [st buf idx L0 ir]. reader_fields. subst st. max_size.
  destruct buf as [|b0 [|b1 rest]]; simpl in Hlen; try lia.
  apply Forall_cons in Hb as [Hb0 Hb]. apply Forall_cons in Hb as [Hb1 Hb].
  unfold handleSyncing, push_byte. reader_fields. rewrite (to_uint8_byte b Hbyte).
  destruct idx as [|[|idx]]; [| |lia]; list_reads; reader_fields.
  - unfold reader_inv. reader_fields. max_size.
    split; [simpl; lia|]. split; [solve_bytes; exact Hb|].
    split; [lia|]. exists c. reflexivity.
  - destruct (Z.eqb_spec (b0 * 256 + b) SYNC_WORD) as [E|_].
    + unfold SYNC_WORD, PROTOCOL_CONFIG.syncWord, is_byte in *.
      assert (b0 = 170 /\ b = 85) as [-> ->] by lia.
      unfold reader_inv. reader_fields. list_reads. max_size.
      split; [simpl; lia|]. split; [solve_bytes; exact Hb|].
      split; [lia|]. split; [reflexivity|]. split; [reflexivity|].
      apply (suffix_push [170] c 85 Hsuf).
    + unfold reader_inv. reader_fields. list_reads. max_size.
      split; [simpl; lia|]. split; [solve_bytes; exact Hb|].
      split; [lia|]. exists c. reflexivity.
Qed.

Lemma inv_header c r b :
  reader_inv c r -> state r = READING_HEADER -> is_byte b ->
  reader_inv (c ++ [b]) (handleReadingHeader r b).
Proof.
  intros (Hlen & Hb & Hst) Est Hbyte. rewrite Est in Hst.
  destruct Hst as (Hidx & H0 & H1 & Hsuf).
  destruct r as [st buf idx L0 ir]. reader_fields. subst st. max_size.
  destruct buf as [|b0 [|b1 [|b2 [|b3 rest]]]]; simpl in Hlen; try lia.
  apply Forall_cons in Hb as [Hb0 Hb]. apply Forall_cons in Hb as [Hb1 Hb].
  apply Forall_cons in Hb as [Hb2 Hb]. apply Forall_cons in Hb as [Hb3 Hb].
  unfold handleReadingHeader, push_byte. reader_fields. rewrite (to_uint8_byte b Hbyte).
  destruct idx as [|[|[|[|idx]]]]; try lia; list_reads; reader_fields.
  - unfold reader_inv. reader_fields. list_reads. max_size.
    split; [simpl; lia|]. split; [solve_bytes; exact Hb|].
    split; [lia|]. split; [exact H0|]. split; [exact H1|].
    apply (suffix_push [b0; b1] c b Hsuf).
  - unfold reader_inv. reader_fields. list_reads. max_size. unfold is_byte in Hb2.
    split; [simpl; lia|]. split; [solve_bytes; exact Hb|].
    split; [lia|]. split; [lia|]. split; [exact H0|]. split; [exact H1|].
    split; [reflexivity|]. intros _.
    apply (suffix_push [b0; b1; b2] c b Hsuf).
Qed.

Lemma inv_payload c r b :
  reader_inv c r -> state r = READING_PAYLOAD -> is_byte b ->
  reader_inv (c ++ [b]) (fst (handleReadingPayload r b)) /\
  Forall (good_callback (c ++ [b])) (snd (handleReadingPayload r b)).
Proof.
  intros (Hlen & Hb & Hst) Est Hbyte. rewrite Est in Hst.
  destruct Hst as (Hidx & Hlt & H0 & H1 & H2 & Hsuf).
  destruct r as [st buf idx L ir]. reader_fields. subst st.
  unfold handleReadingPayload, push_byte. reader_fields. rewrite (to_uint8_byte b Hbyte).
  set (buf' := <[idx := b]> buf).
  assert (Hlen' : length buf' = PACKET_MAX_SIZE) by (unfold buf'; rewrite length_insert; exact Hlen).
  assert (Hb' : bytes_ok buf') by (apply Forall_insert; assumption).
  assert (H0' : rd buf' 0 = 0xAA) by (unfold buf'; rewrite rd_insert_ne by lia; exact H0).
  assert (H1' : rd buf' 1 = 0x55) by (unfold buf'; rewrite rd_insert_ne by lia; exact H1).
  assert (H2' : rd buf' 2 = L) by (unfold buf'; rewrite rd_insert_ne by lia; exact H2).
  max_size.
  destruct (Z.leb_spec (4 + L + 1) (Z.of_nat (S idx))) as [Hdone|Hmore]; cbn [fst snd].
  - split.
    { unfold resetState, reader_inv. reader_fields. max_size.
      split; [exact Hlen'|]. split; [exact Hb'|]. split; [lia|]. apply suffix_nil. }
    unfold processPacket. reader_fields. rewrite slice_prefix.
    destruct (le_lt_dec (S idx) 256) as [Hfit|Hover].
    + set (f := take (S idx) buf').
      assert (Hfl : length f = S idx) by (unfold f; rewrite length_take; lia).
      assert (Hfb : bytes_ok f) by (apply Forall_take; exact Hb').
      assert (Hf0 : rd f 0 = 0xAA) by (unfold f; rewrite rd_take by lia; exact H0').
      assert (Hf1 : rd f 1 = 0x55) by (unfold f; rewrite rd_take by lia; exact H1').
      assert (Hf2 : rd f 2 = L) by (unfold f; rewrite rd_take by lia; exact H2').
      rewrite (parsePacket_cases f Hfb), Hfl, Hf0, Hf1, Hf2.
      destruct (Nat.ltb_spec (S idx) 5); [lia|].
      change (170 * 256 + 85 =? SYNC_WORD) with true. cbn [negb].
      destruct (Z.ltb_spec (Z.of_nat (S idx)) (4 + L + 1)); [lia|].
      apply Forall_cons_2; [|apply Forall_nil_2].
      assert (Hpl : length (take (Z.to_nat L) (drop 4 f)) = Z.to_nat L).
      { rewrite length_take, length_drop. lia. }
      unfold good_callback, good_packet. cbn [sync length_ command payload checksum].
      split; [reflexivity|]. split; [rewrite Hpl; lia|].
      unfold raw_frame. rewrite Hpl. replace (Z.of_nat (Z.to_nat L)) with L by lia.
      rewrite <- Hf0 at 1. rewrite <- Hf1 at 1. rewrite <- Hf2 at 1.
      rewrite <- (frame_decompose f (Z.to_nat L)) by lia.
      unfold f, buf'. rewrite take_push by lia.
      apply suffix_push, Hsuf. lia.
    + rewrite take_ge by lia.
      rewrite (parsePacket_cases buf' Hb'), Hlen', H0', H1', H2'.
      change (256 <? 5)%nat with false.
      change (170 * 256 + 85 =? SYNC_WORD) with true. cbn [negb].
      destruct (Z.ltb_spec (Z.of_nat 256) (4 + L + 1)); [|lia].
      apply Forall_cons_2; [exact I | apply Forall_nil_2].
  - split; [|apply Forall_nil_2].
    unfold reader_inv. reader_fields. max_size.
    split; [exact Hlen'|]. split; [exact Hb'|].
    split; [lia|]. split; [lia|]. split; [exact H0'|]. split; [exact H1'|].
    split; [exact H2'|]. intros Hfit.
    unfold buf'. rewrite take_push by lia. apply suffix_push, Hsuf. lia.
Qed.

Lemma inv_step c r b :
  reader_inv c r -> is_byte b ->
  reader_inv (c ++ [b]) (fst (processByte r b)) /\
  Forall (good_callback (c ++ [b])) (snd (processByte r b)).
Proof.
  intros Hinv Hb. unfold processByte. destruct (state r) eqn:Est; cbn [fst snd].
  - split; [|apply Forall_nil_2].
    destruct Hinv as (Hl & Hbs & _). unfold reader_inv. rewrite Est. auto.
  - split; [apply inv_syncing; assumption | apply Forall_nil_2].
  - split; [apply inv_header; assumption | apply Forall_nil_2].
  - apply inv_payload; assumption.
Qed.

Lemma good_packet_in_stream c rest p :
  good_packet c p -> frame_in_stream (c ++ rest) p.
Proof.
  intros (Hs & Hl & pre & ->). split; [exact Hs|]. split; [exact Hl|].
  exists pre, rest. rewrite <- app_assoc. reflexivity.
Qed.

Lemma inv_run data : forall c r,
  reader_inv c r -> bytes_ok data ->
  reader_inv (c ++ data) (fst (processBytes r data)) /\
  forall p, p ∈ packets (snd (processBytes r data)) -> frame_in_stream (c ++ data) p.
Proof.
  induction data as [|b data IH]; intros c r Hinv Hd.
  - rewrite app_nil_r. split; [exact Hinv|].
    simpl. intros p Hp. inversion Hp.
  - apply Forall_cons in Hd as [Hb Hd]. cbn [processBytes].
    destruct (inv_step c r b Hinv Hb) as [Hinv1 Hout1].
    destruct (processByte r b) as [r1 o1]. cbn [fst snd] in *.
    destruct (IH (c ++ [b]) r1 Hinv1 Hd) as [Hinv2 Hout2].
    destruct (processBytes r1 data) as [r2 o2]. cbn [fst snd] in *.
    replace (c ++ b :: data) with ((c ++ [b]) ++ data)
      by (rewrite <- app_assoc; reflexivity).
    split; [exact Hinv2|].
    intros p Hp. rewrite packets_app in Hp. apply elem_of_app in Hp as [Hp|Hp].
    + apply good_packet_in_stream.
      unfold packets in Hp. apply list_elem_of_omap in Hp as (cb & Hcb & Ecb).
      destruct cb as [q|e]; [|discriminate]. injection Ecb as ->.
      exact (proj1 (Forall_forall _ _) Hout1 _ Hcb).
    + apply Hout2, Hp.
Qed.

Lemma reader_inv_start :
  reader_inv [] (mkReader SYNCING (buffer Reader.new) 0 (expectedLength Reader.new) true).
Proof.
  destruct ready_new_start as (_ & _ & Hl & Hb).
  unfold reader_inv. reader_fields.
  split; [exact Hl|]. split; [exact Hb|]. split; [lia|]. apply suffix_nil.
Qed.

Lemma start_new_packets reads :
  packets (snd (start Reader.new reads)) =
    packets (snd (processBytes
                    (mkReader SYNCING (buffer Reader.new) 0 (expectedLength Reader.new) true)
                    (received reads))).
Proof. unfold start. cbn [isReading Reader.new]. apply readLoop_packets. Qed.

(** C1, as the code has it. Every packet the reader delivers is the
    decode of a frame that occurs in the bytes received: it carries the
    sync word, its payload has exactly [length] bytes, and its checksum
    field is the byte that follows the payload in the stream. The field is
    copied, not compared with the XOR fold of command and payload: a legal
    frame is delivered whatever its checksum byte is. *)
Theorem delivered_packets_are_stream_frames (reads : list ReadResult) :
  bytes_ok (received reads) ->
  (forall p, p ∈ packets (snd (start Reader.new reads)) ->
     frame_in_stream (received reads) p) /\
  (forall cmd payload ck,
     legal_frame cmd payload ck -> received reads = raw_frame cmd payload ck ->
     packets (snd (start Reader.new reads)) = [frame_packet cmd payload ck]).
Proof.
  intros Hb. rewrite start_new_packets. split.
  - intros p Hp.
    exact (proj2 (inv_run (received reads) [] _ reader_inv_start Hb) p Hp).
  - intros cmd payload ck Hleg ->.
    destruct (frame_delivery _ cmd payload ck ready_new_start Hleg) as (r' & E & _).
    rewrite E. reflexivity.
Qed.

Lemma delivered_packets_are_stream_frames_witness :
  frame_in_stream [0x00; 0xAA; 0x55; 1; 2; 9; 0xFF; 0x01] (mkPacket SYNC_WORD 1 2 [9] 0xFF).
Proof.
  refine (proj1 (delivered_packets_are_stream_frames
                   [Chunk [0x00; 0xAA]; Chunk [0x55; 1; 2; 9; 0xFF; 0x01]; Done] _) _ _).
  - simpl. solve_bytes.
  - vm_compute. apply list_elem_of_here.
Defined.

(** C1 as stated fails: a frame whose checksum byte is not the XOR fold
    of command and payload is delivered to the packet callback. *)
Lemma bad_checksum_delivered_counterexample :
  snd (start Reader.new [Chunk [0xAA; 0x55; 1; 2; 9; 0xFF]]) =
    [onPacket (mkPacket SYNC_WORD 1 2 [9] 0xFF)] /\
  checksum (mkPacket SYNC_WORD 1 2 [9] 0xFF) <>
    calculateChecksum (command (mkPacket SYNC_WORD 1 2 [9] 0xFF)
                         :: payload (mkPacket SYNC_WORD 1 2 [9] 0xFF)) /\
  verifyChecksum [2; 9] 0xFF = false.
Proof.
  split; [vm_compute; reflexivity|]. split; [vm_compute; discriminate | reflexivity].
Qed.

(** ** The packet encoder *)

Example float32_bits_half : float32_bits (to_float32 num_0_5) = 0x3F000000.
Proof. vm_compute. reflexivity. Qed.

Example float32_bits_one : float32_bits (to_float32 num_1_0) = 0x3F800000.
Proof. vm_compute. reflexivity. Qed.

Example encode_example :
  encodeAngles (num_0_5, num_1_0, num_neg_0_5) =
    Ok [0xAA; 0x55; 12; 1; 0; 0; 0; 0x3F; 0; 0; 0x80; 0x3F; 0; 0; 0; 0xBF; 0x3E].
Proof. vm_compute. reflexivity. Qed.

Lemma setBytes_fits view off bs :
  0 <= off -> off + Z.of_nat (length bs) <= Z.of_nat (length view) ->
  setBytes view off bs = Ok (store view (Z.to_nat off) bs).
Proof.
  intros H0 H1. unfold setBytes.
  destruct (Z.ltb_spec off 0); [lia|].
  destruct (Z.ltb_spec (Z.of_nat (length view)) (off + Z.of_nat (length bs))); [lia|].
  reflexivity.
Qed.

Lemma store_length view off bs : length (store view off bs) = length view.
Proof.
  revert view off. induction bs as [|b bs IH]; intros view off; simpl; [reflexivity|].
  rewrite IH. apply length_insert.
Qed.

Lemma encodeAngles_frame (angles : JointAngles) :
  encodeAngles angles =
    Ok ([0xAA; 0x55; 12; 0x01] ++ angles_payload angles
          ++ [calculateChecksum (0x01 :: angles_payload angles)]).
Proof.
  destruct angles as [[a0 a1] a2]. unfold encodeAngles, angles_payload.
  unfold setUint16, setUint8, setFloat32.
  set (w0 := float32_bits (to_float32 a0)).
  set (w1 := float32_bits (to_float32 a1)).
  set (w2 := float32_bits (to_float32 a2)).
  unfold le32.
  generalize (Z.land w0 255) (Z.land (Z.shiftr w0 8) 255)
             (Z.land (Z.shiftr w0 16) 255) (Z.land (Z.shiftr w0 24) 255).
  generalize (Z.land w1 255) (Z.land (Z.shiftr w1 8) 255)
             (Z.land (Z.shiftr w1 16) 255) (Z.land (Z.shiftr w1 24) 255).
  generalize (Z.land w2 255) (Z.land (Z.shiftr w2 8) 255)
             (Z.land (Z.shiftr w2 16) 255) (Z.land (Z.shiftr w2 24) 255).
  intros c0 c1 c2 c3 b0 b1 b2 b3 a0' a1' a2' a3'.
  repeat (rewrite setBytes_fits by (rewrite ?store_length; simpl; lia);
          cbn [mbind result_bind]).
  cbn -[calculateChecksum to_uint8].
  rewrite (to_uint8_byte (calculateChecksum _)) by apply calculateChecksum_byte.
  reflexivity.
Qed.

(** The loop of [calculateChecksum] computes the XOR of the bytes, and on
    bytes the final mask changes nothing. *)
Lemma xor_loop_fold (data : list Z) : forall acc,
  xor_loop acc data = Z.lxor acc (fold_right Z.lxor 0 data).
Proof.
  induction data as [|d data IH]; intros acc; cbn [xor_loop fold_right].
  - rewrite Z.lxor_0_r. reflexivity.
  - rewrite IH. apply Z.lxor_assoc.
Qed.

Lemma lxor_byte (a b : Z) : is_byte a -> is_byte b -> is_byte (Z.lxor a b).
Proof.
  unfold is_byte. intros Ha Hb.
  assert (Ea : Z.land a (Z.ones 8) = a)
    by (rewrite Z.land_ones by lia; apply Z.mod_small; lia).
  assert (Eb : Z.land b (Z.ones 8) = b)
    by (rewrite Z.land_ones by lia; apply Z.mod_small; lia).
  assert (E : Z.land (Z.lxor a b) (Z.ones 8) = Z.lxor a b).
  { transitivity (Z.lxor (Z.land a (Z.ones 8)) (Z.land b (Z.ones 8)));
      [|rewrite Ea, Eb; reflexivity].
    apply Z.bits_inj'. intros n Hn.
    rewrite Z.land_spec, !Z.lxor_spec, !Z.land_spec.
    destruct (Z.testbit a n), (Z.testbit b n), (Z.testbit (Z.ones 8) n); reflexivity. }
  rewrite <- E, Z.land_ones by lia.
  pose proof (Z.mod_pos_bound (Z.lxor a b) (2 ^ 8) ltac:(lia)). lia.
Qed.

Lemma fold_lxor_byte (data : list Z) :
  bytes_ok data -> is_byte (fold_right Z.lxor 0 data).
Proof.
  induction 1 as [|d data Hd _ IH]; cbn [fold_right].
  - unfold is_byte. lia.
  - apply lxor_byte; assumption.
Qed.

Lemma calculateChecksum_fold (data : list Z) :
  bytes_ok data -> calculateChecksum data = fold_right Z.lxor 0 data.
Proof.
  intros Hb. unfold calculateChecksum. rewrite xor_loop_fold, Z.lxor_0_l.
  pose proof (fold_lxor_byte data Hb) as Hf. unfold is_byte in Hf.
  change 255 with (Z.ones 8). rewrite Z.land_ones by lia. apply Z.mod_small. lia.
Qed.

Lemma angles_payload_bytes (angles : JointAngles) : bytes_ok (angles_payload angles).
Proof.
  destruct angles as [[a0 a1] a2]. unfold angles_payload, le32.
  assert (Hland : forall w, is_byte (Z.land w 0xff)).
  { intros w. unfold is_byte. change 255 with (Z.ones 8).
    rewrite Z.land_ones by lia.
    pose proof (Z.mod_pos_bound w (2 ^ 8) ltac:(lia)). lia. }
  repeat (apply Forall_cons_2; [apply Hland|]). apply Forall_nil_2.
Qed.

(** C4. For every triple of angles [encodeAngles] returns exactly 17
    bytes: 0xAA, 0x55 (the sync word, big-endian), the length 12, the
    command 0x01, the three angles as binary32 values, least significant
    byte first, in input order, and as last byte the XOR fold of the
    command byte and the twelve payload bytes: byte 16 is the XOR of
    bytes 3 to 15, which is also what [calculateChecksum] gives on them.
    For [0.5, 1.0, -0.5] the float fields at offsets 4, 8 and 12 read
    back as 0.5, 1.0 and -0.5, and the last byte is 0x3E. *)
Theorem encodeAngles_layout (a0 a1 a2 : number) :
  (exists frame,
     encodeAngles (a0, a1, a2) = Ok frame /\
     length frame = 17%nat /\
     rd frame 0 = 0xAA /\ rd frame 1 = 0x55 /\
     rd frame 0 * 256 + rd frame 1 = SYNC_WORD /\
     rd frame 2 = 12 /\
     rd frame 3 = 0x01 /\ rd frame 3 = CMD_SET_JOINT_ANGLE /\
     slice frame 4 (Some 8) = le32 (float32_bits (to_float32 a0)) /\
     slice frame 8 (Some 12) = le32 (float32_bits (to_float32 a1)) /\
     slice frame 12 (Some 16) = le32 (float32_bits (to_float32 a2)) /\
     rd frame 16 = calculateChecksum (rd frame 3 :: slice frame 4 (Some 16)) /\
     rd frame 16 = fold_right Z.lxor 0 (rd frame 3 :: slice frame 4 (Some 16)) /\
     rd frame 16 =
       Z.lxor (rd frame 3)
         (Z.lxor (rd frame 4) (Z.lxor (rd frame 5) (Z.lxor (rd frame 6)
           (Z.lxor (rd frame 7) (Z.lxor (rd frame 8) (Z.lxor (rd frame 9)
             (Z.lxor (rd frame 10) (Z.lxor (rd frame 11) (Z.lxor (rd frame 12)
               (Z.lxor (rd frame 13) (Z.lxor (rd frame 14) (rd frame 15)))))))))))) /\
     length (slice frame 4 (Some 16)) = 12%nat) /\
  (exists frame,
     encodeAngles (num_0_5, num_1_0, num_neg_0_5) = Ok frame /\
     getFloat32 frame 4 true = Ok num_0_5 /\
     getFloat32 frame 8 true = Ok num_1_0 /\
     getFloat32 frame 12 true = Ok num_neg_0_5 /\
     rd frame 16 = 0x3E).
Proof.
  split.
  - eexists. split; [apply (encodeAngles_frame (a0, a1, a2))|].
    pose proof (angles_payload_bytes (a0, a1, a2)) as Hpb. revert Hpb.
    unfold angles_payload, le32.
    generalize (float32_bits (to_float32 a0)) (float32_bits (to_float32 a1))
               (float32_bits (to_float32 a2)).
    intros w0 w1 w2 Hpb.
    do 11 (split; [reflexivity|]).
    assert (Hfold : forall frame,
              frame = [0xAA; 0x55; 12; 0x01]
                        ++ [Z.land w0 255; Z.land (Z.shiftr w0 8) 255;
                            Z.land (Z.shiftr w0 16) 255; Z.land (Z.shiftr w0 24) 255]
                        ++ [Z.land w1 255; Z.land (Z.shiftr w1 8) 255;
                            Z.land (Z.shiftr w1 16) 255; Z.land (Z.shiftr w1 24) 255]
                        ++ [Z.land w2 255; Z.land (Z.shiftr w2 8) 255;
                            Z.land (Z.shiftr w2 16) 255; Z.land (Z.shiftr w2 24) 255]
                        ++ [calculateChecksum
                              (0x01 :: [Z.land w0 255; Z.land (Z.shiftr w0 8) 255;
                                        Z.land (Z.shiftr w0 16) 255;
                                        Z.land (Z.shiftr w0 24) 255]
                                 ++ [Z.land w1 255; Z.land (Z.shiftr w1 8) 255;
                                     Z.land (Z.shiftr w1 16) 255;
                                     Z.land (Z.shiftr w1 24) 255]
                                 ++ [Z.land w2 255; Z.land (Z.shiftr w2 8) 255;
                                     Z.land (Z.shiftr w2 16) 255;
                                     Z.land (Z.shiftr w2 24) 255])] ->
              rd frame 16
              = fold_right Z.lxor 0 (rd frame 3 :: slice frame 4 (Some 16))).
    { intros frame ->.
      etransitivity;
        [|apply calculateChecksum_fold; apply Forall_cons_2;
          [unfold is_byte; cbn; lia | exact Hpb]].
      reflexivity. }
    split; [apply Hfold; reflexivity|].
    split; [|reflexivity].
    cbn -[Z.lxor Z.land Z.shiftr calculateChecksum].
    rewrite calculateChecksum_fold
      by (apply Forall_cons_2; [unfold is_byte; lia | exact Hpb]).
    cbn [fold_right]. rewrite Z.lxor_0_r. reflexivity.
  - eexists. split; [apply encode_example|].
    repeat split; vm_compute; reflexivity.
Qed.

(** What the encoder emits is a valid frame, which the decoder takes back
    apart. *)
Lemma encodeAngles_valid_frame (angles : JointAngles) :
  encodeAngles angles = Ok (valid_frame CMD_SET_JOINT_ANGLE (angles_payload angles))
  /\ well_formed CMD_SET_JOINT_ANGLE (angles_payload angles).
Proof.
  split.
  - rewrite encodeAngles_frame. destruct angles as [[a0 a1] a2]. reflexivity.
  - destruct angles as [[a0 a1] a2]. unfold well_formed, angles_payload.
    split; [unfold is_byte, CMD_SET_JOINT_ANGLE, PROTOCOL_CONFIG.setJointAngle; lia|].
    split; [|max_size; simpl; lia].
    assert (Hland : forall w, is_byte (Z.land w 0xff)).
    { intros w. unfold is_byte. change 255 with (Z.ones 8).
      rewrite Z.land_ones by lia. apply Z.mod_pos_bound. lia. }
    unfold le32. repeat (apply Forall_cons_2; [apply Hland|]). apply Forall_nil_2.
Qed.

Lemma parsePacket_encodeAngles (angles : JointAngles) :
  encodeAngles angles ≫= parsePacket =
    Ok (mkPacket SYNC_WORD 12 CMD_SET_JOINT_ANGLE (angles_payload angles)
          (calculateChecksum (CMD_SET_JOINT_ANGLE :: angles_payload angles))).
Proof.
  destruct (encodeAngles_valid_frame angles) as [-> Hwf]. cbn [mbind result_bind].
  unfold valid_frame. rewrite (parsePacket_raw_frame _ _ _ (valid_frame_legal _ _ Hwf)).
  unfold frame_packet. destruct angles as [[a0 a1] a2]. reflexivity.
Qed.

(** ** The throttled writer *)

Lemma run_snoc s evs ev : run s (evs ++ [ev]) = step (run s evs) ev.
Proof. unfold run. rewrite fold_left_app. reflexivity. Qed.

Lemma run_app s evs1 evs2 : run s (evs1 ++ evs2) = run (run s evs1) evs2.
Proof. unfold run. apply fold_left_app. Qed.

(** The queue after the first half of [write], for the capacity of 10:
    all but the last nine pending frames go, then the new one is
    appended. *)
Lemma enqueue_queue w data :
  maxQueueSize w = 10 ->
  queue (enqueue w data) = drop (length (queue w) - 9) (queue w) ++ [data].
Proof.
  intros Hmax. unfold enqueue, set_queue. cbn [queue]. rewrite Hmax.
  destruct (Z.leb_spec 10 (Z.of_nat (length (queue w)))) as [Hfull|Hroom].
  - change (- (10) + 1) with (- Z.of_nat 9).
    rewrite slice_last by lia. reflexivity.
  - replace (length (queue w) - 9)%nat with 0%nat by lia. reflexivity.
Qed.

Lemma enqueue_fields w data :
  isWriting (enqueue w data) = isWriting w /\
  maxQueueSize (enqueue w data) = maxQueueSize w /\
  lastWriteTime (enqueue w data) = lastWriteTime w /\
  throttleMs (enqueue w data) = throttleMs w.
Proof. unfold enqueue, set_queue. cbn. auto. Qed.

Lemma enqueue_length w data :
  maxQueueSize w = 10 -> (length (queue (enqueue w data)) <= 10)%nat.
Proof.
  intros Hmax. rewrite (enqueue_queue w data Hmax), length_app, length_drop.
  cbn [length]. lia.
Qed.

Lemma shiftAndWrite_bounded s : bounded s -> bounded (shiftAndWrite s).
Proof.
  intros [Hmax Hlen]. unfold shiftAndWrite, bounded.
  destruct (queue (writer s)) as [|d rest] eqn:Eq; cbn; rewrite ?Eq; simpl in *; split; auto; lia.
Qed.

Lemma loopHead_bounded s now : bounded s -> bounded (loopHead s now).
Proof.
  intros Hb. pose proof (shiftAndWrite_bounded s Hb) as Hsw.
  destruct Hb as [Hmax Hlen]. unfold loopHead.
  destruct (queue (writer s)) as [|d rest] eqn:Eq.
  - unfold bounded. cbn. rewrite Eq. simpl. split; auto; lia.
  - destruct (negb _); [|exact Hsw].
    unfold bounded. cbn. rewrite Eq. split; auto.
Qed.

Lemma step_bounded s ev : bounded s -> bounded (step s ev).
Proof.
  intros Hb. pose proof Hb as [Hmax Hlen]. destruct ev as [data now| | |now|]; cbn [step].
  - assert (Hb' : bounded (mkSystem (enqueue (writer s) data) (drain s) (sent s))).
    { split; cbn [writer].
      - rewrite (proj1 (proj2 (enqueue_fields _ _))). exact Hmax.
      - apply enqueue_length, Hmax. }
    cbn [writer]. destruct (isWriting (enqueue (writer s) data)); [exact Hb'|].
    unfold processQueue. apply loopHead_bounded.
    destruct Hb' as [H1 H2]. split; cbn in *; assumption.
  - split; cbn; [exact Hmax | lia].
  - destruct (drain s); try exact Hb. apply shiftAndWrite_bounded, Hb.
  - destruct (drain s); try exact Hb. apply loopHead_bounded. split; cbn; assumption.
  - destruct (drain s); exact Hb.
Qed.

Lemma run_bounded s evs : bounded s -> bounded (run s evs).
Proof.
  revert s. induction evs as [|ev evs IH]; intros s Hb; [exact Hb|].
  apply IH, step_bounded, Hb.
Qed.

Lemma init_bounded hz : bounded (init hz).
Proof. split; cbn; [reflexivity | lia]. Qed.

Lemma shiftAndWrite_accepted s : accepted (shiftAndWrite s) = accepted s.
Proof.
  unfold shiftAndWrite, accepted.
  destruct (queue (writer s)) as [|d rest] eqn:Eq; cbn; rewrite ?Eq; [reflexivity|].
  rewrite <- app_assoc. reflexivity.
Qed.

Lemma loopHead_accepted s now : accepted (loopHead s now) = accepted s.
Proof.
  unfold loopHead. destruct (queue (writer s)) as [|d rest] eqn:Eq.
  - unfold accepted. cbn. rewrite Eq. reflexivity.
  - destruct (negb _); [reflexivity | apply shiftAndWrite_accepted].
Qed.

Lemma step_fifo s ev (E : list frame) :
  bounded s -> accepted s `sublist_of` E ->
  accepted (step s ev) `sublist_of` E ++ enqueued [ev].
Proof.
  intros [Hmax Hlen] Hsub. destruct ev as [data now| | |now|]; cbn [step enqueued omap].
  - assert (Hacc : accepted (mkSystem (enqueue (writer s) data) (drain s) (sent s))
                     `sublist_of` E ++ [data]).
    { unfold accepted. cbn [sent writer]. rewrite (enqueue_queue _ data Hmax), app_assoc.
      apply sublist_app; [|reflexivity].
      etrans; [|exact Hsub]. apply sublist_app; [reflexivity | apply sublist_drop]. }
    cbn [writer]. destruct (isWriting (enqueue (writer s) data)); [exact Hacc|].
    unfold processQueue. rewrite loopHead_accepted. exact Hacc.
  - rewrite app_nil_r. etrans; [|exact Hsub].
    unfold accepted. cbn. apply sublist_app; [reflexivity | apply sublist_nil_l].
  - rewrite app_nil_r. destruct (drain s); try exact Hsub.
    rewrite shiftAndWrite_accepted. exact Hsub.
  - rewrite app_nil_r. destruct (drain s); try exact Hsub.
    rewrite loopHead_accepted. exact Hsub.
  - rewrite app_nil_r. destruct (drain s); exact Hsub.
Qed.

Lemma enqueued_app evs1 evs2 : enqueued (evs1 ++ evs2) = enqueued evs1 ++ enqueued evs2.
Proof. unfold enqueued. apply omap_app. Qed.

Lemma run_fifo evs : forall s,
  bounded s -> accepted (run s evs) `sublist_of` accepted s ++ enqueued evs.
Proof.
  induction evs as [|ev evs IH] using rev_ind; intros s Hb.
  - simpl. rewrite app_nil_r. reflexivity.
  - rewrite run_snoc, enqueued_app, app_assoc.
    apply step_fifo; [apply run_bounded, Hb | apply IH, Hb].
Qed.

(** A burst of [write] calls while a drain is under way (or dead) only
    grows the queue, and keeps the last ten frames of what was pending
    followed by what was passed. *)
Lemma burst_queue (fs : list (frame * Z)) : forall s,
  bounded s -> isWriting (writer s) = true ->
  let s' := run s (map (fun d => Call_write d.1 d.2) fs) in
  queue (writer s') =
    drop (length (queue (writer s) ++ map fst fs) - 10) (queue (writer s) ++ map fst fs)
  /\ isWriting (writer s') = true /\ drain s' = drain s /\ sent s' = sent s.
Proof.
  induction fs as [|[d now] fs IH] using rev_ind; intros s Hb Hw; cbn zeta.
  - cbn [map run fold_left]. rewrite app_nil_r.
    destruct Hb as [_ Hlen].
    replace (length (queue (writer s)) - 10)%nat with 0%nat by lia. auto.
  - rewrite !map_app. cbn [map fst snd]. rewrite run_snoc.
    destruct (IH s Hb Hw) as (Hq & Hw' & Hd & Hs).
    pose proof (run_bounded s (map (fun d => Call_write d.1 d.2) fs) Hb) as [Hmax _].
    set (s1 := run s (map (fun d => Call_write d.1 d.2) fs)) in *.
    cbn [step writer].
    rewrite (proj1 (enqueue_fields (writer s1) d)), Hw'. cbn [writer drain sent].
    rewrite (proj1 (enqueue_fields (writer s1) d)), Hw'.
    split; [|auto].
    rewrite (enqueue_queue _ d Hmax), Hq.
    set (l := queue (writer s) ++ map fst fs).
    rewrite app_assoc. fold l. rewrite length_drop, length_app. cbn [length].
    rewrite drop_drop.
    destruct (le_lt_dec (length l) 9) as [Hs9|Hl9].
    + replace (length l - 10 + (length l - (length l - 10) - 9))%nat with 0%nat by lia.
      replace (length l + 1 - 10)%nat with 0%nat by lia. reflexivity.
    + replace (length l - 10 + (length l - (length l - 10) - 9))%nat
        with (length l + 1 - 10)%nat by lia.
      rewrite drop_app_le by lia. reflexivity.
Qed.

(** C6. Whatever happens to a writer, its queue never holds more than
    ten entries. A [write] that finds the queue at capacity drops the
    oldest entry, so that the nine most recent pending frames and the new
    one remain, in their order; after any burst of writes during a drain
    the queue holds the last ten of the frames that were pending or
    passed, in order. The frames handed to the transport, followed by the
    pending ones, are a subsequence of the frames passed to [write], in
    call order: what is not dropped goes out first in, first out. *)
Theorem queue_bounded_fifo (hz : Z) (evs : list Event) :
  let s := run (init hz) evs in
  (length (queue (writer s)) <= 10)%nat /\
  (forall data, length (queue (writer s)) = 10%nat ->
     queue (enqueue (writer s) data) = drop 1 (queue (writer s)) ++ [data] /\
     length (queue (enqueue (writer s) data)) = 10%nat) /\
  (forall fs, isWriting (writer s) = true ->
     queue (writer (run s (map (fun d => Call_write d.1 d.2) fs))) =
       drop (length (queue (writer s) ++ map fst fs) - 10)
         (queue (writer s) ++ map fst fs)) /\
  sent s ++ queue (writer s) `sublist_of` enqueued evs.
Proof.
  cbn zeta. pose proof (run_bounded (init hz) evs (init_bounded hz)) as Hb.
  split; [exact (proj2 Hb)|]. split; [|split].
  - intros data Hfull. rewrite (enqueue_queue _ data (proj1 Hb)), Hfull.
    split; [reflexivity|].
    rewrite length_app, length_drop, Hfull. reflexivity.
  - intros fs Hw. exact (proj1 (burst_queue fs _ Hb Hw)).
  - exact (run_fifo evs (init hz) (init_bounded hz)).
Qed.

Lemma queue_bounded_fifo_witness :
  length (queue (writer (run (init 100) ten_writes))) = 10%nat /\
  queue (enqueue (writer (run (init 100) ten_writes)) [11]) =
    [[2]; [3]; [4]; [5]; [6]; [7]; [8]; [9]; [10]; [11]].
Proof.
  split; [reflexivity|].
  exact (proj1 (proj1 (proj2 (queue_bounded_fifo 100 ten_writes)) [11] eq_refl)).
Defined.

Lemma shiftAndWrite_flagged s :
  isWriting (writer s) = true -> flagged (shiftAndWrite s).
Proof.
  intros Hw. unfold shiftAndWrite, flagged.
  destruct (queue (writer s)); cbn; [congruence | auto].
Qed.

Lemma loopHead_flagged s now :
  isWriting (writer s) = true -> flagged (loopHead s now).
Proof.
  intros Hw. unfold loopHead.
  destruct (queue (writer s)); [unfold flagged; cbn; congruence|].
  destruct (negb _); [unfold flagged; cbn; auto | apply shiftAndWrite_flagged, Hw].
Qed.

Lemma step_flagged s ev : flagged s -> flagged (step s ev).
Proof.
  intros Hf. destruct ev as [data now| | |now|]; cbn [step].
  - cbn [writer]. destruct (isWriting (enqueue (writer s) data)) eqn:Ew.
    + unfold flagged. cbn. auto.
    + apply loopHead_flagged. reflexivity.
  - unfold flagged in *. cbn. exact Hf.
  - destruct (drain s) eqn:Ed; try exact Hf.
    apply shiftAndWrite_flagged, Hf. congruence.
  - destruct (drain s) eqn:Ed; try exact Hf.
    apply loopHead_flagged. cbn. apply Hf. congruence.
  - destruct (drain s) eqn:Ed; try exact Hf. unfold flagged. cbn. congruence.
Qed.

Lemma run_flagged s evs : flagged s -> flagged (run s evs).
Proof.
  revert s. induction evs as [|ev evs IH]; intros s Hf; [exact Hf|].
  apply IH, step_flagged, Hf.
Qed.

Lemma step_dead s ev :
  dead s -> dead (step s ev) /\ sent (step s ev) = sent s.
Proof.
  intros [Hw Hd]. destruct ev as [data now| | |now|]; cbn [step]; rewrite ?Hd.
  - cbn [writer]. rewrite (proj1 (enqueue_fields (writer s) data)), Hw.
    split; [|reflexivity]. split; [|reflexivity].
    cbn [writer]. rewrite (proj1 (enqueue_fields (writer s) data)). exact Hw.
  - split; [split; [exact Hw | reflexivity] | reflexivity].
  - split; [split; assumption | reflexivity].
  - split; [split; assumption | reflexivity].
  - split; [split; assumption | reflexivity].
Qed.

Lemma run_dead evs : forall s,
  dead s -> dead (run s evs) /\ sent (run s evs) = sent s.
Proof.
  induction evs as [|ev evs IH]; intros s Hd; [split; [exact Hd | reflexivity]|].
  destruct (step_dead s ev Hd) as [Hd1 Hs1].
  destruct (IH _ Hd1) as [Hd2 Hs2].
  change (run s (ev :: evs)) with (run (step s ev) evs).
  split; [exact Hd2 | congruence].
Qed.

(** C9. Once a transport write of the drain fails, [processQueue] is
    gone with [isWriting] still true. From then on, whatever happens, the
    flag stays true, no drain exists and nothing more is handed to the
    transport; every [write] only appends to the queue, under the capacity
    bound; [clearQueue] empties the queue and leaves the flag set. *)
Theorem failed_write_stops_drain (hz : Z) (pre post : list Event) (data : frame) :
  let s := run (init hz) pre in
  drain s = InFlight data ->
  let s1 := step s Failed in
  let s2 := run s1 post in
  (isWriting (writer s1) = true /\ drain s1 = NoDrain /\ sent s1 = sent s) /\
  (isWriting (writer s2) = true /\ drain s2 = NoDrain /\ sent s2 = sent s) /\
  (length (queue (writer s2)) <= 10)%nat /\
  (forall d now,
     step s2 (Call_write d now) = mkSystem (enqueue (writer s2) d) NoDrain (sent s) /\
     queue (enqueue (writer s2) d) =
       drop (length (queue (writer s2)) - 9) (queue (writer s2)) ++ [d]) /\
  (queue (writer (step s2 Call_clearQueue)) = [] /\
   isWriting (writer (step s2 Call_clearQueue)) = true /\
   drain (step s2 Call_clearQueue) = NoDrain).
Proof.
  cbn zeta. intros Hfl.
  set (s := run (init hz) pre) in *.
  assert (Hflag : flagged s).
  { apply run_flagged. unfold flagged. cbn. congruence. }
  assert (Hb : bounded s) by apply run_bounded, init_bounded.
  assert (Hw : isWriting (writer s) = true) by (apply Hflag; congruence).
  assert (E1 : step s Failed = mkSystem (writer s) NoDrain (sent s))
    by (cbn [step]; rewrite Hfl; reflexivity).
  rewrite E1.
  assert (Hd1 : dead (mkSystem (writer s) NoDrain (sent s))) by (split; [exact Hw | reflexivity]).
  destruct (run_dead post _ Hd1) as [[Hw2 Hd2] Hs2].
  assert (Hb2 : bounded (run (mkSystem (writer s) NoDrain (sent s)) post)).
  { apply run_bounded. exact Hb. }
  set (s2 := run (mkSystem (writer s) NoDrain (sent s)) post) in *.
  cbn [sent] in Hs2.
  split; [auto|]. split; [auto|]. split; [exact (proj2 Hb2)|]. split.
  - intros d now. split; [|apply enqueue_queue, Hb2].
    cbn [step writer]. rewrite (proj1 (enqueue_fields (writer s2) d)), Hw2, Hd2, Hs2.
    reflexivity.
  - cbn. auto.
Qed.

Lemma failed_write_stops_drain_witness :
  drain (run (init 100) failing_trace) = InFlight [1] /\
  sent (run (step (run (init 100) failing_trace) Failed)
          [Call_write [3] 60; Wake; Written 70; Call_clearQueue; Call_write [4] 80])
    = [[1]].
Proof.
  split; [reflexivity|].
  exact (proj2 (proj2 (proj1 (proj2
    (failed_write_stops_drain 100 failing_trace
       [Call_write [3] 60; Wake; Written 70; Call_clearQueue; Call_write [4] 80]
       [1] eq_refl))))).
Defined.

(** ** The CDN manifest resolver *)

Lemma failed_attempt_throws o e : failed_attempt o e -> attempt o = Thrown e.
Proof.
  intros H. destruct H as [r|st tx body|st tx r|st tx v Hv|st tx v Ht Ho Hf];
    cbn [attempt negb]; try reflexivity; unfold validateManifest.
  - destruct Hv as [-> | ->]; cbn [negb orb]; [reflexivity|].
    rewrite orb_true_r. reflexivity.
  - rewrite Ht, Ho. cbn [negb orb].
    destruct Hf as [-> | [-> | ->]]; cbn [negb orb]; rewrite ?orb_true_r; reflexivity.
Qed.

Lemma retry_effects_counts u delay n :
  length (List.filter is_fetch (retry_effects u delay (S n))) = S n /\
  List.filter (fun ef => negb (is_fetch ef)) (retry_effects u delay (S n))
    = replicate n (Slept delay) /\
  last (retry_effects u delay (S n)) = Some (Fetched u).
Proof.
  induction n as [|n (IH1 & IH2 & IH3)]; [cbn; auto|].
  change (retry_effects u delay (S (S n)))
    with (Fetched u :: Slept delay :: retry_effects u delay (S n)).
  cbn [List.filter is_fetch negb length replicate]. rewrite IH1, IH2.
  split; [reflexivity|]. split; [reflexivity|].
  rewrite !last_cons, IH3. reflexivity.
Qed.

Lemma retryLoop_all_fail n : forall attempt_no l w,
  attempt_no + Z.of_nat n = retryAttempts l ->
  (forall i, (i <= n)%nat -> exists e, failed_attempt (network w (fetches w + i)) e) ->
  exists e, failed_attempt (network w (fetches w + n)) e /\
    retryLoop (S n) attempt_no l w =
      (Thrown (LoadFailedAfter (retryAttempts l) e), l, world_after l w n).
Proof.
  induction n as [|n IH]; intros attempt_no l w HN Hfail.
  - destruct (Hfail 0%nat ltac:(lia)) as [e He]. exists e. split; [exact He|].
    rewrite Nat.add_0_r in He.
    cbn [retryLoop]. unfold CDN.bind, this, do_fetch, fetch, throw.
    rewrite (failed_attempt_throws _ _ He).
    destruct (Z.ltb_spec attempt_no (retryAttempts l)); [lia|].
    unfold world_after. cbn [retry_effects]. do 2 f_equal; lia.
  - destruct (Hfail 0%nat ltac:(lia)) as [e0 He0]. rewrite Nat.add_0_r in He0.
    set (w2 := sleep (retryDelay l)
                 (mkWorld (now w) (network w) (S (fetches w))
                    (effects w ++ [Fetched (manifestUrl l)]))).
    destruct (IH (attempt_no + 1) l w2) as (e & He & Hrun).
    { lia. }
    { intros i Hi. unfold w2. cbn [network fetches sleep].
      replace (S (fetches w) + i)%nat with (fetches w + S i)%nat by lia.
      apply Hfail. lia. }
    exists e. split.
    { unfold w2 in He. cbn [network fetches sleep] in He.
      replace (fetches w + S n)%nat with (S (fetches w) + n)%nat by lia. exact He. }
    change (retryLoop (S (S n)) attempt_no l w)
      with ((do self <- this;
             do response <- do_fetch (manifestUrl self);
             match attempt response with
             | Returned manifest =>
                 do timestamp <- Date_now;
                 do _ <- update (fun l => set_manifest l manifest timestamp);
                 ret manifest
             | OutsideTypes => outside
             | Thrown error =>
                 if attempt_no <? retryAttempts self
                 then do _ <- do_sleep (retryDelay self);
                      retryLoop (S n) (attempt_no + 1)
                 else throw (LoadFailedAfter (retryAttempts self) error)
             end) l w).
    unfold CDN.bind at 1 2. unfold this, do_fetch, fetch.
    rewrite (failed_attempt_throws _ _ He0).
    destruct (Z.ltb_spec attempt_no (retryAttempts l)); [|lia].
    unfold CDN.bind, do_sleep. fold w2. rewrite Hrun.
    unfold world_after, w2. cbn [now network fetches effects sleep].
    f_equal. f_equal; [lia | lia |].
    rewrite <- !app_assoc. reflexivity.
Qed.

(** C7. With no fresh cached manifest and every one of the
    [retryAttempts] attempts failing (the fetch rejects, the status is
    not a success, or the body is not a document with [version],
    [generated] and an array of [assets]), [loadManifest] fetches exactly
    [retryAttempts] times, sleeps [retryDelay] between two attempts and
    not after the last, and throws the load failure that carries the
    error of the last attempt; an invalid document is retried like any
    other failure. The loader itself is left as it was. *)
Theorem loadManifest_exhausts_retries (l : CDNAssetLoader) (w : World) (n : nat) :
  fresh_manifest l w = None ->
  retryAttempts l = Z.of_nat (S n) ->
  (forall i, (i <= n)%nat -> exists e, failed_attempt (network w (fetches w + i)) e) ->
  exists e,
    failed_attempt (network w (fetches w + n)) e /\
    loadManifest l w =
      (Thrown (LoadFailedAfter (retryAttempts l) e), l,
       mkWorld (now w + Z.of_nat n * retryDelay l) (network w) (fetches w + S n)
         (effects w ++ retry_effects (manifestUrl l) (retryDelay l) (S n))) /\
    length (List.filter is_fetch (retry_effects (manifestUrl l) (retryDelay l) (S n)))
      = Z.to_nat (retryAttempts l) /\
    List.filter (fun ef => negb (is_fetch ef))
      (retry_effects (manifestUrl l) (retryDelay l) (S n))
      = replicate n (Slept (retryDelay l)) /\
    last (retry_effects (manifestUrl l) (retryDelay l) (S n))
      = Some (Fetched (manifestUrl l)).
Proof.
  intros Hfresh HN Hfail.
  destruct (retryLoop_all_fail n 1 l w ltac:(lia) Hfail) as (e & He & Hrun).
  exists e. split; [exact He|].
  destruct (retry_effects_counts (manifestUrl l) (retryDelay l) n) as (H1 & H2 & H3).
  split; [|split; [rewrite H1; lia | split; assumption]].
  unfold loadManifest. rewrite Hfresh, HN, Nat2Z.id. rewrite <- HN. exact Hrun.
Qed.

(** With no attempt allowed the loop body never runs and the method ends
    in its final [throw]. *)
Lemma loadManifest_no_attempts l w :
  fresh_manifest l w = None -> retryAttempts l <= 0 ->
  loadManifest l w = (Thrown LoadFailed, l, w).
Proof.
  intros Hfresh HN. unfold loadManifest. rewrite Hfresh.
  replace (Z.to_nat (retryAttempts l)) with 0%nat by lia. reflexivity.
Qed.

Lemma loadManifest_exhausts_retries_witness :
  loadManifest test_loader (mkWorld 0 failing_network 0 []) =
    (Thrown (LoadFailedAfter 3 InvalidManifestMissingFields), test_loader,
     mkWorld 2000 failing_network 3
       [Fetched "https://assets.openarm.dev/manifest.json"; Slept 1000;
        Fetched "https://assets.openarm.dev/manifest.json"; Slept 1000;
        Fetched "https://assets.openarm.dev/manifest.json"]).
Proof.
  destruct (loadManifest_exhausts_retries test_loader (mkWorld 0 failing_network 0 []) 2)
    as (e & He & Hrun & _).
  - reflexivity.
  - reflexivity.
  - intros [|[|[|i]]] Hi; cbn [network fetches failing_network Nat.add]; [| | |lia].
    + eexists. apply fail_network.
    + eexists. apply fail_status.
    + eexists. apply fail_fields; [reflexivity | reflexivity | right; left; reflexivity].
  - cbn [network fetches failing_network Nat.add] in He.
    inversion He; subst; [|exact Hrun].
    match goal with H : _ \/ _ |- _ => destruct H; discriminate end.
Defined.

Lemma append_nonempty (s1 s2 : string) : s2 <> "" -> s1 +:+ s2 <> "".
Proof. destruct s1; simpl; [auto | discriminate]. Qed.

Lemma or_else_nonempty (s : option string) (fallback : string) :
  fallback <> "" -> or_else s fallback <> "".
Proof.
  intros Hf. unfold or_else. destruct s as [s|]; [|exact Hf].
  destruct (String.eqb_spec s ""); [exact Hf | assumption].
Qed.

Lemma resolved_url_nonempty l a : resolved_url l a <> "".
Proof.
  apply or_else_nonempty. unfold constructAssetUrl.
  destruct (String.eqb _ _); apply append_nonempty; discriminate.
Qed.

Lemma cached_url_hit l name u :
  cache_ok l -> assetUrlCache l !! name = Some u -> cached_url l name = Some u.
Proof.
  intros Hok Hu. unfold cached_url. rewrite Hu.
  destruct (String.eqb_spec u ""); [exfalso; exact (Hok name u Hu e) | reflexivity].
Qed.

Lemma cached_url_miss l name :
  assetUrlCache l !! name = None -> cached_url l name = None.
Proof. intros H. unfold cached_url. rewrite H. reflexivity. Qed.

(** [find] takes the first entry that matches. *)
Lemma find_first {A} (p : A -> bool) (pre : list A) (a : A) (post : list A) :
  Forall (fun x => p x = false) pre -> p a = true ->
  List.find p (pre ++ a :: post) = Some a.
Proof.
  intros Hpre Ha. induction Hpre as [|x pre Hx _ IH]; simpl.
  - rewrite Ha. reflexivity.
  - rewrite Hx. exact IH.
Qed.

Lemma find_nothing {A} (p : A -> bool) (l : list A) :
  Forall (fun x => p x = false) l -> List.find p l = None.
Proof.
  intros H. induction H as [|x l Hx _ IH]; simpl; [reflexivity|].
  rewrite Hx. exact IH.
Qed.

Lemma getAssetUrl_miss_held l w name m :
  cached_url l name = None -> manifest l = Some m ->
  getAssetUrl name l w = search_result name l w.
Proof.
  intros Hc Hm. unfold getAssetUrl, CDN.bind at 1. unfold this at 1. rewrite Hc.
  unfold CDN.bind at 1. unfold loadIfMissing, CDN.bind at 1. unfold this at 1.
  rewrite Hm. unfold ret at 1. unfold CDN.bind at 1. unfold this at 1.
  unfold search_result.
  destruct (findAsset l _) as [a|]; [|reflexivity].
  unfold CDN.bind, update, ret. reflexivity.
Qed.

Lemma getAssetUrl_miss_load l w name :
  cached_url l name = None -> manifest l = None ->
  getAssetUrl name l w =
    match loadManifest l w with
    | (Returned _, l1, w1) => search_result name l1 w1
    | (Thrown e, l1, w1) => (Thrown e, l1, w1)
    | (OutsideTypes, l1, w1) => (OutsideTypes, l1, w1)
    end.
Proof.
  intros Hc Hm. unfold getAssetUrl, CDN.bind at 1. unfold this at 1. rewrite Hc.
  unfold CDN.bind at 1. unfold loadIfMissing, CDN.bind at 1. unfold this at 1.
  rewrite Hm. unfold CDN.bind at 1.
  destruct (loadManifest l w) as [[[m1|e|] l1] w1]; try reflexivity.
  unfold ret at 1. unfold CDN.bind at 1. unfold this at 1.
  unfold search_result.
  destruct (findAsset l1 _) as [a|]; [|reflexivity].
  unfold CDN.bind, update, ret. reflexivity.
Qed.

(** C8. [getAssetUrl name] returns the cached URL of [name], touching
    nothing, when there is one. Otherwise it loads the manifest only if
    none is held (a failure of the load is the failure of the call), takes
    the first entry whose [original] is [name], throws the asset-not-found
    error naming [name] when there is none, and else returns the entry's
    own URL when it has one (a non-empty one), [publicUrl/processed] for
    an entry of type 'application/xml' and [publicUrl/assets/processed]
    for any other type; that URL is in the cache under [name] when the
    call returns. *)
Theorem getAssetUrl_resolves (l : CDNAssetLoader) (w : World) (name : string) :
  cache_ok l ->
  (forall u, assetUrlCache l !! name = Some u ->
     getAssetUrl name l w = (Returned u, l, w)) /\
  (assetUrlCache l !! name = None ->
     (forall m, manifest l = Some m ->
        getAssetUrl name l w = search_result name l w) /\
     (manifest l = None ->
        getAssetUrl name l w =
          match loadManifest l w with
          | (Returned _, l1, w1) => search_result name l1 w1
          | (Thrown e, l1, w1) => (Thrown e, l1, w1)
          | (OutsideTypes, l1, w1) => (OutsideTypes, l1, w1)
          end)) /\
  (forall l1 w1 m, manifest l1 = Some m ->
     (forall pre a post,
        assets m = pre ++ a :: post ->
        Forall (fun x => original x <> name) pre -> original a = name ->
        search_result name l1 w1 =
          (Returned (resolved_url l1 a), set_assetUrl l1 name (resolved_url l1 a), w1)
        /\ assetUrlCache (set_assetUrl l1 name (resolved_url l1 a)) !! name
           = Some (resolved_url l1 a)) /\
     (Forall (fun x => original x <> name) (assets m) ->
        search_result name l1 w1 = (Thrown (AssetNotFound name), l1, w1))) /\
  (forall l1 a,
     (forall u, url a = Some u -> u <> "" -> resolved_url l1 a = u) /\
     (url a = None \/ url a = Some "" ->
        (type_ a = "application/xml" ->
           resolved_url l1 a = publicUrl l1 +:+ "/" +:+ processed a) /\
        (type_ a <> "application/xml" ->
           resolved_url l1 a = publicUrl l1 +:+ "/assets/" +:+ processed a))).
Proof.
  intros Hok. split; [|split; [|split]].
  - intros u Hu. unfold getAssetUrl, CDN.bind, this.
    rewrite (cached_url_hit l name u Hok Hu). reflexivity.
  - intros Hmiss. apply cached_url_miss in Hmiss. split.
    + intros m Hm. exact (getAssetUrl_miss_held l w name m Hmiss Hm).
    + intros Hm. exact (getAssetUrl_miss_load l w name Hmiss Hm).
  - intros l1 w1 m Hm. unfold search_result, findAsset. rewrite Hm. cbn [mbind option_bind].
    split.
    + intros pre a post Hassets Hpre Ha. rewrite Hassets, find_first.
      * split; [reflexivity|]. cbn [set_assetUrl assetUrlCache]. apply lookup_insert_eq.
      * eapply Forall_impl; [exact Hpre|]. intros x Hx. cbv beta in Hx.
        destruct (String.eqb_spec (original x) name); [contradiction | reflexivity].
      * apply String.eqb_eq, Ha.
    + intros Hall. rewrite find_nothing; [reflexivity|].
      eapply Forall_impl; [exact Hall|]. intros x Hx. cbv beta in Hx.
      destruct (String.eqb_spec (original x) name); [contradiction | reflexivity].
  - intros l1 a. unfold resolved_url, or_else, constructAssetUrl. split.
    + intros u -> Hu. destruct (String.eqb_spec u ""); [contradiction | reflexivity].
    + intros Hurl. assert (Hfb : forall fb, match url a with
                                          | Some s => if String.eqb s "" then fb else s
                                          | None => fb
                                          end = fb).
      { intros fb. destruct Hurl as [-> | ->]; reflexivity. }
      rewrite Hfb. split; intros Ht.
      * rewrite Ht. reflexivity.
      * destruct (String.eqb_spec (type_ a) "application/xml"); [contradiction | reflexivity].
Qed.

Lemma cache_ok_empty l : assetUrlCache l = ∅ -> cache_ok l.
Proof. intros E k v. rewrite E, lookup_empty. discriminate. Qed.

Lemma getAssetUrl_resolves_witness :
  getAssetUrl "base.stl" loaded_loader (mkWorld 0 failing_network 0 []) =
    (Returned "https://assets.openarm.dev/assets/base.9f3c.stl",
     set_assetUrl loaded_loader "base.stl" "https://assets.openarm.dev/assets/base.9f3c.stl",
     mkWorld 0 failing_network 0 []).
Proof.
  destruct (getAssetUrl_resolves loaded_loader (mkWorld 0 failing_network 0 []) "base.stl"
              (cache_ok_empty loaded_loader eq_refl)) as (_ & Hmiss & Hsearch & _).
  rewrite (proj1 (Hmiss (lookup_empty _)) test_manifest eq_refl).
  destruct (Hsearch loaded_loader (mkWorld 0 failing_network 0 []) test_manifest eq_refl)
    as [Hfound _].
  destruct (Hfound [urdf_asset] base_asset [arm_asset; base_duplicate] eq_refl) as [E _].
  - apply Forall_cons_2; [discriminate | apply Forall_nil_2].
  - reflexivity.
  - exact E.
Defined.

Example getAssetUrl_loads_then_resolves :
  let '(r, l, w) := getAssetUrl "robot.urdf" test_loader (mkWorld 5 recovering_network 0 []) in
  r = Returned "https://assets.openarm.dev/robot.1a2b.urdf" /\
  effects w = [Fetched "https://assets.openarm.dev/manifest.json"; Slept 1000;
               Fetched "https://assets.openarm.dev/manifest.json"] /\
  assetUrlCache l !! "robot.urdf" = Some "https://assets.openarm.dev/robot.1a2b.urdf" /\
  fresh_manifest l w <> None.
Proof. vm_compute. repeat split; discriminate. Qed.

Example getAssetUrl_not_found :
  fst (fst (getAssetUrl "gripper.stl" loaded_loader (mkWorld 0 failing_network 0 [])))
    = Thrown (AssetNotFound "gripper.stl").
Proof. vm_compute. reflexivity. Qed.

(** *** Only non-empty URLs are ever cached *)

Lemma cache_ok_set l name u : cache_ok l -> u <> "" -> cache_ok (set_assetUrl l name u).
Proof.
  intros Hok Hu k v. cbn [set_assetUrl assetUrlCache].
  destruct (decide (name = k)) as [->|Hne].
  - rewrite lookup_insert_eq. intros [= <-]. exact Hu.
  - rewrite lookup_insert_ne by exact Hne. apply Hok.
Qed.

Lemma retryLoop_assetUrlCache n : forall attempt_no l w,
  assetUrlCache (retryLoop n attempt_no l w).1.2 = assetUrlCache l.
Proof.
  induction n as [|n IH]; intros attempt_no l w; [reflexivity|].
  cbn [retryLoop]. unfold CDN.bind at 1 2. unfold this, do_fetch, fetch.
  destruct (attempt _) as [m|e|]; [reflexivity | | reflexivity].
  destruct (attempt_no <? retryAttempts l); [|reflexivity].
  unfold CDN.bind, do_sleep.
  specialize (IH (attempt_no + 1) l
                (sleep (retryDelay l)
                   (mkWorld (now w) (network w) (S (fetches w))
                      (effects w ++ [Fetched (manifestUrl l)])))).
  destruct (retryLoop n _ _ _) as [[[m1|e1|] l1] w1]; exact IH.
Qed.

Lemma loadManifest_assetUrlCache l w :
  assetUrlCache (loadManifest l w).1.2 = assetUrlCache l.
Proof.
  unfold loadManifest. destruct (fresh_manifest l w); [reflexivity|].
  apply retryLoop_assetUrlCache.
Qed.

Lemma loadIfMissing_cache_ok l w : cache_ok l -> cache_ok (loadIfMissing l w).1.2.
Proof.
  intros Hok. unfold loadIfMissing, CDN.bind at 1. unfold this.
  destruct (manifest l); [exact Hok|].
  unfold CDN.bind. pose proof (loadManifest_assetUrlCache l w) as E.
  destruct (loadManifest l w) as [[[m1|e1|] l1] w1]; unfold ret; cbn [fst snd] in *;
    intros k v; rewrite E; apply Hok.
Qed.

Ltac resolver_cache_ok Hok :=
  let Hok1 := fresh "Hok1" in
  unfold CDN.bind at 1; unfold this at 1;
  match goal with |- context [cached_url ?l ?n] => destruct (cached_url l n) end;
  [exact Hok|];
  unfold CDN.bind at 1;
  match goal with
  | |- context [loadIfMissing ?l ?w] =>
      pose proof (loadIfMissing_cache_ok l w Hok) as Hok1;
      destruct (loadIfMissing l w) as [[[[]|?|] ?] ?]; cbn [fst snd] in *;
      try exact Hok1
  end;
  unfold CDN.bind at 1; unfold this at 1;
  match goal with |- context [findAsset ?l ?p] => destruct (findAsset l p) end;
  [|exact Hok1];
  unfold CDN.bind, update, ret; cbn [fst snd];
  apply cache_ok_set; [exact Hok1|].

Lemma cache_ok_preserved l w name :
  cache_ok l ->
  cache_ok (getAssetUrl name l w).1.2 /\
  cache_ok (getAssetUrlByProcessed name l w).1.2 /\
  cache_ok (getUrdfUrl name l w).1.2 /\
  cache_ok (loadManifest l w).1.2 /\
  cache_ok (clearCache l) /\
  cache_ok (CDN.new (manifestUrl l) (publicUrl l) (cacheTimeout l) (retryAttempts l)
              (retryDelay l)).
Proof.
  intros Hok. repeat split.
  - unfold getAssetUrl. resolver_cache_ok Hok. apply resolved_url_nonempty.
  - unfold getAssetUrlByProcessed. resolver_cache_ok Hok. apply resolved_url_nonempty.
  - unfold getUrdfUrl. destruct (cached_url l name); [exact Hok|].
    pose proof (loadIfMissing_cache_ok l w Hok) as Hok1.
    destruct (loadIfMissing l w) as [[[[]|e1|] l1] w1]; cbn [fst snd] in *;
      try exact Hok1.
    destruct (findAsset l1 _); [|exact Hok1]. cbn [fst snd].
    apply cache_ok_set; [exact Hok1|].
    apply or_else_nonempty, append_nonempty; discriminate.
  - intros k v. rewrite loadManifest_assetUrlCache. apply Hok.
  - apply cache_ok_empty. reflexivity.
  - apply cache_ok_empty. reflexivity.
Qed.

(** * Further properties *)

(** ** Checksum *)

Lemma xor_loop_acc (acc : Z) (data : list Z) :
  xor_loop acc data = Z.lxor acc (xor_loop 0 data).
Proof.
  revert acc. induction data as [|d data IH]; intros acc; cbn [xor_loop].
  - rewrite Z.lxor_0_r. reflexivity.
  - rewrite (IH (Z.lxor acc d)), (IH (Z.lxor 0 d)), Z.lxor_0_l, Z.lxor_assoc.
    reflexivity.
Qed.

Lemma xor_loop_app (a b : list Z) :
  xor_loop 0 (a ++ b) = Z.lxor (xor_loop 0 a) (xor_loop 0 b).
Proof.
  induction a as [|d a IH]; cbn [xor_loop app]; [reflexivity|].
  rewrite (xor_loop_acc (Z.lxor 0 d) (a ++ b)), (xor_loop_acc (Z.lxor 0 d) a), IH.
  symmetry. apply Z.lxor_assoc.
Qed.

Lemma land_lxor_distr (a b c : Z) :
  Z.land (Z.lxor a b) c = Z.lxor (Z.land a c) (Z.land b c).
Proof.
  apply Z.bits_inj'. intros n Hn.
  rewrite Z.land_spec, !Z.lxor_spec, !Z.land_spec.
  destruct (Z.testbit a n), (Z.testbit b n), (Z.testbit c n); reflexivity.
Qed.

Lemma calculateChecksum_app (a b : list Z) :
  calculateChecksum (a ++ b) = Z.lxor (calculateChecksum a) (calculateChecksum b).
Proof.
  unfold calculateChecksum. rewrite xor_loop_app. apply land_lxor_distr.
Qed.

Lemma lxor_cancel_l (a b c : Z) : Z.lxor a b = Z.lxor a c -> b = c.
Proof.
  intros E. apply (f_equal (Z.lxor a)) in E.
  rewrite <- !Z.lxor_assoc, Z.lxor_nilpotent, !Z.lxor_0_l in E. exact E.
Qed.

Lemma calculateChecksum_single (x : Z) : is_byte x -> calculateChecksum [x] = x.
Proof.
  intros Hx. unfold calculateChecksum. simpl. change 255 with (Z.ones 8).
  rewrite Z.land_ones by lia. apply Z.mod_small. exact Hx.
Qed.

(** X1. The checksum is additive: the checksum of a concatenation is the
    XOR of the checksums, that of no bytes is 0, and a sequence followed
    by its own checksum folds to 0. *)
Theorem calculateChecksum_additive (a b : list Z) :
  calculateChecksum (a ++ b) = Z.lxor (calculateChecksum a) (calculateChecksum b) /\
  calculateChecksum [] = 0 /\
  calculateChecksum (a ++ [calculateChecksum a]) = 0.
Proof.
  split; [apply calculateChecksum_app|]. split; [reflexivity|].
  rewrite calculateChecksum_app.
  rewrite (calculateChecksum_single _ (calculateChecksum_byte a)).
  apply Z.lxor_nilpotent.
Qed.

(** X2. A change of one byte is always seen: the checksum of the
    original does not verify the data with one byte replaced by another. *)
Theorem verifyChecksum_detects_one_byte (pre post : list Z) (x y : Z) :
  is_byte x -> is_byte y -> x <> y ->
  verifyChecksum (pre ++ y :: post) (calculateChecksum (pre ++ x :: post)) = false.
Proof.
  intros Hx Hy Hne. unfold verifyChecksum. apply Z.eqb_neq. intros E.
  change (y :: post) with ([y] ++ post) in E. change (x :: post) with ([x] ++ post) in E.
  rewrite !calculateChecksum_app in E.
  rewrite (calculateChecksum_single x Hx), (calculateChecksum_single y Hy) in E.
  apply lxor_cancel_l in E. rewrite !(Z.lxor_comm _ (calculateChecksum post)) in E.
  apply lxor_cancel_l in E. congruence.
Qed.

Lemma verifyChecksum_detects_one_byte_witness :
  verifyChecksum ([1; 2] ++ 7 :: [4]) (calculateChecksum ([1; 2] ++ 3 :: [4])) = false.
Proof.
  apply verifyChecksum_detects_one_byte; unfold is_byte; lia.
Defined.

(** X3. The checksum does not see the order of the bytes: a reordering
    of the data verifies against the checksum of the original. *)
Theorem verifyChecksum_blind_to_order (l l' : list Z) :
  l ≡ₚ l' -> verifyChecksum l' (calculateChecksum l) = true.
Proof.
  intros Hp. unfold verifyChecksum. apply Z.eqb_eq.
  induction Hp as [|x l l' _ IH|x y l|l l' l'' _ IH1 _ IH2].
  - reflexivity.
  - change (x :: l) with ([x] ++ l). change (x :: l') with ([x] ++ l').
    rewrite !calculateChecksum_app, IH. reflexivity.
  - change (y :: x :: l) with ([y] ++ [x] ++ l).
    change (x :: y :: l) with ([x] ++ [y] ++ l).
    rewrite !calculateChecksum_app, <- !Z.lxor_assoc.
    rewrite (Z.lxor_comm (calculateChecksum [y])). reflexivity.
  - congruence.
Qed.

Lemma verifyChecksum_blind_to_order_witness :
  verifyChecksum [3; 1; 2] (calculateChecksum [1; 2; 3]) = true.
Proof.
  apply verifyChecksum_blind_to_order. symmetry.
  apply (Permutation_cons_app (l:=[1; 2]) [1; 2] [] 3). reflexivity.
Defined.

(** ** Packet codec *)

Lemma raw_frame_rd cmd payload ck extra :
  let b := raw_frame cmd payload ck ++ extra in
  rd b 0 = 0xAA /\ rd b 1 = 0x55 /\ rd b 2 = Z.of_nat (length payload) /\
  rd b 3 = cmd /\ rd b (4 + length payload) = ck /\
  take (length payload) (drop 4 b) = payload.
Proof.
  cbn zeta. unfold raw_frame. rewrite <- !app_assoc.
  cbn [app rd lookup list_lookup default from_option id].
  repeat (split; [reflexivity|]).
  change (170 :: 85 :: Z.of_nat (length payload) :: cmd :: payload ++ ck :: extra)
    with ([170; 85; Z.of_nat (length payload); cmd] ++ payload ++ ck :: extra).
  split.
  - unfold rd. rewrite lookup_app_r by (simpl; lia). cbn [length].
    rewrite lookup_app_r by lia.
    replace (4 + length payload - 4 - length payload)%nat with 0%nat by lia.
    reflexivity.
  - rewrite (drop_app_length' [170; 85; Z.of_nat (length payload); cmd]) by reflexivity.
    apply take_app_length.
Qed.

Lemma parsePacket_frame_app cmd payload ck (extra : list Z) :
  is_byte cmd -> bytes_ok payload -> is_byte ck -> (length payload <= 255)%nat ->
  bytes_ok extra ->
  parsePacket (raw_frame cmd payload ck ++ extra) = Ok (frame_packet cmd payload ck).
Proof.
  intros Hc Hp Hk Hlen He.
  assert (Hb : bytes_ok (raw_frame cmd payload ck ++ extra)).
  { unfold raw_frame. repeat (apply Forall_app; split); try assumption; solve_bytes. }
  rewrite (parsePacket_cases _ Hb).
  destruct (raw_frame_rd cmd payload ck extra) as (-> & -> & -> & -> & H4 & H5).
  rewrite Nat2Z.id, H4, H5.
  assert (Hl : length (raw_frame cmd payload ck ++ extra)
               = (4 + length payload + 1 + length extra)%nat).
  { unfold raw_frame. rewrite !length_app. simpl. lia. }
  rewrite Hl.
  destruct (Nat.ltb_spec (4 + length payload + 1 + length extra) 5); [lia|].
  change (170 * 256 + 85 =? SYNC_WORD) with true. cbn [negb].
  destruct (Z.ltb_spec (Z.of_nat (4 + length payload + 1 + length extra))
              (4 + Z.of_nat (length payload) + 1)); [lia|].
  reflexivity.
Qed.

(** X4. The decoder reads one frame from the start of the buffer and
    ignores whatever follows it: a frame with any bytes appended decodes
    to the frame's packet. No size limit applies in the decoder itself. *)
Theorem parsePacket_ignores_trailing cmd payload ck (extra : list Z) :
  is_byte cmd -> bytes_ok payload -> is_byte ck -> (length payload <= 255)%nat ->
  bytes_ok extra ->
  parsePacket (raw_frame cmd payload ck ++ extra) = Ok (frame_packet cmd payload ck)
  /\ parsePacket (raw_frame cmd payload ck) = Ok (frame_packet cmd payload ck).
Proof.
  intros Hc Hp Hk Hlen He. split.
  - apply parsePacket_frame_app; assumption.
  - rewrite <- (app_nil_r (raw_frame cmd payload ck)).
    apply parsePacket_frame_app; [assumption..|apply Forall_nil_2].
Qed.

Lemma parsePacket_ignores_trailing_witness :
  parsePacket (raw_frame 2 [7; 8] 0x99 ++ [0xAA; 0x55; 0]) = Ok (frame_packet 2 [7; 8] 0x99).
Proof.
  refine (proj1 (parsePacket_ignores_trailing 2 [7; 8] 0x99 [0xAA; 0x55; 0] _ _ _ _ _));
    try solve_bytes; try (unfold is_byte; lia).
  simpl; lia.
Defined.

(** X5. What a successful decode returns is a frame at the start of the
    buffer: the packet carries the sync word, its fields are bytes, its
    payload has exactly [length] bytes, its wire form is the first
    [4 + length + 1] bytes of the buffer, and decoding that wire form gives
    the packet back. *)
Theorem parsePacket_returns_prefix (b : list Z) (p : Packet) :
  bytes_ok b -> parsePacket b = Ok p ->
  sync p = SYNC_WORD /\ is_byte (length_ p) /\ is_byte (command p) /\
  is_byte (checksum p) /\ bytes_ok (payload p) /\
  Z.of_nat (length (payload p)) = length_ p /\
  raw_frame (command p) (payload p) (checksum p)
    = take (4 + Z.to_nat (length_ p) + 1) b /\
  parsePacket (raw_frame (command p) (payload p) (checksum p)) = Ok p.
Proof.
  intros Hb Hp. rewrite (parsePacket_cases b Hb) in Hp.
  destruct (Nat.ltb_spec (length b) 5) as [|H5]; [discriminate|].
  destruct (Z.eqb_spec (rd b 0 * 256 + rd b 1) SYNC_WORD) as [Hs|]; [|discriminate].
  cbn [negb] in Hp.
  destruct (Z.ltb_spec (Z.of_nat (length b)) (4 + rd b 2 + 1)) as [|Hfit]; [discriminate|].
  injection Hp as <-. cbn [sync length_ command payload checksum].
  pose proof (rd_byte b 0 Hb) as B0. pose proof (rd_byte b 1 Hb) as B1.
  pose proof (rd_byte b 2 Hb) as B2. pose proof (rd_byte b 3 Hb) as B3.
  set (n := Z.to_nat (rd b 2)) in *.
  assert (Hn : Z.of_nat n = rd b 2) by (unfold is_byte in B2; lia).
  assert (Hpl : length (take n (drop 4 b)) = n)
    by (rewrite length_take, length_drop; lia).
  assert (Hsy : rd b 0 = 170 /\ rd b 1 = 85).
  { unfold SYNC_WORD, PROTOCOL_CONFIG.syncWord, is_byte in *. lia. }
  assert (Hraw : raw_frame (rd b 3) (take n (drop 4 b)) (rd b (4 + n))
                 = take (4 + n + 1) b).
  { set (f := take (4 + n + 1) b).
    assert (Hfl : length f = (4 + n + 1)%nat) by (unfold f; rewrite length_take; lia).
    rewrite (frame_decompose f n Hfl). unfold f.
    rewrite !rd_take by lia. destruct Hsy as [-> ->].
    unfold raw_frame. rewrite Hpl, Hn.
    rewrite skipn_firstn_comm, take_take.
    replace (n `min` (4 + n + 1 - 4))%nat with n by lia.
    reflexivity. }
  split; [exact Hs|]. split; [exact B2|]. split; [exact B3|].
  split; [apply rd_byte, Hb|]. split; [apply Forall_take, Forall_drop, Hb|].
  split; [rewrite Hpl; exact Hn|]. split; [exact Hraw|].
  assert (Hleg : is_byte (rd b 3) /\ bytes_ok (take n (drop 4 b))
                 /\ is_byte (rd b (4 + n)) /\ (length (take n (drop 4 b)) <= 255)%nat).
  { split; [exact B3|]. split; [apply Forall_take, Forall_drop, Hb|].
    split; [apply rd_byte, Hb|]. rewrite Hpl. unfold is_byte in B2. lia. }
  destruct Hleg as (L1 & L2 & L3 & L4).
  pose proof (parsePacket_frame_app _ _ _ [] L1 L2 L3 L4 (Forall_nil_2 _)) as E.
  rewrite app_nil_r in E. change (S (S (S (S n)))) with (4 + n)%nat.
  rewrite E. unfold frame_packet.
  rewrite Hpl, Hn, Hs. reflexivity.
Qed.

Lemma parsePacket_returns_prefix_witness :
  raw_frame 2 [1; 2; 3; 4; 5] 0x77 = take 10 (test_buffer ++ [0xEE; 0xFF]).
Proof.
  assert (Hb : bytes_ok (test_buffer ++ [0xEE; 0xFF]))
    by (unfold test_buffer; solve_bytes).
  destruct (parsePacket_returns_prefix (test_buffer ++ [0xEE; 0xFF])
              (mkPacket 0xAA55 5 2 [1; 2; 3; 4; 5] 0x77) Hb eq_refl)
    as (_ & _ & _ & _ & _ & _ & Hraw & _).
  exact Hraw.
Defined.

(** X6. Encoding then decoding: the frame [encodeAngles] returns decodes
    without error to a packet with the sync word, length 12, the command
    SET_JOINT_ANGLE and the twelve bytes of the three angles, and its
    checksum verifies over command and payload. *)
Theorem encodeAngles_decodes (angles : JointAngles) :
  exists frame p,
    encodeAngles angles = Ok frame /\ parsePacket frame = Ok p /\
    sync p = SYNC_WORD /\ length_ p = 12 /\ command p = CMD_SET_JOINT_ANGLE /\
    payload p = angles_payload angles /\ length (payload p) = 12%nat /\
    verifyChecksum (command p :: payload p) (checksum p) = true.
Proof.
  destruct (encodeAngles_valid_frame angles) as [E Hwf].
  exists (valid_frame CMD_SET_JOINT_ANGLE (angles_payload angles)).
  exists (valid_packet CMD_SET_JOINT_ANGLE (angles_payload angles)).
  assert (Hlen : length (angles_payload angles) = 12%nat)
    by (destruct angles as [[a0 a1] a2]; reflexivity).
  split; [exact E|]. split.
  - unfold valid_frame, valid_packet.
    apply parsePacket_raw_frame, valid_frame_legal, Hwf.
  - unfold valid_packet, frame_packet. cbn [sync length_ command payload checksum].
    rewrite Hlen. repeat split; try reflexivity.
    unfold verifyChecksum. apply Z.eqb_refl.
Qed.

(** ** Frame synchroniser *)

Lemma oversized_run r L cmd (body : list Z) :
  ready r -> is_byte L -> is_byte cmd -> 251 < L ->
  length body = (Z.to_nat L + 1)%nat ->
  exists r', processBytes r ([0xAA; 0x55; L; cmd] ++ body) =
               (r', [onError (ParseFailure (IncompletePacket (4 + L + 1) PACKET_MAX_SIZE))])
             /\ ready r' /\ bufferIndex r' = 0%nat /\ isReading r' = isReading r.
Proof.
  intros Hr HL Hc Hbig Hlen. rewrite (frame_run r L cmd body Hr HL Hc Hlen).
  pose proof (frame_buffer_length r L cmd body Hr) as HBl.
  pose proof (frame_buffer_bytes r L cmd body Hr HL Hc) as HBb.
  exists (mkReader SYNCING (frame_buffer r L cmd body) 0 0 (isReading r)).
  split; [|split; [apply (ready_after r); assumption | split; reflexivity]].
  f_equal.
  rewrite take_ge by (rewrite HBl; max_size; lia).
  rewrite (parsePacket_cases _ HBb), HBl.
  unfold frame_buffer.
  rewrite !write_at_rd_lt by lia.
  cbn [app rd lookup list_lookup default from_option id].
  max_size. unfold is_byte in HL.
  change (256 <? 5)%nat with false.
  change (170 * 256 + 85 =? SYNC_WORD) with true. cbn [negb].
  destruct (Z.ltb_spec (Z.of_nat 256) (4 + L + 1)); [reflexivity | lia].
Qed.

Lemma item_run r it :
  ready r -> item_ok it ->
  exists r', processBytes r (item_bytes it) = (r', [item_callback it])
             /\ ready r' /\ bufferIndex r' = 0%nat /\ isReading r' = isReading r.
Proof.
  intros Hr Hok. destruct it as [cmd payload ck|L cmd body]; cbn [item_bytes item_callback].
  - apply frame_delivery; assumption.
  - destruct Hok as (HL & Hc & Hbig & Hlen). apply oversized_run; assumption.
Qed.

Lemma window_empty r : bufferIndex r = 0%nat -> window r = [].
Proof. intros H. unfold window. rewrite H. reflexivity. Qed.

Lemma gapped_run segs : forall r rest,
  ready r -> bufferIndex r = 0%nat ->
  Forall (fun seg => gap_ok (fst seg) /\ item_ok (snd seg)) segs -> gap_ok rest ->
  snd (processBytes r (gapped_stream segs rest)) = map (fun seg => item_callback (snd seg)) segs.
Proof.
  induction segs as [|[gap it] segs IH]; intros r rest Hr H0 Hsegs [Hrb Hrn].
  - unfold gapped_stream. cbn [map concat app].
    destruct (noise_skip rest r Hr Hrb) as (r' & E & _).
    { rewrite (window_empty r H0). exact Hrn. }
    rewrite E. reflexivity.
  - apply Forall_cons in Hsegs as [[[Hgb Hgn] Hit] Hsegs]. cbn [fst snd] in *.
    replace (gapped_stream ((gap, it) :: segs) rest)
      with (gap ++ item_bytes it ++ gapped_stream segs rest)
      by (unfold gapped_stream; cbn [map concat fst snd]; rewrite <- !app_assoc; reflexivity).
    rewrite processBytes_app.
    destruct (noise_skip gap r Hr Hgb) as (r1 & E1 & Hr1 & _).
    { rewrite (window_empty r H0). exact Hgn. }
    rewrite E1, processBytes_app.
    destruct (item_run r1 it Hr1 Hit) as (r2 & E2 & Hr2 & H20 & _).
    rewrite E2.
    specialize (IH r2 rest Hr2 H20 Hsegs (conj Hrb Hrn)).
    destruct (processBytes r2 (gapped_stream segs rest)) as [r3 o3].
    cbn [snd map] in *. rewrite IH. reflexivity.
Qed.

(** X7. A stream made of frames separated by gaps that hold no sync
    word gives exactly one callback per frame, in stream order, however it
    is cut into chunks: the packet for a frame that fits the scratch
    buffer, the 'Incomplete packet' error for one that declares more. A
    rejected frame does not disturb the frames after it. *)
Theorem gapped_stream_callbacks (chunks : list (list Z)) segs rest :
  Forall (fun seg => gap_ok (fst seg) /\ item_ok (snd seg)) segs -> gap_ok rest ->
  concat chunks = gapped_stream segs rest ->
  snd (start Reader.new (map Chunk chunks)) = map (fun seg => item_callback (snd seg)) segs.
Proof.
  intros Hsegs Hrest Hcat. rewrite start_new_chunks, Hcat.
  apply gapped_run; [apply ready_new_start | reflexivity | assumption | assumption].
Qed.

Lemma gapped_stream_callbacks_witness :
  snd (start Reader.new
         (map Chunk [take 5 (gapped_stream mixed_segments [0xAA]);
                     drop 5 (gapped_stream mixed_segments [0xAA])])) =
    [onPacket (frame_packet 2 [9] 0x00);
     onError (ParseFailure (IncompletePacket 257 256));
     onPacket (frame_packet 1 [] 1)].
Proof.
  apply (gapped_stream_callbacks _ mixed_segments [0xAA]).
  - unfold mixed_segments.
    repeat (apply Forall_cons_2 || apply Forall_nil_2); cbn [fst snd item_ok];
      (split; [split; [solve_bytes | reflexivity]|]).
    + unfold legal_frame. split; [unfold is_byte; lia|]. split; [solve_bytes|].
      split; [unfold is_byte; lia | max_size; simpl; lia].
    + split; [unfold is_byte; lia|]. split; [unfold is_byte; lia|].
      split; [lia | reflexivity].
    + unfold legal_frame. split; [unfold is_byte; lia|]. split; [solve_bytes|].
      split; [unfold is_byte; lia | max_size; simpl; lia].
  - split; [solve_bytes | reflexivity].
  - cbn [concat]. rewrite app_nil_r. apply take_drop.
Defined.

(** X8. What [encodeAngles] writes is what the reader reads: the encoded
    frame of any angles, cut into chunks in any way, comes out of the
    reader as exactly one packet, with the command SET_JOINT_ANGLE, the
    twelve payload bytes of the angles and a checksum that verifies. *)
Theorem reader_delivers_encoded (chunks : list (list Z)) (angles : JointAngles) :
  Ok (concat chunks) = encodeAngles angles ->
  snd (start Reader.new (map Chunk chunks)) =
    [onPacket (valid_packet CMD_SET_JOINT_ANGLE (angles_payload angles))]
  /\ verifyChecksum (CMD_SET_JOINT_ANGLE :: angles_payload angles)
       (checksum (valid_packet CMD_SET_JOINT_ANGLE (angles_payload angles))) = true.
Proof.
  intros Henc. destruct (encodeAngles_valid_frame angles) as [E Hwf].
  rewrite E in Henc. injection Henc as Hcat. split.
  - rewrite start_new_chunks, Hcat.
    destruct (frame_delivery _ CMD_SET_JOINT_ANGLE (angles_payload angles) _
                ready_new_start (valid_frame_legal _ _ Hwf)) as (r' & Er & _).
    unfold valid_frame. rewrite Er. reflexivity.
  - unfold verifyChecksum, valid_packet, frame_packet. cbn [checksum]. apply Z.eqb_refl.
Qed.

Lemma reader_delivers_encoded_witness :
  snd (start Reader.new
         (map Chunk [[0xAA]; [0x55; 12; 1; 0; 0; 0; 0x3F; 0; 0]; [];
                     [0x80; 0x3F; 0; 0; 0; 0xBF; 0x3E]])) =
    [onPacket (valid_packet CMD_SET_JOINT_ANGLE
                 (angles_payload (num_0_5, num_1_0, num_neg_0_5)))].
Proof.
  refine (proj1 (reader_delivers_encoded _ (num_0_5, num_1_0, num_neg_0_5) _)).
  vm_compute. reflexivity.
Defined.

Lemma payload_error_shape c r b :
  reader_inv c r -> state r = READING_PAYLOAD -> is_byte b ->
  Forall parse_error_shape (snd (handleReadingPayload r b)).
Proof.
  intros (Hlen & Hb & Hst) Est Hbyte. rewrite Est in Hst.
  destruct Hst as (Hidx & Hlt & H0 & H1 & H2 & Hsuf).
  destruct r as [st buf idx L ir]. reader_fields. subst st.
  unfold handleReadingPayload, push_byte. reader_fields. rewrite (to_uint8_byte b Hbyte).
  set (buf' := <[idx := b]> buf).
  assert (Hlen' : length buf' = PACKET_MAX_SIZE) by (unfold buf'; rewrite length_insert; exact Hlen).
  assert (Hb' : bytes_ok buf') by (apply Forall_insert; assumption).
  assert (H0' : rd buf' 0 = 0xAA) by (unfold buf'; rewrite rd_insert_ne by lia; exact H0).
  assert (H1' : rd buf' 1 = 0x55) by (unfold buf'; rewrite rd_insert_ne by lia; exact H1).
  assert (H2' : rd buf' 2 = L) by (unfold buf'; rewrite rd_insert_ne by lia; exact H2).
  pose proof (rd_byte buf' 2 Hb') as HLb. rewrite H2' in HLb. unfold is_byte in HLb.
  destruct (Z.leb_spec (4 + L + 1) (Z.of_nat (S idx))) as [Hdone|Hmore]; cbn [snd];
    [|apply Forall_nil_2].
  unfold processPacket. reader_fields. rewrite slice_prefix.
  destruct (parsePacket (take (S idx) buf')) as [p|e] eqn:Ep;
    (apply Forall_cons_2; [|apply Forall_nil_2]); [exact I|].
  cbn [parse_error_shape]. exists L.
  assert (Hfb : bytes_ok (take (S idx) buf')) by (apply Forall_take; exact Hb').
  rewrite (parsePacket_cases _ Hfb) in Ep.
  rewrite !rd_take in Ep by lia. rewrite H0', H1', H2' in Ep.
  rewrite length_take, Hlen' in Ep. max_size.
  destruct (Nat.ltb_spec (S idx `min` 256) 5); [lia|].
  change (170 * 256 + 85 =? SYNC_WORD) with true in Ep. cbn [negb] in Ep.
  destruct (Z.ltb_spec (Z.of_nat (S idx `min` 256)) (4 + L + 1)) as [Hshort|];
    [|discriminate].
  injection Ep as <-.
  split; [lia | f_equal; lia].
Qed.

Lemma error_shape_run data : forall c r,
  reader_inv c r -> bytes_ok data ->
  Forall parse_error_shape (snd (processBytes r data)).
Proof.
  induction data as [|b data IH]; intros c r Hinv Hd; [apply Forall_nil_2|].
  apply Forall_cons in Hd as [Hb Hd]. cbn [processBytes].
  destruct (inv_step c r b Hinv Hb) as [Hinv1 _].
  assert (Hshape : Forall parse_error_shape (snd (processByte r b))).
  { unfold processByte. destruct (state r) eqn:Est; cbn [snd]; try apply Forall_nil_2.
    apply (payload_error_shape c); assumption. }
  destruct (processByte r b) as [r1 o1]. cbn [fst snd] in *.
  specialize (IH (c ++ [b]) r1 Hinv1 Hd).
  destruct (processBytes r1 data) as [r2 o2]. cbn [snd] in *.
  apply Forall_app; split; assumption.
Qed.

Lemma processBytes_with_isReading data : forall r b,
  processBytes (with_isReading r b) data =
    (with_isReading (fst (processBytes r data)) b, snd (processBytes r data)).
Proof.
  induction data as [|x data IH]; intros r b; [reflexivity|].
  cbn [processBytes].
  assert (E : processByte (with_isReading r b) x =
              (with_isReading (fst (processByte r x)) b, snd (processByte r x))).
  { destruct r as [st buf idx L ir]. unfold processByte, with_isReading. reader_fields.
    destruct st; try reflexivity.
    - unfold handleSyncing, push_byte. reader_fields.
      destruct (2 <=? S idx)%nat; [|reflexivity].
      destruct (_ =? SYNC_WORD); reflexivity.
    - unfold handleReadingHeader, push_byte. reader_fields.
      destruct (4 <=? S idx)%nat; reflexivity.
    - unfold handleReadingPayload, push_byte. reader_fields.
      destruct (_ <=? _); reflexivity. }
  rewrite E. destruct (processByte r x) as [r1 o1]. cbn [fst snd].
  rewrite IH. destruct (processBytes r1 data) as [r2 o2]. reflexivity.
Qed.

(** The read loop is [processBytes] on the bytes received, with the flag
    cleared and a read failure reported if the stream ended so. *)
Lemma readLoop_split reads : forall r,
  exists (b : bool) (tail : list Callback),
    readLoop r reads =
      (with_isReading (fst (processBytes r (received reads))) b,
       snd (processBytes r (received reads)) ++ tail)
    /\ (tail = [] \/ tail = [onError ReadFailure])
    /\ (b = isReading r \/ b = false)
    /\ (Forall (fun rr => exists v, rr = Chunk v) reads -> b = isReading r /\ tail = []).
Proof.
  induction reads as [|[value| |] reads IH]; intros r.
  - exists (isReading r), []. cbn. destruct r; cbn.
    split; [reflexivity|]. split; [auto|]. split; auto.
  - destruct (IH (fst (processBytes r value))) as (b & tail & E & Ht & Hb & Hall).
    exists b, tail. cbn [readLoop received]. rewrite processBytes_app.
    destruct (processBytes r value) as [r1 o1] eqn:E1. cbn [fst] in *. rewrite E.
    destruct (processBytes r1 (received reads)) as [r2 o2]. cbn [fst snd].
    assert (Hir : isReading r1 = isReading r).
    { pose proof (processBytes_with_isReading value r (isReading r)) as Hw.
      assert (Hr : with_isReading r (isReading r) = r) by (destruct r; reflexivity).
      rewrite Hr, E1 in Hw. cbn [fst snd] in Hw. injection Hw as Hw.
      rewrite Hw at 1. reflexivity. }
    rewrite <- app_assoc. split; [reflexivity|]. split; [exact Ht|].
    split; [rewrite <- Hir; exact Hb|].
    intros Hch. apply Forall_cons in Hch as [_ Hch]. rewrite <- Hir. apply Hall, Hch.
  - exists false, []. cbn. split; [reflexivity|]. split; [auto|]. split; [auto|].
    intros Hch. apply Forall_cons in Hch as [[v Hv] _]. discriminate.
  - exists false, [onError ReadFailure]. cbn.
    split; [reflexivity|]. split; [auto|]. split; [auto|].
    intros Hch. apply Forall_cons in Hch as [[v Hv] _]. discriminate.
Qed.

(** X9. Whatever bytes arrive, the only decoder error the reader ever
    reports is 'Incomplete packet', for a frame whose header declares a
    length above 251: 'Packet too small' and 'Invalid sync word' cannot
    come out of the reader, which hands the decoder only buffers that
    start with the sync word and hold at least five bytes. *)
Theorem reader_reports_only_incomplete (reads : list ReadResult) (e : CodecError) :
  bytes_ok (received reads) ->
  onError (ParseFailure e) ∈ snd (start Reader.new reads) ->
  (exists L, 251 < L <= 255 /\ e = IncompletePacket (4 + L + 1) PACKET_MAX_SIZE)
  /\ message e = "Incomplete packet".
Proof.
  intros Hb Hin.
  assert (Hshape : exists L, 251 < L <= 255
                             /\ e = IncompletePacket (4 + L + 1) PACKET_MAX_SIZE).
  { unfold start in Hin. cbn [isReading Reader.new] in Hin.
    destruct (readLoop_split reads
                (mkReader SYNCING (buffer Reader.new) 0 (expectedLength Reader.new) true))
      as (b & tail & E & Ht & _).
    rewrite E in Hin. cbn [snd] in Hin. apply elem_of_app in Hin as [Hin|Hin].
    - pose proof (error_shape_run (received reads) [] _ reader_inv_start Hb) as Hall.
      exact (proj1 (Forall_forall _ _) Hall _ Hin).
    - destruct Ht as [-> | ->].
      + inversion Hin.
      + apply list_elem_of_singleton in Hin. discriminate. }
  split; [exact Hshape|]. destruct Hshape as (L & _ & ->). reflexivity.
Qed.

Lemma reader_reports_only_incomplete_witness :
  (exists L, 251 < L <= 255
             /\ IncompletePacket 257 256 = IncompletePacket (4 + L + 1) PACKET_MAX_SIZE)
  /\ message (IncompletePacket 257 256) = "Incomplete packet".
Proof.
  apply (reader_reports_only_incomplete
           [Chunk [0xAA; 0x55; 252]; Chunk (1 :: replicate 253 7)]).
  - unfold bytes_ok. cbn [received app].
    do 4 (constructor; [unfold is_byte; lia|]).
    rewrite app_nil_r. apply Forall_replicate. unfold is_byte; lia.
  - vm_compute. apply list_elem_of_here.
Defined.

(** ** The writer between drains *)

Lemma shiftAndWrite_idle_ok s :
  isWriting (writer s) = true -> idle_ok (shiftAndWrite s).
Proof.
  intros Hw. unfold shiftAndWrite, idle_ok.
  destruct (queue (writer s)) as [|d rest] eqn:Eq; cbn.
  - intros _. split; [exact Eq | reflexivity].
  - congruence.
Qed.

Lemma loopHead_idle_ok s now :
  isWriting (writer s) = true -> idle_ok (loopHead s now).
Proof.
  intros Hw. unfold loopHead.
  destruct (queue (writer s)) as [|d rest] eqn:Eq.
  - unfold idle_ok. cbn. intros _. split; [exact Eq | reflexivity].
  - destruct (negb _).
    + unfold idle_ok. cbn. congruence.
    + apply shiftAndWrite_idle_ok, Hw.
Qed.

Lemma step_idle_ok s ev : flagged s -> idle_ok s -> idle_ok (step s ev).
Proof.
  intros Hf Hi. destruct ev as [data now| | |now|]; cbn [step].
  - destruct (enqueue_fields (writer s) data) as (Ew & _).
    cbn [writer]. rewrite Ew.
    destruct (isWriting (writer s)) eqn:Hw.
    + unfold idle_ok. cbn [writer]. rewrite Ew. congruence.
    + unfold processQueue. apply loopHead_idle_ok. reflexivity.
  - unfold idle_ok. cbn. intros Hw. split; [reflexivity | apply Hi, Hw].
  - destruct (drain s) eqn:Ed; try exact Hi.
    apply shiftAndWrite_idle_ok, Hf. congruence.
  - destruct (drain s) eqn:Ed; try exact Hi.
    apply loopHead_idle_ok. cbn. apply Hf. congruence.
  - destruct (drain s) eqn:Ed; try exact Hi.
    unfold idle_ok. cbn. intros Hw.
    assert (isWriting (writer s) = true) by (apply Hf; congruence). congruence.
Qed.

Lemma run_idle_ok evs : forall s, flagged s -> idle_ok s -> idle_ok (run s evs).
Proof.
  induction evs as [|ev evs IH]; intros s Hf Hi; [exact Hi|].
  change (run s (ev :: evs)) with (run (step s ev) evs).
  apply IH; [apply step_flagged, Hf | apply step_idle_ok; assumption].
Qed.

(** X10. Whenever the writer's flag is down, its queue is empty and no
    drain is suspended: a frame accepted by [write] never waits without a
    drain running for it. Frames can be left waiting only with the flag
    up. *)
Theorem idle_writer_is_drained (hz : Z) (evs : list Event) :
  let s := run (init hz) evs in
  isWriting (writer s) = false ->
  queue (writer s) = [] /\ drain s = NoDrain.
Proof.
  cbn zeta. apply run_idle_ok.
  - unfold flagged. cbn. congruence.
  - unfold idle_ok. cbn. auto.
Qed.

Lemma idle_writer_is_drained_witness :
  queue (writer (run (init 100) [Call_write [1] 50; Written 51])) = [] /\
  drain (run (init 100) [Call_write [1] 50; Written 51]) = NoDrain.
Proof.
  apply (idle_writer_is_drained 100 [Call_write [1] 50; Written 51]).
  reflexivity.
Defined.

(** ** A drain left alone *)

Lemma throttle_positive hz : 0 < hz -> Qle_bool (throttleMs (Writer.new hz)) 0 = false.
Proof. intros H. destruct hz as [|p|p]; try lia. reflexivity. Qed.

Lemma shiftAndWrite_throttleMs s :
  throttleMs (writer (shiftAndWrite s)) = throttleMs (writer s).
Proof. unfold shiftAndWrite. destruct (queue (writer s)); reflexivity. Qed.

Lemma loopHead_throttleMs s now :
  throttleMs (writer (loopHead s now)) = throttleMs (writer s).
Proof.
  unfold loopHead. destruct (queue (writer s)) eqn:E; [reflexivity|].
  destruct (negb _); [reflexivity|]. apply shiftAndWrite_throttleMs.
Qed.

Lemma step_throttleMs s ev : throttleMs (writer (step s ev)) = throttleMs (writer s).
Proof.
  destruct ev as [data now| | |now|]; cbn [step].
  - destruct (enqueue_fields (writer s) data) as (_ & _ & _ & Et).
    cbn [writer]. destruct (isWriting _); cbn [writer]; [exact Et|].
    unfold processQueue. rewrite loopHead_throttleMs. exact Et.
  - reflexivity.
  - destruct (drain s); try reflexivity. apply shiftAndWrite_throttleMs.
  - destruct (drain s); try reflexivity. rewrite loopHead_throttleMs. reflexivity.
  - destruct (drain s); reflexivity.
Qed.

Lemma run_throttleMs evs : forall s,
  throttleMs (writer (run s evs)) = throttleMs (writer s).
Proof.
  induction evs as [|ev evs IH]; intros s; [reflexivity|].
  change (run s (ev :: evs)) with (run (step s ev) evs).
  rewrite IH. apply step_throttleMs.
Qed.

Lemma drain_runs ts : forall s d t_last,
  Qle_bool (throttleMs (writer s)) 0 = false ->
  drain s = InFlight d ->
  length ts = length (queue (writer s)) ->
  let s' := run s (drain_events ts t_last) in
  sent s' = sent s ++ queue (writer s) /\ queue (writer s') = []
  /\ isWriting (writer s') = false /\ drain s' = NoDrain
  /\ lastWriteTime (writer s') = t_last.
Proof.
  induction ts as [|t ts IH]; intros s d t_last Hpos Hd Hlen; cbn zeta.
  - destruct (queue (writer s)) as [|q0 rest] eqn:Eq; [|discriminate].
    unfold drain_events. cbn [flat_map app run fold_left step]. rewrite Hd.
    unfold loopHead. cbn [writer queue set_lastWriteTime]. rewrite Eq.
    cbn. rewrite app_nil_r. auto.
  - destruct (queue (writer s)) as [|q0 rest] eqn:Eq; [discriminate|].
    unfold drain_events. cbn [flat_map app].
    change (run s (Written t :: Wake :: ?evs))
      with (run (step (step s (Written t)) Wake) evs).
    assert (E1 : step s (Written t) =
                 mkSystem (set_lastWriteTime (writer s) t)
                   (Sleeping (Qminus (throttleMs (writer s)) (inject_Z (t - t))))
                   (sent s)).
    { cbn [step]. rewrite Hd. unfold loopHead.
      cbn [writer queue set_lastWriteTime lastWriteTime throttleMs]. rewrite Eq.
      rewrite Z.sub_diag. change (inject_Z 0) with 0%Q. rewrite Hpos. reflexivity. }
    rewrite E1. cbn [step drain]. unfold shiftAndWrite.
    cbn [writer queue set_lastWriteTime sent]. rewrite Eq.
    match goal with |- context [run ?s0 _] => set (s1 := s0) end.
    destruct (IH s1 q0 t_last) as (Hs & Hq & Hw & Hdr & Ht).
    + exact Hpos.
    + reflexivity.
    + cbn. cbn in Hlen. lia.
    + fold (drain_events ts t_last). rewrite Hs, Hq, Hw, Hdr, Ht.
      subst s1. cbn. rewrite <- app_assoc. auto.
Qed.

(** X11. A drain that nothing interrupts empties the queue: from a
    writer with a transport write pending, if every write resolves and
    every sleep runs out, all the queued frames are handed to the
    transport in queue order, one after each sleep, and when the last
    write resolves the queue is empty, the flag is down and the time of
    that write is recorded. *)
Theorem uninterrupted_drain_completes
  (hz : Z) (pre : list Event) (d : frame) (ts : list Z) (t_last : Z) :
  0 < hz ->
  let s := run (init hz) pre in
  drain s = InFlight d ->
  length ts = length (queue (writer s)) ->
  let s' := run s (drain_events ts t_last) in
  sent s' = sent s ++ queue (writer s) /\ queue (writer s') = []
  /\ isWriting (writer s') = false /\ drain s' = NoDrain
  /\ lastWriteTime (writer s') = t_last.
Proof.
  cbn zeta. intros Hhz Hd Hlen.
  apply (drain_runs ts _ d t_last); [|exact Hd|exact Hlen].
  rewrite run_throttleMs. apply throttle_positive, Hhz.
Qed.

Lemma uninterrupted_drain_completes_witness :
  sent (run (run (init 100) [Call_write [1] 50; Call_write [2] 51; Call_write [3] 52])
         (drain_events [60; 75] 90)) = [[1]; [2]; [3]]
  /\ queue (writer (run (run (init 100)
                            [Call_write [1] 50; Call_write [2] 51; Call_write [3] 52])
                      (drain_events [60; 75] 90))) = []
  /\ isWriting (writer (run (run (init 100)
                              [Call_write [1] 50; Call_write [2] 51; Call_write [3] 52])
                        (drain_events [60; 75] 90))) = false
  /\ drain (run (run (init 100) [Call_write [1] 50; Call_write [2] 51; Call_write [3] 52])
             (drain_events [60; 75] 90)) = NoDrain
  /\ lastWriteTime (writer (run (run (init 100)
                                  [Call_write [1] 50; Call_write [2] 51; Call_write [3] 52])
                            (drain_events [60; 75] 90))) = 90.
Proof.
  apply (uninterrupted_drain_completes 100
           [Call_write [1] 50; Call_write [2] 51; Call_write [3] 52] [1] [60; 75] 90).
  - lia.
  - reflexivity.
  - reflexivity.
Defined.

(** ** What [clearQueue] discards *)

Lemma shiftAndWrite_sent s :
  exists x, sent (shiftAndWrite s) = sent s ++ x
            /\ x ++ queue (writer (shiftAndWrite s)) = queue (writer s).
Proof.
  unfold shiftAndWrite. destruct (queue (writer s)) as [|d rest] eqn:Eq.
  - exists []. cbn. rewrite app_nil_r. auto.
  - exists [d]. cbn. auto.
Qed.

Lemma loopHead_sent s now :
  exists x, sent (loopHead s now) = sent s ++ x
            /\ x ++ queue (writer (loopHead s now)) = queue (writer s).
Proof.
  unfold loopHead. destruct (queue (writer s)) as [|d rest] eqn:Eq.
  - exists []. cbn. rewrite app_nil_r. auto.
  - destruct (negb _).
    + exists []. cbn. rewrite app_nil_r. auto.
    + rewrite <- Eq. apply shiftAndWrite_sent.
Qed.

Lemma step_sent s ev :
  bounded s ->
  exists x, sent (step s ev) = sent s ++ x
            /\ x ++ queue (writer (step s ev)) `sublist_of` queue (writer s) ++ enqueued [ev].
Proof.
  intros [Hmax Hlen]. destruct ev as [data now| | |now|]; cbn [step enqueued omap].
  - assert (Hq : queue (enqueue (writer s) data) `sublist_of` queue (writer s) ++ [data]).
    { rewrite (enqueue_queue _ data Hmax).
      apply sublist_app; [apply sublist_drop | reflexivity]. }
    cbn [writer]. destruct (isWriting (enqueue (writer s) data)).
    + exists []. cbn. rewrite app_nil_r. auto.
    + unfold processQueue.
      match goal with |- context [loopHead ?s0 now] =>
        destruct (loopHead_sent s0 now) as (x & Hs & Hx) end.
      exists x. rewrite Hs, Hx. cbn. auto.
  - exists []. cbn. rewrite !app_nil_r. split; [reflexivity | apply sublist_nil_l].
  - destruct (drain s).
    + exists []. cbn. rewrite !app_nil_r. auto.
    + destruct (shiftAndWrite_sent s) as (x & Hs & Hx).
      exists x. rewrite Hs, Hx, app_nil_r. auto.
    + exists []. cbn. rewrite !app_nil_r. auto.
  - destruct (drain s).
    + exists []. cbn. rewrite !app_nil_r. auto.
    + exists []. cbn. rewrite !app_nil_r. auto.
    + match goal with |- context [loopHead ?s0 now] =>
        destruct (loopHead_sent s0 now) as (x & Hs & Hx) end.
      exists x. rewrite Hs, Hx, app_nil_r. cbn. auto.
  - exists []. destruct (drain s); cbn; rewrite !app_nil_r; auto.
Qed.

Lemma run_sent evs : forall s,
  bounded s ->
  exists x, sent (run s evs) = sent s ++ x
            /\ x ++ queue (writer (run s evs)) `sublist_of` queue (writer s) ++ enqueued evs.
Proof.
  induction evs as [|ev evs IH]; intros s Hb.
  - exists []. cbn. rewrite !app_nil_r. auto.
  - change (run s (ev :: evs)) with (run (step s ev) evs).
    destruct (step_sent s ev Hb) as (x1 & Hs1 & Hx1).
    destruct (IH _ (step_bounded s ev Hb)) as (x2 & Hs2 & Hx2).
    exists (x1 ++ x2). rewrite Hs2, Hs1, <- app_assoc. split; [reflexivity|].
    change (ev :: evs) with ([ev] ++ evs). rewrite enqueued_app.
    rewrite <- app_assoc, (app_assoc (queue (writer s))).
    etransitivity; [|apply sublist_app; [exact Hx1 | reflexivity]].
    rewrite <- app_assoc. apply sublist_app; [reflexivity | exact Hx2].
Qed.

(** X12. [clearQueue] discards the backlog for good: of the frames that
    were waiting in the queue when it is called none is ever handed to
    the transport. Whatever happens afterwards, the frames sent after the
    call, followed by those then pending, are a subsequence of the frames
    passed to [write] after the call. *)
Theorem clearQueue_discards_backlog (hz : Z) (pre post : list Event) :
  let s := run (init hz) pre in
  let s' := run (step s Call_clearQueue) post in
  exists later,
    sent s' = sent s ++ later
    /\ later ++ queue (writer s') `sublist_of` enqueued post.
Proof.
  cbn zeta.
  assert (Hb : bounded (step (run (init hz) pre) Call_clearQueue))
    by apply step_bounded, run_bounded, init_bounded.
  destruct (run_sent post _ Hb) as (x & Hs & Hx).
  exists x. split; [exact Hs | exact Hx].
Qed.

(** ** The send throttle of the joint store *)

Lemma calls_cons lastSerialSend angles now rest :
  Joints.calls lastSerialSend ((angles, now) :: rest) =
    if Joints.SERIAL_THROTTLE_MS <=? now - lastSerialSend
    then ((Joints.calls now rest).1, (angles, now) :: (Joints.calls now rest).2)
    else Joints.calls lastSerialSend rest.
Proof.
  cbn [Joints.calls]. unfold Joints.throttledSendAngles.
  destruct (Joints.SERIAL_THROTTLE_MS <=? now - lastSerialSend);
    [destruct (Joints.calls now rest) | destruct (Joints.calls lastSerialSend rest)];
    reflexivity.
Qed.

Lemma last_cons_default {A} (l : list A) : forall x d,
  List.last (x :: l) d = List.last l x.
Proof.
  induction l as [|y l IH]; intros x d; [reflexivity|].
  change (List.last (x :: y :: l) d) with (List.last (y :: l) d).
  rewrite !IH. reflexivity.
Qed.

(** X13. The joint store passes on to the connection at most one update
    per 10 ms: whatever the sequence of updates and clock readings, the
    updates that reach [sendAngles] are a subsequence of those made, the
    first at least 10 ms after the last send before them and any two in a
    row at least 10 ms apart, and [lastSerialSend] ends as the time of the
    last of them. *)
Theorem throttled_sends_are_spaced (lastSerialSend : Z) (cs : list (JointAngles * Z)) :
  spaced lastSerialSend (map snd (Joints.calls lastSerialSend cs).2)
  /\ (Joints.calls lastSerialSend cs).2 `sublist_of` cs
  /\ (Joints.calls lastSerialSend cs).1
     = List.last (map snd (Joints.calls lastSerialSend cs).2) lastSerialSend.
Proof.
  revert lastSerialSend.
  induction cs as [|[angles now] rest IH]; intros lastSerialSend.
  - cbn. auto using sublist_nil.
  - rewrite calls_cons.
    destruct (Joints.SERIAL_THROTTLE_MS <=? now - lastSerialSend) eqn:E.
    + destruct (IH now) as (Hs & Hsub & Hl). cbn [fst snd map spaced].
      split; [split; [lia | exact Hs]|].
      split; [apply sublist_skip, Hsub|].
      rewrite Hl. symmetry. apply last_cons_default.
    + destruct (IH lastSerialSend) as (Hs & Hsub & Hl).
      split; [exact Hs|]. split; [apply sublist_cons, Hsub | exact Hl].
Qed.

(** X14. An update that is throttled is lost, not deferred: when every
    update of a burst comes less than 10 ms after the last send, none of
    them reaches [sendAngles], the last of the burst included, and
    [lastSerialSend] stays as it was. *)
Theorem throttled_burst_is_dropped (lastSerialSend : Z) (cs : list (JointAngles * Z)) :
  Forall (fun c => c.2 - lastSerialSend < Joints.SERIAL_THROTTLE_MS) cs ->
  Joints.calls lastSerialSend cs = (lastSerialSend, []).
Proof.
  induction 1 as [|[angles now] rest Hc _ IH]; [reflexivity|].
  rewrite calls_cons. cbn [snd] in Hc.
  destruct (Joints.SERIAL_THROTTLE_MS <=? now - lastSerialSend) eqn:E; [lia | exact IH].
Qed.

Lemma throttled_burst_is_dropped_witness :
  Joints.calls 100
    [((num_0_5, num_0_5, num_0_5), 103); ((num_1_0, num_0_5, num_0_5), 109)]
  = (100, []).
Proof.
  apply (throttled_burst_is_dropped 100
           [((num_0_5, num_0_5, num_0_5), 103); ((num_1_0, num_0_5, num_0_5), 109)]).
  repeat constructor; cbn; unfold Joints.SERIAL_THROTTLE_MS; lia.
Defined.

(** ** The manifest loader: recovery and the cache window *)

Lemma retryLoop_S n attempt_no l w :
  retryLoop (S n) attempt_no l w =
    let w1 := mkWorld (now w) (network w) (S (fetches w))
                (effects w ++ [Fetched (manifestUrl l)]) in
    match attempt (network w (fetches w)) with
    | Returned m => (Returned m, set_manifest l m (now w), w1)
    | OutsideTypes => (OutsideTypes, l, w1)
    | Thrown error =>
        if attempt_no <? retryAttempts l
        then retryLoop n (attempt_no + 1) l (sleep (retryDelay l) w1)
        else (Thrown (LoadFailedAfter (retryAttempts l) error), l, w1)
    end.
Proof.
  change (retryLoop (S n) attempt_no l w)
    with ((do self <- this;
           do response <- do_fetch (manifestUrl self);
           match attempt response with
           | Returned manifest =>
               do timestamp <- Date_now;
               do _ <- update (fun l => set_manifest l manifest timestamp);
               ret manifest
           | OutsideTypes => outside
           | Thrown error =>
               if attempt_no <? retryAttempts self
               then do _ <- do_sleep (retryDelay self);
                    retryLoop n (attempt_no + 1)
               else throw (LoadFailedAfter (retryAttempts self) error)
           end) l w).
  unfold CDN.bind at 1 2. unfold this, do_fetch, fetch. cbn zeta.
  destruct (attempt (network w (fetches w))) as [m|e|]; [reflexivity| |reflexivity].
  destruct (attempt_no <? retryAttempts l); reflexivity.
Qed.

Lemma retryLoop_recovers k : forall rem attempt_no l w m,
  attempt_no + Z.of_nat k <= retryAttempts l ->
  (forall i, (i < k)%nat -> exists e, failed_attempt (network w (fetches w + i)) e) ->
  attempt (network w (fetches w + k)) = Returned m ->
  retryLoop (S k + rem) attempt_no l w =
    (Returned m, set_manifest l m (now w + Z.of_nat k * retryDelay l), world_after l w k).
Proof.
  induction k as [|k IH]; intros rem attempt_no l w m HN Hfail Hok.
  - rewrite Nat.add_0_r in Hok. cbn [Nat.add]. rewrite retryLoop_S, Hok. cbn zeta.
    unfold world_after. cbn [retry_effects].
    replace (now w + Z.of_nat 0 * retryDelay l) with (now w) by lia.
    replace (fetches w + 1)%nat with (S (fetches w)) by lia. reflexivity.
  - destruct (Hfail 0%nat ltac:(lia)) as [e0 He0]. rewrite Nat.add_0_r in He0.
    change (S (S k) + rem)%nat with (S (S k + rem)).
    rewrite retryLoop_S, (failed_attempt_throws _ _ He0). cbn zeta.
    destruct (Z.ltb_spec attempt_no (retryAttempts l)); [|lia].
    rewrite (IH rem (attempt_no + 1) l _ m).
    + unfold world_after. cbn [now network fetches effects sleep].
      replace (now w + retryDelay l + Z.of_nat k * retryDelay l)
        with (now w + Z.of_nat (S k) * retryDelay l) by lia.
      replace (S (fetches w) + S k)%nat with (fetches w + S (S k))%nat by lia.
      rewrite <- !app_assoc. reflexivity.
    + lia.
    + intros i Hi. cbn [network fetches sleep].
      replace (S (fetches w) + i)%nat with (fetches w + S i)%nat by lia.
      apply Hfail. lia.
    + cbn [network fetches sleep].
      replace (S (fetches w) + k)%nat with (fetches w + S k)%nat by lia. exact Hok.
Qed.

(** X15. [loadManifest] recovers from failures short of the limit: with
    no fresh cached manifest, when the first [k] attempts fail and the
    next, still within [retryAttempts], is answered by a valid document,
    it fetches [k + 1] times with a sleep of [retryDelay] after each
    failure, returns the manifest, and keeps it both as the held manifest
    and in the manifest cache, stamped with the time of the successful
    attempt. No error of the failed attempts surfaces. *)
Theorem loadManifest_recovers
  (l : CDNAssetLoader) (w : World) (k : nat)
  (status : Z) (statusText : string) (v : JsonValue) (m : AssetManifest) :
  fresh_manifest l w = None ->
  Z.of_nat k < retryAttempts l ->
  (forall i, (i < k)%nat -> exists e, failed_attempt (network w (fetches w + i)) e) ->
  network w (fetches w + k) = Response true status statusText (BodyJson v) ->
  validateManifest v = None ->
  as_manifest v = Some m ->
  let stamp := now w + Z.of_nat k * retryDelay l in
  loadManifest l w =
    (Returned m, set_manifest l m stamp,
     mkWorld stamp (network w) (fetches w + S k)
       (effects w ++ retry_effects (manifestUrl l) (retryDelay l) (S k)))
  /\ manifest (set_manifest l m stamp) = Some m
  /\ manifestCache (set_manifest l m stamp) !! manifestUrl l = Some (m, stamp)
  /\ length (List.filter is_fetch (retry_effects (manifestUrl l) (retryDelay l) (S k)))
     = S k
  /\ List.filter (fun ef => negb (is_fetch ef))
       (retry_effects (manifestUrl l) (retryDelay l) (S k))
     = replicate k (Slept (retryDelay l)).
Proof.
  intros Hfresh Hk Hfail Hnet Hvalid Htyped. cbn zeta.
  destruct (retry_effects_counts (manifestUrl l) (retryDelay l) k) as (H1 & H2 & _).
  split; [|split; [reflexivity | split; [apply lookup_insert_eq | split; assumption]]].
  unfold loadManifest. rewrite Hfresh.
  assert (Hsplit : Z.to_nat (retryAttempts l)
                   = (S k + (Z.to_nat (retryAttempts l) - S k))%nat) by lia.
  rewrite Hsplit.
  rewrite (retryLoop_recovers k _ 1 l w m); [reflexivity | lia | exact Hfail |].
  rewrite Hnet. cbn [attempt negb]. rewrite Hvalid, Htyped. reflexivity.
Qed.

Lemma loadManifest_recovers_witness :
  loadManifest test_loader (mkWorld 5 recovering_network 0 []) =
    (Returned served_manifest, set_manifest test_loader served_manifest 1005,
     mkWorld 1005 recovering_network 2
       [Fetched "https://assets.openarm.dev/manifest.json"; Slept 1000;
        Fetched "https://assets.openarm.dev/manifest.json"]).
Proof.
  refine (proj1 (loadManifest_recovers test_loader (mkWorld 5 recovering_network 0 []) 1
                   200 "OK" manifest_document served_manifest _ _ _ _ _ _)).
  - reflexivity.
  - cbn. lia.
  - intros [|i] Hi; [|lia]. eexists. apply fail_status.
  - reflexivity.
  - reflexivity.
  - reflexivity.
Defined.

Lemma retryLoop_returned n : forall attempt_no l w m l1 w1,
  retryLoop n attempt_no l w = (Returned m, l1, w1) ->
  l1 = set_manifest l m (now w1).
Proof.
  induction n as [|n IH]; intros attempt_no l w m l1 w1 H; [discriminate|].
  rewrite retryLoop_S in H. cbn zeta in H.
  destruct (attempt (network w (fetches w))) as [m0|e|].
  - injection H as <- <- <-. reflexivity.
  - destruct (attempt_no <? retryAttempts l); [|discriminate].
    apply IH in H. exact H.
  - discriminate.
Qed.

(** X16. A manifest loaded from the network is served from the cache for
    [cacheTimeout] milliseconds and not longer: a later [loadManifest]
    less than [cacheTimeout] after the load returns the same manifest
    without any fetch or change, and one at [cacheTimeout] or more goes
    through the attempts again. *)
Theorem loadManifest_cache_window
  (l : CDNAssetLoader) (w : World) (m : AssetManifest)
  (l1 : CDNAssetLoader) (w1 : World) :
  fresh_manifest l w = None ->
  loadManifest l w = (Returned m, l1, w1) ->
  forall w2,
    (now w2 - now w1 < cacheTimeout l ->
       loadManifest l1 w2 = (Returned m, l1, w2)) /\
    (cacheTimeout l <= now w2 - now w1 ->
       loadManifest l1 w2 = retryLoop (Z.to_nat (retryAttempts l)) 1 l1 w2).
Proof.
  intros Hfresh Hload w2. unfold loadManifest in Hload. rewrite Hfresh in Hload.
  apply retryLoop_returned in Hload. subst l1.
  unfold loadManifest, fresh_manifest.
  cbn [set_manifest manifestCache manifestUrl cacheTimeout retryAttempts].
  rewrite lookup_insert_eq.
  split; intros Ht; destruct (Z.ltb_spec (now w2 - now w1) (cacheTimeout l));
    try lia; reflexivity.
Qed.

Lemma loadManifest_cache_window_witness :
  loadManifest (set_manifest test_loader served_manifest 1005)
    (mkWorld 300000 failing_network 2 []) =
    (Returned served_manifest, set_manifest test_loader served_manifest 1005,
     mkWorld 300000 failing_network 2 []).
Proof.
  refine (proj1 (loadManifest_cache_window test_loader (mkWorld 5 recovering_network 0 [])
                   served_manifest (set_manifest test_loader served_manifest 1005)
                   (mkWorld 1005 recovering_network 2
                      [Fetched "https://assets.openarm.dev/manifest.json"; Slept 1000;
                       Fetched "https://assets.openarm.dev/manifest.json"])
                   _ _ (mkWorld 300000 failing_network 2 [])) _).
  - reflexivity.
  - reflexivity.
  - cbn. lia.
Defined.

(** ** The three resolvers and their shared cache *)

Lemma resolve_unfold k name l w :
  resolve k name l w =
    match cached_url l name with
    | Some cached => (Resolved cached, l, w)
    | None =>
        match loadIfMissing l w with
        | (Thrown e, l1, w1) => (Raised (LoaderFailure e), l1, w1)
        | (OutsideTypes, l1, w1) => (Untyped, l1, w1)
        | (Returned _, l1, w1) =>
            match findAsset l1 (selects k name) with
            | None => (Raised (not_found k name), l1, w1)
            | Some a =>
                let u := or_else (url a) (fallback_url k l1 a) in
                (Resolved u, set_assetUrl l1 name u, w1)
            end
        end
    end.
Proof.
  destruct k; cbn [resolve selects fallback_url not_found].
  - unfold getAssetUrl, CDN.bind at 1, this.
    destruct (cached_url l name); [reflexivity|].
    unfold CDN.bind at 1. destruct (loadIfMissing l w) as [[[[]|e|] l1] w1];
      try reflexivity.
    unfold CDN.bind at 1, this.
    destruct (findAsset l1 _); reflexivity.
  - unfold getAssetUrlByProcessed, CDN.bind at 1, this.
    destruct (cached_url l name); [reflexivity|].
    unfold CDN.bind at 1. destruct (loadIfMissing l w) as [[[[]|e|] l1] w1];
      try reflexivity.
    unfold CDN.bind at 1, this.
    destruct (findAsset l1 _); reflexivity.
  - unfold getUrdfUrl.
    destruct (cached_url l name); [reflexivity|].
    destruct (loadIfMissing l w) as [[[[]|e|] l1] w1]; reflexivity.
Qed.

Lemma loadIfMissing_held l w m :
  manifest l = Some m -> loadIfMissing l w = (Returned tt, l, w).
Proof. intros Hm. unfold loadIfMissing, CDN.bind, this. rewrite Hm. reflexivity. Qed.

Lemma fallback_url_nonempty k l a : fallback_url k l a <> "".
Proof.
  destruct k; cbn [fallback_url]; unfold constructAssetUrl;
    try destruct (String.eqb _ _);
    apply append_nonempty; discriminate.
Qed.

Lemma cached_url_set l name u :
  u <> "" -> cached_url (set_assetUrl l name u) name = Some u.
Proof.
  intros Hu. unfold cached_url. cbn [set_assetUrl assetUrlCache].
  rewrite lookup_insert_eq. destruct (String.eqb_spec u ""); [contradiction | reflexivity].
Qed.

Lemma resolved_is_cached k name l w u l1 w1 :
  resolve k name l w = (Resolved u, l1, w1) -> cached_url l1 name = Some u.
Proof.
  rewrite resolve_unfold. destruct (cached_url l name) as [c|] eqn:Ec.
  - intros [= <- <- <-]. exact Ec.
  - destruct (loadIfMissing l w) as [[[[]|e|] l2] w2]; try discriminate.
    destruct (findAsset l2 _) as [a|]; [|discriminate].
    cbn zeta. intros [= <- <- <-].
    apply cached_url_set, or_else_nonempty, fallback_url_nonempty.
Qed.

(** X17. The three resolvers share one cache keyed by the bare name, and
    what is cached wins: once any of [getAssetUrl], [getAssetUrlByProcessed]
    and [getUrdfUrl] has resolved a name to a URL, each of the three
    returns that URL for that name from then on, without a fetch, a
    change of the loader or a look at the manifest, whichever entry it
    would itself have searched for. *)
Theorem resolved_name_is_sticky
  (k : Resolver) (name : string) (l : CDNAssetLoader) (w : World)
  (u : string) (l1 : CDNAssetLoader) (w1 : World) :
  resolve k name l w = (Resolved u, l1, w1) ->
  forall k' w2, resolve k' name l1 w2 = (Resolved u, l1, w2).
Proof.
  intros H k' w2. apply resolved_is_cached in H.
  rewrite resolve_unfold, H. reflexivity.
Qed.

Lemma resolved_name_is_sticky_witness :
  resolve ByOriginal "robot.1a2b.urdf"
    (set_assetUrl loaded_loader "robot.1a2b.urdf" "https://assets.openarm.dev/robot.1a2b.urdf")
    (mkWorld 9 failing_network 0 [])
  = (Resolved "https://assets.openarm.dev/robot.1a2b.urdf",
     set_assetUrl loaded_loader "robot.1a2b.urdf" "https://assets.openarm.dev/robot.1a2b.urdf",
     mkWorld 9 failing_network 0 []).
Proof.
  apply (resolved_name_is_sticky ByProcessed "robot.1a2b.urdf" loaded_loader
           (mkWorld 0 failing_network 0 []) _ _ (mkWorld 0 failing_network 0 [])).
  vm_compute. reflexivity.
Defined.

(** X18. The resolvers load the manifest once and never refresh it: with
    a manifest held, however old, no resolver fetches or sleeps, and the
    held manifest and the manifest cache stay as they are; [cacheTimeout]
    only bears on direct calls of [loadManifest]. *)
Theorem resolvers_keep_held_manifest
  (k : Resolver) (name : string) (l : CDNAssetLoader) (w : World) (m : AssetManifest) :
  manifest l = Some m ->
  (resolve k name l w).2 = w
  /\ manifest (resolve k name l w).1.2 = Some m
  /\ manifestCache (resolve k name l w).1.2 = manifestCache l.
Proof.
  intros Hm. rewrite resolve_unfold.
  destruct (cached_url l name); [auto|].
  rewrite (loadIfMissing_held l w m Hm).
  destruct (findAsset l _); cbn; auto.
Qed.

Lemma resolvers_keep_held_manifest_witness :
  (resolve Urdf "robot.urdf" loaded_loader (mkWorld 999999999 failing_network 0 [])).2
    = mkWorld 999999999 failing_network 0 []
  /\ manifest (resolve Urdf "robot.urdf" loaded_loader
                 (mkWorld 999999999 failing_network 0 [])).1.2 = Some test_manifest
  /\ manifestCache (resolve Urdf "robot.urdf" loaded_loader
                      (mkWorld 999999999 failing_network 0 [])).1.2
     = manifestCache loaded_loader.
Proof.
  apply (resolvers_keep_held_manifest Urdf "robot.urdf" loaded_loader
           (mkWorld 999999999 failing_network 0 []) test_manifest).
  reflexivity.
Defined.

(** X19. [getUrdfUrl name], with no cached URL for [name] and a manifest
    held, looks only at entries of type 'application/xml': it takes the
    first entry whose [original] is [name] and whose type is that one,
    passing over entries of the same name and another type, and returns
    its own URL when it has a non-empty one and else [publicUrl/processed],
    which is the URL [getAssetUrl] gives that entry; the URL is cached
    under [name]. With no such entry it throws 'URDF not found', naming
    [name], and changes nothing. *)
Theorem getUrdfUrl_resolves
  (name : string) (l : CDNAssetLoader) (w : World) (m : AssetManifest) :
  manifest l = Some m ->
  cached_url l name = None ->
  (forall pre a post,
     assets m = pre ++ a :: post ->
     Forall (fun x => original x <> name \/ type_ x <> "application/xml") pre ->
     original a = name -> type_ a = "application/xml" ->
     getUrdfUrl name l w =
       (Resolved (resolved_url l a), set_assetUrl l name (resolved_url l a), w)
     /\ resolved_url l a = or_else (url a) (publicUrl l +:+ "/" +:+ processed a)
     /\ assetUrlCache (set_assetUrl l name (resolved_url l a)) !! name
        = Some (resolved_url l a)) /\
  (Forall (fun x => original x <> name \/ type_ x <> "application/xml") (assets m) ->
   getUrdfUrl name l w = (Raised (UrdfNotFound name), l, w)).
Proof.
  intros Hm Hc.
  assert (Hsel : forall x, original x <> name \/ type_ x <> "application/xml" ->
                           selects Urdf name x = false).
  { intros x [Hx|Hx]; cbn [selects].
    - destruct (String.eqb_spec (original x) name); [contradiction | reflexivity].
    - destruct (String.eqb_spec (type_ x) "application/xml"); [contradiction|].
      apply andb_false_r. }
  assert (Hshape : forall r,
            List.find (selects Urdf name) (assets m) = r ->
            getUrdfUrl name l w =
              match r with
              | None => (Raised (UrdfNotFound name), l, w)
              | Some a =>
                  (Resolved (or_else (url a) (publicUrl l +:+ "/" +:+ processed a)),
                   set_assetUrl l name
                     (or_else (url a) (publicUrl l +:+ "/" +:+ processed a)), w)
              end).
  { intros r <-. change (getUrdfUrl name l w) with (resolve Urdf name l w).
    rewrite resolve_unfold, Hc, (loadIfMissing_held l w m Hm).
    unfold findAsset. rewrite Hm. cbn [mbind option_bind].
    destruct (List.find _ _); reflexivity. }
  split.
  - intros pre a post Ha Hpre Ho Ht.
    assert (Hu : resolved_url l a = or_else (url a) (publicUrl l +:+ "/" +:+ processed a)).
    { unfold resolved_url, constructAssetUrl. rewrite Ht. reflexivity. }
    rewrite Hu. split; [|split; [reflexivity | apply lookup_insert_eq]].
    apply (Hshape (Some a)). rewrite Ha. apply find_first.
    + eapply Forall_impl; [exact Hpre | exact Hsel].
    + cbn [selects]. rewrite Ho, Ht, String.eqb_refl. reflexivity.
  - intros Hnone. apply (Hshape None). apply find_nothing.
    eapply Forall_impl; [exact Hnone | exact Hsel].
Qed.

Lemma getUrdfUrl_resolves_witness :
  getUrdfUrl "robot.urdf" loaded_loader (mkWorld 0 failing_network 0 []) =
    (Resolved "https://assets.openarm.dev/robot.1a2b.urdf",
     set_assetUrl loaded_loader "robot.urdf" "https://assets.openarm.dev/robot.1a2b.urdf",
     mkWorld 0 failing_network 0 [])
  /\ getUrdfUrl "base.stl" loaded_loader (mkWorld 0 failing_network 0 []) =
       (Raised (UrdfNotFound "base.stl"), loaded_loader, mkWorld 0 failing_network 0 []).
Proof.
  split.
  - refine (proj1 (proj1 (getUrdfUrl_resolves "robot.urdf" loaded_loader
                            (mkWorld 0 failing_network 0 []) test_manifest eq_refl eq_refl)
                     [] urdf_asset [base_asset; arm_asset; base_duplicate]
                     eq_refl _ eq_refl eq_refl)).
    apply Forall_nil_2.
  - refine (proj2 (getUrdfUrl_resolves "base.stl" loaded_loader
                     (mkWorld 0 failing_network 0 []) test_manifest eq_refl eq_refl) _).
    repeat (apply Forall_cons_2; [first [left; discriminate | right; discriminate]|]).
    apply Forall_nil_2.
Defined.

(** ** Package URLs *)

Lemma split_on_nonempty sep s : split_on sep s <> [].
Proof.
  destruct s as [|c s]; cbn [split_on]; [discriminate|].
  destruct (Ascii.eqb c sep); [discriminate|].
  destruct (split_on sep s); discriminate.
Qed.

Lemma split_on_plain sep s : has_char sep s = false -> split_on sep s = [s].
Proof.
  induction s as [|c s IH]; cbn [has_char split_on]; [reflexivity|].
  intros H. apply orb_false_elim in H as [Hc Hs].
  rewrite Hc, (IH Hs). reflexivity.
Qed.

Lemma append_nil (s : string) : "" +:+ s = s.
Proof. reflexivity. Qed.

Lemma append_cons c (a b : string) : String c a +:+ b = String c (a +:+ b).
Proof. reflexivity. Qed.

Lemma split_on_app sep a b :
  split_on sep (a +:+ String sep b) = split_on sep a ++ split_on sep b.
Proof.
  induction a as [|c a IH]; rewrite ?append_nil, ?append_cons; cbn [split_on].
  - rewrite Ascii.eqb_refl. reflexivity.
  - destruct (Ascii.eqb c sep); rewrite IH.
    + reflexivity.
    + destruct (split_on sep a) as [|seg segs] eqn:E;
        [destruct (split_on_nonempty _ _ E) | reflexivity].
Qed.

Lemma last_app_nonempty {A} (l1 l2 : list A) d :
  l2 <> [] -> List.last (l1 ++ l2) d = List.last l2 d.
Proof.
  intros H. induction l1 as [|x l1 IH]; [reflexivity|].
  cbn [app]. destruct (l1 ++ l2) eqn:E; [|exact IH].
  apply app_eq_nil in E as [_ E]. contradiction.
Qed.

Lemma last_segment_app a file :
  has_char "/" file = false -> last_segment (a +:+ String "/" file) = file.
Proof.
  intros H. unfold last_segment.
  rewrite split_on_app, last_app_nonempty by apply split_on_nonempty.
  rewrite (split_on_plain _ _ H). reflexivity.
Qed.

Lemma backslashes_app a b :
  backslashes_to_slashes (a +:+ b) = backslashes_to_slashes a +:+ backslashes_to_slashes b.
Proof.
  induction a as [|c a IH]; rewrite ?append_nil, ?append_cons;
    cbn [backslashes_to_slashes]; [reflexivity | rewrite IH; reflexivity].
Qed.

Lemma backslashes_plain s : has_char "\" s = false -> backslashes_to_slashes s = s.
Proof.
  induction s as [|c s IH]; cbn [has_char backslashes_to_slashes]; [reflexivity|].
  intros H. apply orb_false_elim in H as [Hc Hs]. rewrite Hc, (IH Hs). reflexivity.
Qed.

Lemma prefix_split p : forall s,
  String.prefix p s = true -> exists rest, s = p +:+ rest.
Proof.
  induction p as [|c p IH]; intros s H.
  - exists s. reflexivity.
  - destruct s as [|c' s]; [discriminate|]. cbn [String.prefix] in H.
    destruct (ascii_dec c c') as [->|]; [|discriminate].
    destruct (IH s H) as [rest ->]. exists rest. reflexivity.
Qed.

Lemma drop_chars_app p : forall rest, drop_chars (String.length p) (p +:+ rest) = rest.
Proof. induction p as [|c p IH]; intros rest; [reflexivity | apply IH]. Qed.

Lemma remove_first_prefix p s :
  String.prefix p s = true -> remove_first p s = drop_chars (String.length p) s.
Proof. intros H. destruct s; cbn [remove_first]; rewrite H; reflexivity. Qed.

(** Removing a leading 'package://' leaves the last segment as it is. *)
Lemma last_segment_stripped a file :
  has_char "/" file = false ->
  startsWith (a +:+ String "/" file) "package://" = true ->
  last_segment (remove_first "package://" (a +:+ String "/" file)) = file.
Proof.
  intros Hf Hp. unfold startsWith in Hp. rewrite (remove_first_prefix _ _ Hp).
  destruct (prefix_split _ _ Hp) as [rest E]. rewrite E, drop_chars_app.
  clear Hp.
  do 8 (destruct a as [|? a]; rewrite ?append_nil, ?append_cons in E;
        [discriminate E | injection E as _ E]).
  destruct a as [|? a]; rewrite ?append_nil, ?append_cons in E.
  { injection E as E. subst file. discriminate Hf. }
  injection E as _ E.
  destruct a as [|? a]; rewrite ?append_nil, ?append_cons in E.
  { injection E as E. subst rest. unfold last_segment.
    rewrite (split_on_plain _ _ Hf). reflexivity. }
  injection E as _ E. subst rest. apply last_segment_app, Hf.
Qed.

Lemma plain_not_package file :
  has_char "/" file = false -> startsWith file "package://" = false.
Proof.
  intros Hf. unfold startsWith.
  destruct (String.prefix "package://" file) eqn:Hp; [|reflexivity].
  destruct (prefix_split _ _ Hp) as [rest ->]. vm_compute in Hf. discriminate Hf.
Qed.

(** X20. [resolvePackageUrl] resolves by the last path segment alone: for
    a URL made of any directory part, a slash or a backslash, and a name
    without separators, with or without a leading 'package://', the
    result is that of [getAssetUrl] on the name, whatever the directory
    part; a name alone resolves the same way. When the name is empty, the
    URL ending in a separator or being empty, it throws 'Invalid package
    URL' with the URL as given, before any lookup. *)
Theorem resolvePackageUrl_uses_last_segment
  (dir file : string) (sep : ascii) (l : CDNAssetLoader) (w : World) :
  sep = "/"%char \/ sep = "\"%char ->
  plain_name file ->
  let packageUrl := dir +:+ String sep file in
  resolvePackageUrl packageUrl l w =
    (if String.eqb file "" then (Raised (InvalidPackageUrl packageUrl), l, w)
     else lift (getAssetUrl file l w))
  /\ resolvePackageUrl file l w =
       (if String.eqb file "" then (Raised (InvalidPackageUrl file), l, w)
        else lift (getAssetUrl file l w)).
Proof.
  intros Hsep [Hslash Hback]. cbn zeta. split.
  - unfold resolvePackageUrl.
    assert (Hn : backslashes_to_slashes (dir +:+ String sep file)
                 = backslashes_to_slashes dir +:+ String "/" file).
    { rewrite backslashes_app. cbn [backslashes_to_slashes].
      rewrite (backslashes_plain _ Hback).
      destruct Hsep as [-> | ->]; reflexivity. }
    rewrite Hn.
    fold (last_segment
            (if startsWith (backslashes_to_slashes dir +:+ String "/" file) "package://"
             then remove_first "package://"
                    (backslashes_to_slashes dir +:+ String "/" file)
             else backslashes_to_slashes dir +:+ String "/" file)).
    destruct (startsWith _ "package://") eqn:Hp.
    + rewrite (last_segment_stripped _ _ Hslash Hp). reflexivity.
    + rewrite (last_segment_app _ _ Hslash). reflexivity.
  - unfold resolvePackageUrl.
    rewrite (backslashes_plain _ Hback), (plain_not_package _ Hslash).
    rewrite (split_on_plain _ _ Hslash). reflexivity.
Qed.

Lemma resolvePackageUrl_uses_last_segment_witness :
  resolvePackageUrl "package://openarm_description/meshes\base.stl" loaded_loader
    (mkWorld 0 failing_network 0 [])
  = lift (getAssetUrl "base.stl" loaded_loader (mkWorld 0 failing_network 0 [])).
Proof.
  refine (proj1 (resolvePackageUrl_uses_last_segment
                   "package://openarm_description/meshes" "base.stl" "\"
                   loaded_loader (mkWorld 0 failing_network 0 []) _ _)).
  - right. reflexivity.
  - split; reflexivity.
Defined.

(** ** Validation and the manifest type *)

(** X21. On a document that has the shape of an [AssetManifest],
    [validateManifest] throws exactly when [version] or [generated] is
    the empty string, and then the missing-fields error: an empty list of
    assets is accepted, and nothing about the entries is checked. *)
Theorem validateManifest_on_typed (v : JsonValue) (m : AssetManifest) :
  as_manifest v = Some m ->
  validateManifest v =
    if String.eqb (version m) "" || String.eqb (generated m) ""
    then Some InvalidManifestMissingFields
    else None.
Proof.
  unfold as_manifest, validateManifest. intros H.
  destruct v as [| | | | |props]; try discriminate H.
  cbn [truthy typeof_object negb orb].
  destruct (prop (JObject props) "version") as [[| | |ver| |]|]; try discriminate H.
  destruct (prop (JObject props) "generated") as [[| | |gen| |]|]; try discriminate H.
  cbn [as_string mbind option_bind] in H.
  destruct (as_optional_string (prop (JObject props) "processor")) as [proc|];
    [|discriminate H].
  cbn [mbind option_bind] in H.
  destruct (prop (JObject props) "assets") as [[| | | |items|]|]; try discriminate H.
  destruct (mapM as_asset items) as [its|]; [|discriminate H].
  cbn [mbind option_bind] in H. injection H as <-.
  cbn [version generated falsy truthy isArray negb orb].
  rewrite !negb_involutive, orb_false_r. reflexivity.
Qed.

Lemma validateManifest_on_typed_witness :
  validateManifest manifest_document = None.
Proof. exact (validateManifest_on_typed manifest_document served_manifest eq_refl). Defined.

(** ** Starting a reader again *)

Lemma push_view (b1 b2 : list Z) (i : nat) (v : Z) :
  length b1 = length b2 -> take i b1 = take i b2 ->
  take (S i) (<[i := v]> b1) = take (S i) (<[i := v]> b2).
Proof.
  intros Hlen Ht. destruct (Nat.lt_ge_cases i (length b1)) as [Hi|Hi].
  - rewrite !take_push by lia. rewrite Ht. reflexivity.
  - rewrite !list_insert_ge by lia.
    rewrite !take_ge in Ht by lia. rewrite !take_ge by lia. exact Ht.
Qed.

Lemma rd_view (b1 b2 : list Z) (n j : nat) :
  take n b1 = take n b2 -> (j < n)%nat -> rd b1 j = rd b2 j.
Proof.
  intros Ht Hj. rewrite <- (rd_take b1 n j Hj), <- (rd_take b2 n j Hj), Ht. reflexivity.
Qed.

Lemma take_1_insert_0 (b1 b2 : list Z) (v : Z) :
  length b1 = length b2 -> take 1 (<[0%nat := v]> b1) = take 1 (<[0%nat := v]> b2).
Proof. destruct b1, b2; cbn; intros H; try discriminate H; reflexivity. Qed.

Lemma processByte_view r1 r2 b :
  same_view r1 r2 ->
  same_view (processByte r1 b).1 (processByte r2 b).1
  /\ (processByte r1 b).2 = (processByte r2 b).2.
Proof.
  destruct r1 as [st1 buf1 idx1 exp1 rd1], r2 as [st2 buf2 idx2 exp2 rd2].
  intros (Hst & Hidx & Hrd & Hlen & Ht & Hexp). reader_fields. subst st2 idx2 rd2.
  pose proof (push_view buf1 buf2 idx1 (to_uint8 b) Hlen Ht) as Hpush.
  assert (Hlen' : length (<[idx1 := to_uint8 b]> buf1)
                  = length (<[idx1 := to_uint8 b]> buf2))
    by (rewrite !length_insert; exact Hlen).
  unfold processByte. reader_fields. destruct st1.
  - split; [|reflexivity]. unfold same_view; cbn [fst snd]; reader_fields. auto 10.
  - split; [|reflexivity]. unfold handleSyncing, push_byte. reader_fields.
    destruct (Nat.leb_spec 2 (S idx1)) as [H2|H2].
    + rewrite (rd_view _ _ (S idx1) 0 Hpush) by lia.
      rewrite (rd_view _ _ (S idx1) 1 Hpush) by lia.
      destruct (_ =? SYNC_WORD); unfold same_view; cbn [fst snd]; reader_fields.
      * split; [reflexivity|]. split; [reflexivity|]. split; [reflexivity|].
        split; [exact Hlen'|]. split; [exact Hpush | discriminate].
      * split; [reflexivity|]. split; [reflexivity|]. split; [reflexivity|].
        split; [rewrite !length_insert; exact Hlen|].
        split; [apply take_1_insert_0, Hlen' | discriminate].
    + unfold same_view; cbn [fst snd]; reader_fields.
      split; [reflexivity|]. split; [reflexivity|]. split; [reflexivity|].
      split; [exact Hlen'|]. split; [exact Hpush | discriminate].
  - split; [|reflexivity]. unfold handleReadingHeader, push_byte. reader_fields.
    destruct (Nat.leb_spec 4 (S idx1)) as [H4|H4]; unfold same_view; cbn [fst snd]; reader_fields.
    + split; [reflexivity|]. split; [reflexivity|]. split; [reflexivity|].
      split; [exact Hlen'|]. split; [exact Hpush|].
      intros _. apply (rd_view _ _ (S idx1) 2 Hpush). lia.
    + split; [reflexivity|]. split; [reflexivity|]. split; [reflexivity|].
      split; [exact Hlen'|]. split; [exact Hpush | discriminate].
  - rewrite <- (Hexp eq_refl).
    unfold handleReadingPayload, push_byte. reader_fields.
    destruct (_ <=? _).
    + cbn [fst snd]. split.
      * unfold same_view, resetState; cbn [fst snd]; reader_fields.
        split; [reflexivity|]. split; [reflexivity|]. split; [reflexivity|].
        split; [exact Hlen'|]. split; [reflexivity | discriminate].
      * unfold processPacket. reader_fields. rewrite !slice_prefix, Hpush. reflexivity.
    + cbn [fst snd]. split; [|reflexivity]. unfold same_view; cbn [fst snd]; reader_fields.
      split; [reflexivity|]. split; [reflexivity|]. split; [reflexivity|].
      split; [exact Hlen'|]. split; [exact Hpush | reflexivity].
Qed.

Lemma processBytes_view data : forall r1 r2,
  same_view r1 r2 ->
  same_view (processBytes r1 data).1 (processBytes r2 data).1
  /\ (processBytes r1 data).2 = (processBytes r2 data).2.
Proof.
  induction data as [|b data IH]; intros r1 r2 Hv; [split; [exact Hv | reflexivity]|].
  cbn [processBytes].
  destruct (processByte_view r1 r2 b Hv) as [Hv1 Ho1].
  destruct (processByte r1 b) as [r1' o1], (processByte r2 b) as [r2' o2].
  cbn [fst snd] in Hv1, Ho1.
  destruct (IH r1' r2' Hv1) as [Hv2 Ho2].
  destruct (processBytes r1' data) as [r1'' o1'], (processBytes r2' data) as [r2'' o2'].
  cbn [fst snd] in *. split; [exact Hv2 | congruence].
Qed.

Lemma readLoop_view reads : forall r1 r2,
  same_view r1 r2 -> (readLoop r1 reads).2 = (readLoop r2 reads).2.
Proof.
  induction reads as [|[value| |] reads IH]; intros r1 r2 Hv; try reflexivity.
  cbn [readLoop].
  destruct (processBytes_view value r1 r2 Hv) as [Hv1 Ho1].
  destruct (processBytes r1 value) as [r1' o1], (processBytes r2 value) as [r2' o2].
  cbn [fst snd] in Hv1, Ho1.
  pose proof (IH r1' r2' Hv1) as Ho2.
  destruct (readLoop r1' reads) as [r1'' o1'], (readLoop r2' reads) as [r2'' o2'].
  cbn [fst snd] in *. congruence.
Qed.

Lemma processByte_buffer_length r b :
  length (buffer (processByte r b).1) = length (buffer r).
Proof.
  unfold processByte. destruct (state r); cbn [fst].
  - reflexivity.
  - unfold handleSyncing, push_byte. reader_fields.
    destruct (_ <=? _)%nat; [|reader_fields; apply length_insert].
    destruct (_ =? _); reader_fields; rewrite ?length_insert; reflexivity.
  - unfold handleReadingHeader, push_byte. reader_fields.
    destruct (_ <=? _)%nat; reader_fields; apply length_insert.
  - unfold handleReadingPayload, push_byte. reader_fields.
    destruct (_ <=? _); cbn [fst resetState]; reader_fields; apply length_insert.
Qed.

Lemma processBytes_buffer_length data : forall r,
  length (buffer (processBytes r data).1) = length (buffer r).
Proof.
  induction data as [|b data IH]; intros r; [reflexivity|].
  cbn [processBytes]. pose proof (processByte_buffer_length r b) as H1.
  destruct (processByte r b) as [r1 o1]. cbn [fst] in H1.
  pose proof (IH r1) as H2. destruct (processBytes r1 data) as [r2 o2].
  cbn [fst] in *. congruence.
Qed.

Lemma start_buffer_length r reads :
  length (buffer (start r reads).1) = length (buffer r).
Proof.
  unfold start. destruct (isReading r); [reflexivity|].
  match goal with |- context [readLoop ?r0 reads] =>
    destruct (readLoop_split reads r0) as (b & tail & E & _) end.
  rewrite E. cbn [fst with_isReading buffer].
  rewrite processBytes_buffer_length. reflexivity.
Qed.

(** X22. A reader can be started again once a session has ended, and
    then behaves as a new one: whatever the first session received and
    left in the buffer (a frame cut short by the end of the stream
    included), the callbacks of the second session are exactly those of a
    fresh reader given the same reads. *)
Theorem restarted_reader_is_fresh (reads0 reads : list ReadResult) :
  isReading (start Reader.new reads0).1 = false ->
  (start (start Reader.new reads0).1 reads).2 = (start Reader.new reads).2.
Proof.
  intros Hoff. unfold start at 1. rewrite Hoff.
  unfold start at 2. cbn [isReading Reader.new].
  apply readLoop_view. unfold same_view. reader_fields.
  split; [reflexivity|]. split; [reflexivity|]. split; [reflexivity|].
  split; [apply start_buffer_length|]. split; [reflexivity | discriminate].
Qed.

Lemma restarted_reader_is_fresh_witness :
  (start (start Reader.new [Chunk [0xAA; 0x55; 3; 1; 9]; Done]).1
     [Chunk [0xAA; 0x55; 1; 2; 3; 1]]).2
  = (start Reader.new [Chunk [0xAA; 0x55; 1; 2; 3; 1]]).2.
Proof.
  apply (restarted_reader_is_fresh [Chunk [0xAA; 0x55; 3; 1; 9]; Done]
           [Chunk [0xAA; 0x55; 1; 2; 3; 1]]).
  vm_compute. reflexivity.
Defined.
